(** * The Flow Runner of prefect.engine.flow_runner

    A shallow embedding of [FlowRunner] (src/prefect/engine/flow_runner.py):
    the pre-flight checks of [run], the two flow-level transitions, the
    dispatch loop and the aggregation of [get_flow_run_state].

    The collaborators that the module imports ([State] and its subclasses,
    [Flow], the executor, [call_state_handlers], [flatten_seq], the context)
    live in other modules; each of them is modelled from the specification
    and marked as such. *)

From Stdlib Require Import ZArith Lia.
From stdpp Require Import gmap strings list fin_maps sorting.

Local Open Scope string_scope.
Local Open Scope list_scope.

(** ** Python values *)

(** The values that travel through the runner untouched ([Any] in the
    annotations): task results, cached inputs, context entries. *)
Inductive PyValue : Type :=
| PyNone
| PyBool (b : bool)
| PyInt (z : Z)
| PyStr (s : string).

Global Instance PyValue_eq_dec : EqDecision PyValue.
Proof. solve_decision. Defined.

(** Truth value of a Python object, as [if x:] computes it. *)
Definition truthy (v : PyValue) : bool :=
  match v with
  | PyNone => false
  | PyBool b => b
  | PyInt z => negb (z =? 0)%Z
  | PyStr s => negb (String.eqb s "")
  end.

(** A task is a node "identified by stable identity": its identity is all the
    runner ever uses (dictionary keys, set members). *)
Abbreviation Task := nat (only parsing).

(** The exceptions that [run] and [get_flow_run_state] raise themselves;
    [TypeError] is the one of [dict.update(None)]. *)
Inductive Exn : Type :=
| ValueError (msg : string)
| KeyError (t : Task)
| AssertionError
| TypeError.

Global Instance Exn_eq_dec : EqDecision Exn.
Proof. solve_decision. Defined.

(** ** State algebra *)

(** Modelled from the spec: prefect.engine.state, the closed set of state
    variants of section 3 of the specification. *)
Inductive StateKind : Type :=
| Pending | Scheduled | Retrying
| Running
| Success | Cached | Failed | TriggerFailed | Skipped | TimedOut.

Global Instance StateKind_eq_dec : EqDecision StateKind.
Proof. solve_decision. Defined.

(** [message] is a string, or the exception itself in [Failed(message=exc)]. *)
Inductive Message : Type :=
| NoMessage
| Msg (s : string)
| MsgExc (e : Exn).

Global Instance Message_eq_dec : EqDecision Message.
Proof. solve_decision. Defined.

(** Modelled from the spec: a state carries an optional [message] and
    [result]; [cached_inputs] is the extra field of [Pending] (and of the
    success variants): a dictionary, or [None] in a state that was made
    without one.  [R] is the type of the result: a Python value for a task
    state, the [return_states] mapping for a flow state. *)
Record State (R : Type) : Type := mkState {
  kind : StateKind;
  message : Message;
  result : option R;
  cached_inputs : option (gmap string PyValue)
}.
Arguments mkState {R} _ _ _ _.
Arguments kind {R} _.
Arguments message {R} _.
Arguments result {R} _.
Arguments cached_inputs {R} _.

Global Instance State_eq_dec (R : Type) `{EqDecision R} : EqDecision (State R).
Proof. solve_decision. Defined.

Section Predicates.
  Context {R : Type}.

(** Modelled from the spec: the category of each variant (table of
    section 3): not-started, in-progress, finished; success-like and
    failed-like variants answer like [Success] and [Failed]. *)
Definition is_pending (s : State R) : bool :=
  match kind s with
  | Pending | Scheduled | Retrying => true
  | _ => false
  end.

Definition is_running (s : State R) : bool :=
  match kind s with
  | Running => true
  | _ => false
  end.

Definition is_finished (s : State R) : bool :=
  match kind s with
  | Success | Cached | Failed | TriggerFailed | Skipped | TimedOut => true
  | _ => false
  end.

Definition is_successful (s : State R) : bool :=
  match kind s with
  | Success | Cached | Skipped => true
  | _ => false
  end.

Definition is_failed (s : State R) : bool :=
  match kind s with
  | Failed | TriggerFailed | TimedOut => true
  | _ => false
  end.

(** [isinstance(state, (Failed, Retrying))]. *)
Definition isinstance_Failed_Retrying (s : State R) : bool :=
  is_failed s || bool_decide (kind s = Retrying).
End Predicates.

Abbreviation TaskState := (State PyValue) (only parsing).

(** Modelled from the spec: "a mapped task's state is a sequence of child
    states"; what a task's entry holds once it is resolved is a single state
    or a sequence ([State = Scalar | Mapped([State])]). *)
#[warnings="-register-all"]
Inductive Final : Type :=
| One (s : TaskState)
| Many (children : list Final).

Global Instance Final_eq_dec : EqDecision Final.
Proof.
  refine (fix go (x y : Final) {struct x} : Decision (x = y) :=
    match x, y with
    | One a, One b => cast_if (decide (a = b))
    | Many l1, Many l2 => cast_if (@list_eq_dec _ go l1 l2)
    | _, _ => right _
    end); congruence.
Defined.

(** Modelled from the spec: prefect.utilities.collections.flatten_seq, which
    yields the leaves of a nested sequence in order. *)
Fixpoint flatten (v : Final) : list TaskState :=
  match v with
  | One s => [s]
  | Many children => flat_map flatten children
  end.

Definition flatten_seq (seq : list Final) : list TaskState :=
  flat_map flatten seq.

(** A flow state's [result] is the [return_states] dictionary. *)
Abbreviation FlowState := (State (gmap Task Final)) (only parsing).

(** What [task_states] holds while the flow runs: a state the caller supplied
    (or the default), or the handle that [executor.submit] / [executor.map]
    returned. *)
Inductive StateRef : Type :=
| Known (v : Final)
| Future (id : nat).

Global Instance StateRef_eq_dec : EqDecision StateRef.
Proof. solve_decision. Defined.

(** ** The flow *)

(** Modelled from the spec: prefect.core.Edge, a directed
    [(upstream, downstream, key, mapped)]. *)
Record Edge : Type := mkEdge {
  upstream_task : Task;
  downstream_task : Task;
  key : option string;
  mapped : bool
}.

Global Instance Edge_eq_dec : EqDecision Edge.
Proof. solve_decision. Defined.

Global Instance Edge_countable : Countable Edge :=
  inj_countable'
    (λ e, (upstream_task e, downstream_task e, key e, mapped e))
    (λ '(u, d, k, m), mkEdge u d k m)
    (λ e, match e with mkEdge _ _ _ _ => eq_refl end).

(** A [Dict[str, int]] of tag budgets, in insertion order (the order in which
    [throttle.items()] yields them). *)
Abbreviation Throttle := (list (string * Z)) (only parsing).

(** A state handler of the flow, called as [handler(flow, old_state,
    new_state)]; the flow argument is the flow that owns the handler. *)
Abbreviation Handler := (FlowState → FlowState → FlowState) (only parsing).

(** Modelled from the spec: prefect.core.Flow, the part of its interface that
    the runner consumes (section 6): [tasks], the edges, [task_info[t]["mapped"]],
    the user's reference tasks if any, [state_handlers], [throttle], [name],
    [version], and the tags of every task. *)
Record Flow : Type := mkFlow {
  name : string;
  version : string;
  tasks : gset Task;
  edges : list Edge;
  task_info_mapped : Task → bool;
  task_tags : Task → gset string;
  user_reference_tasks : option (gset Task);
  state_handlers : list Handler;
  flow_throttle : Throttle
}.

Section FlowQueries.
  Variable flow : Flow.

(** Modelled from the spec: [Flow.edges_to(task)], the edges into a task. *)
Definition edges_to (task : Task) : list Edge :=
  filter (λ e, downstream_task e = task) (edges flow).

Definition upstream_tasks (task : Task) : list Task :=
  upstream_task <$> edges_to task.

Definition downstream_tasks (task : Task) : list Task :=
  downstream_task <$> filter (λ e, upstream_task e = task) (edges flow).

(** Modelled from the spec: [root_tasks] have no incoming edge,
    [terminal_tasks] no outgoing edge, and [reference_tasks] "defaults to
    terminal; user-overridable". *)
Definition root_tasks : gset Task :=
  filter (λ t, edges_to t = []) (tasks flow).

Definition terminal_tasks : gset Task :=
  filter (λ t, downstream_tasks t = []) (tasks flow).

Definition reference_tasks : gset Task :=
  default terminal_tasks (user_reference_tasks flow).

(** The tasks reachable from [seen] in at most [fuel] steps along the
    edges. *)
Fixpoint reachable (fuel : nat) (seen : gset Task) : gset Task :=
  match fuel with
  | O => seen
  | S fuel' =>
      reachable fuel' (seen ∪ list_to_set (elements seen ≫= downstream_tasks))
  end.

(** [ready remaining t]: no upstream task of [t] is still to be sorted. *)
Definition ready (remaining : list Task) (t : Task) : Prop :=
  Forall (λ u, u ∉ remaining) (upstream_tasks t).

Global Instance ready_dec remaining t : Decision (ready remaining t).
Proof. unfold ready. apply _. Defined.

(** One pass per round: the tasks whose upstream tasks are all sorted move
    to the end of the sorted list; a round that moves nothing has found a
    cycle. *)
Fixpoint sort_rounds (fuel : nat) (remaining sorted : list Task)
  : option (list Task) :=
  match remaining with
  | [] => Some sorted
  | _ :: _ =>
      match fuel with
      | O => None
      | S fuel' =>
          match filter (ready remaining) remaining with
          | [] => None
          | now =>
              sort_rounds fuel' (filter (λ t, ¬ ready remaining t) remaining)
                          (sorted ++ now)
          end
      end
  end.

(** Modelled from the spec: [Flow.sorted_tasks(root_tasks)], "a topological
    order restricted to the reachable subgraph from roots"; without roots
    the flow's own root tasks are taken ([start_tasks] "defaults to
    self.flow.root_tasks()").  [None] stands for the error of a flow that
    is not acyclic. *)
Definition sorted_tasks (roots : list Task) : option (list Task) :=
  let roots := match roots with [] => elements root_tasks | _ => roots end in
  let selected := elements (reachable (length (edges flow)) (list_to_set roots)) in
  sort_rounds (length selected) selected [].
End FlowQueries.

(** ** Context, executor, and what the runner hands to the executor *)

(** An entry of the run context: a plain value, or the [parameters]
    dictionary stored under [_parameters]. *)
Inductive CtxValue : Type :=
| CtxVal (v : PyValue)
| CtxParameters (p : option (gmap string PyValue)).

Definition ctx_truthy (c : CtxValue) : bool :=
  match c with
  | CtxVal v => truthy v
  | CtxParameters None => false
  | CtxParameters (Some d) => negb (bool_decide (d = ∅))
  end.

Abbreviation Context := (gmap string CtxValue) (only parsing).

(** Modelled from the spec: the executor interface (section 4.1).  [submit]
    and [map] return an opaque handle; [resolve id] is the value that the
    handle number [id] of this run resolves to when waited on. *)
Record Executor : Type := mkExecutor {
  executor_id : string;
  resolve : nat → Final
}.

(** [executor.queue(size)] filled with the tickets [0 .. size-1]. *)
Record Queue : Type := mkQueue {
  maxsize : Z;
  tickets : list Z
}.

(** The keyword arguments of one [executor.submit(task_runner.run, ...)] or
    [executor.map(task_runner.run, ...)], for the runner of [call_task].
    ([timeout_handler] is the executor's own attribute and is left out.) *)
Record Call : Type := mkCall {
  call_task : Task;
  call_state : option StateRef;
  call_upstream_states : gmap Edge StateRef;
  call_inputs : gmap string PyValue;
  call_ignore_trigger : bool;
  call_context : Context;
  call_queues : list Queue
}.

(** What the executor sees, in order. *)
Inductive Event : Type :=
| EvQueue (size : Z)
| EvSubmit (id : nat) (c : Call)
| EvMap (id : nat) (c : Call)
| EvWait (f : StateRef)
| EvWaitAll (m : gmap Task StateRef).

(** The task of a dispatch event. *)
Definition dispatched (ev : Event) : option Task :=
  match ev with
  | EvSubmit _ c | EvMap _ c => Some (call_task c)
  | _ => None
  end.

(** The tasks dispatched by a trace, in order. *)
Definition dispatch_order (trace : list Event) : list Task :=
  omap dispatched trace.

(** ** The runner monad *)

(** The mutable part of a run: the [task_states] dictionary, the number of
    handles the executor has issued, and the events so far. *)
Record Sched : Type := mkSched {
  task_states : gmap Task StateRef;
  issued : nat;
  events : list Event
}.

Definition empty_sched : Sched := mkSched ∅ 0 [].

(** How a step ends: it returns, it raises [ENDRUN(state)], or it raises
    another exception. *)
Inductive Outcome (A : Type) : Type :=
| Return (a : A)
| EndRun (s : FlowState)
| Raise (e : Exn).
Arguments Return {A} _.
Arguments EndRun {A} _.
Arguments Raise {A} _.

Definition Runner (A : Type) : Type := Sched → Outcome A * Sched.

Global Instance Runner_ret : MRet Runner := λ A a σ, (Return a, σ).

Global Instance Runner_bind : MBind Runner := λ A B k m σ,
  match m σ with
  | (Return a, σ') => k a σ'
  | (EndRun s, σ') => (EndRun s, σ')
  | (Raise e, σ') => (Raise e, σ')
  end.

Definition endrun {A} (s : FlowState) : Runner A := λ σ, (EndRun s, σ).
Definition raise {A} (e : Exn) : Runner A := λ σ, (Raise e, σ).
Definition get_task_states : Runner (gmap Task StateRef) :=
  λ σ, (Return (task_states σ), σ).
Definition set_task_state (t : Task) (v : StateRef) : Runner unit :=
  λ σ, (Return (), mkSched (<[t := v]> (task_states σ)) (issued σ) (events σ)).
Definition emit (ev : Event) : Runner unit :=
  λ σ, (Return (), mkSched (task_states σ) (issued σ) (events σ ++ [ev])).
Definition fresh_handle : Runner nat :=
  λ σ, (Return (issued σ), mkSched (task_states σ) (S (issued σ)) (events σ)).

(** [for x in xs: ...] collecting one value per element. *)
Fixpoint for_each {A B} (f : A → Runner B) (xs : list A) : Runner (list B) :=
  match xs with
  | [] => mret []
  | x :: xs' => y ← f x; ys ← for_each f xs'; mret (y :: ys)
  end.

(** ** Executor operations *)

(** [submit] and [map] issue the next handle; which executor runs the call
    shows only when the handle is waited on. *)
Definition executor_submit (c : Call) : Runner StateRef :=
  id ← fresh_handle; _ ← emit (EvSubmit id c); mret (Future id).

Definition executor_map (c : Call) : Runner StateRef :=
  id ← fresh_handle; _ ← emit (EvMap id c); mret (Future id).

(** [q = executor.queue(size); for i in range(size): q.put(i)]. *)
Definition executor_queue (size : Z) : Runner Queue :=
  _ ← emit (EvQueue size); mret (mkQueue size (seqZ 0%Z size)).

Section ExecutorWait.
  Variable executor : Executor.

(** [executor.wait] "preserves structure": a handle resolves, anything
    else is returned as it is. *)
Definition wait_ref (f : StateRef) : Final :=
  match f with
  | Known v => v
  | Future id => resolve executor id
  end.

Definition executor_wait (f : StateRef) : Runner Final :=
  _ ← emit (EvWait f); mret (wait_ref f).

Definition executor_wait_all (m : gmap Task StateRef)
  : Runner (gmap Task Final) :=
  _ ← emit (EvWaitAll m); mret (wait_ref <$> m).
End ExecutorWait.

(** ** The [task_states] dictionary *)

(** The value that the [defaultdict] makes for a missing task. *)
Definition state_not_available : Final :=
  One (mkState Failed (Msg "Task state not available.") None None).

(** [task_states[t]]: a missing key is filled with the default first. *)
Definition task_states_getitem (t : Task) : Runner StateRef := λ σ,
  match task_states σ !! t with
  | Some v => (Return v, σ)
  | None =>
      (Return (Known state_not_available),
       mkSched (<[t := Known state_not_available]> (task_states σ))
               (issued σ) (events σ))
  end.

(** [task_states = defaultdict(..., task_states or {})]. *)
Definition init_task_states (supplied : option (gmap Task Final)) : Runner unit :=
  λ σ, (Return (),
        mkSched (Known <$> default ∅ supplied) (issued σ) (events σ)).

(** [d[t]] on a plain dictionary, for each [t] in turn. *)
Fixpoint getitems (d : gmap Task Final) (ts : list Task)
  : Runner (list (Task * Final)) :=
  match ts with
  | [] => mret []
  | t :: ts' =>
      match d !! t with
      | None => raise (KeyError t)
      | Some v => rest ← getitems d ts'; mret ((t, v) :: rest)
      end
  end.

(** [isinstance(state, (Failed, Retrying))] on a resolved entry: a list is
    neither. *)
Definition is_failed_or_retrying (v : Final) : bool :=
  match v with
  | One s => isinstance_Failed_Retrying s
  | Many _ => false
  end.

(** ** FlowRunner *)

(** [FlowRunner(flow, task_runner_cls, state_handlers)]: what the task runner
    class makes of a call is what the executor's handles resolve to. *)
Record FlowRunner : Type := mkFlowRunner {
  flow : Flow;
  self_state_handlers : list Handler
}.

Definition string_le (a b : string) : Prop := String.leb a b = true.

Global Instance string_le_dec a b : Decision (string_le a b).
Proof. unfold string_le. apply _. Defined.

(** [sorted(tags)]. *)
Definition sorted (tags : gset string) : list string :=
  merge_sort string_le (elements tags).

(** [min(values, default=d)]. *)
Definition min_default (d : Z) (values : list Z) : Z :=
  match values with
  | [] => d
  | v :: values' => foldl Z.min v values'
  end.

(** [sep.join(parts)]. *)
Definition join (sep : string) (parts : list string) : string :=
  match parts with
  | [] => ""
  | p :: parts' => foldl (λ acc q, acc +:+ sep +:+ q) p parts'
  end.

(** The one-character string holding a double quote. *)
Definition dquote : string := String (Ascii.ascii_of_nat 34) EmptyString.

Definition throttle_message (throttle : Throttle) : string :=
  let bad_tags :=
    join ", " ((λ tn, dquote +:+ tn.1 +:+ dquote) <$>
               filter (λ tn : string * Z, (tn.2 ≤ 0)%Z) throttle) in
  "Cannot throttle tags " +:+ bad_tags +:+
  " - an invalid value less than 1 was provided.".

Definition return_tasks_message : string :=
  "Some tasks in return_tasks were not found in the flow.".

Section Methods.
  Variable self : FlowRunner.

(** Lines 62-76: the flow's state handlers, each fed the previous one's
    answer. *)
Definition call_runner_target_handlers (old_state new_state : FlowState)
  : FlowState :=
  foldl (λ new_state handler, handler old_state new_state)
        new_state (state_handlers (flow self)).

(** Modelled from the spec: [Runner.handle_state_change], which calls the
    target's handlers (it is the caller that the docstring of
    [call_runner_target_handlers] names) and then the runner's own. *)
Definition handle_state_change (old_state new_state : FlowState) : FlowState :=
  foldl (λ new_state handler, handler old_state new_state)
        (call_runner_target_handlers old_state new_state)
        (self_state_handlers self).

(** Modelled from the spec: the decorator [call_state_handlers] of
    prefect.engine.runner: "on any state change, user-registered handlers
    run in order, each receiving (old, new) and returning a
    possibly-substituted new state".  An [ENDRUN] keeps being an [ENDRUN];
    other exceptions pass through.  (In the three methods below a returned
    state that equals the one passed in is that very object.) *)
Definition call_state_handlers (method : FlowState → Runner FlowState)
    (state : FlowState) : Runner FlowState := λ σ,
  let handled new_state :=
    if decide (new_state = state) then new_state
    else handle_state_change state new_state in
  match method state σ with
  | (Return new_state, σ') => (Return (handled new_state), σ')
  | (EndRun new_state, σ') => (EndRun (handled new_state), σ')
  | (Raise e, σ') => (Raise e, σ')
  end.

(** Lines 180-206, the method body. *)
Definition check_flow_is_pending_or_running (state : FlowState)
  : Runner FlowState :=
  if is_finished state then endrun state
  else if negb (is_pending state || is_running state) then endrun state
  else mret state.

(** Lines 208-228, the method body. *)
Definition set_flow_to_running (state : FlowState) : Runner FlowState :=
  if is_pending state then mret (mkState Running (Msg "Running flow.") None None)
  else if is_running state then mret state
  else endrun state.

(** Lines 289-294: one queue of tickets per throttled tag. *)
Fixpoint make_queues (throttle : Throttle) (queues : gmap string Queue)
  : Runner (gmap string Queue) :=
  match throttle with
  | [] => mret queues
  | (tag, size) :: throttle' =>
      q ← executor_queue size;
      make_queues throttle' (<[tag := q]> queues)
  end.

(** Lines 302-303: [upstream_states[edge] = task_states[edge.upstream_task]]
    for every edge into the task. *)
Fixpoint collect_upstream (upstream_states : gmap Edge StateRef)
    (es : list Edge) : Runner (gmap Edge StateRef) :=
  match es with
  | [] => mret upstream_states
  | edge :: es' =>
      f ← task_states_getitem (upstream_task edge);
      collect_upstream (<[edge := f]> upstream_states) es'
  end.

(** Lines 331-335: [{e: executor.wait(f) for e, f in items if mapped}]. *)
Definition wait_mapped (executor : Executor)
    (upstream_states : gmap Edge StateRef) : Runner (gmap Edge StateRef) :=
  waited ← for_each
    (λ ef : Edge * StateRef,
       v ← executor_wait executor ef.2; mret (ef.1, Known v))
    (filter (λ ef, task_info_mapped (flow self) (upstream_task ef.1) = true)
            (map_to_list upstream_states));
  mret (list_to_map waited).

(** Lines 305-311: the cached inputs of a start task whose state was
    provided.  [task_inputs.update(None)] raises [TypeError]. *)
Definition harvest_inputs (start_tasks : list Task) (task : Task)
  : Runner (gmap string PyValue) :=
  ts ← get_task_states;
  if bool_decide (task ∈ start_tasks) && bool_decide (is_Some (ts !! task))
  then
    passed_state ← task_states_getitem task;
    match passed_state with
    | Known (Many _) => mret ∅
    | Known (One s) =>
        if is_pending s then
          match cached_inputs s with
          | Some inputs => mret (inputs ∪ ∅)
          | None => raise TypeError
          end
        else raise AssertionError
    | Future _ => raise AssertionError
    end
  else mret ∅.

(** Lines 298-346: the body of the loop over the sorted tasks. *)
Definition dispatch (executor : Executor) (prefect_context : Context)
    (start_tasks : list Task) (task_contexts : gmap Task Context)
    (queues : gmap string Queue) (task : Task) : Runner unit :=
  upstream_states ← collect_upstream ∅ (edges_to (flow self) task);
  task_inputs ← harvest_inputs start_tasks task;
  let task_queues :=
    omap (λ tag, queues !! tag) (sorted (task_tags (flow self) task)) in
  ts ← get_task_states;
  let kwargs upstream_states :=
    mkCall task (ts !! task) upstream_states task_inputs
           (bool_decide (task ∈ start_tasks))
           (default ∅ (task_contexts !! task) ∪ prefect_context)
           task_queues in
  if task_info_mapped (flow self) task then
    f ← executor_map (kwargs upstream_states);
    set_task_state task f
  else
    upstream_mapped ← wait_mapped executor upstream_states;
    let upstream_states := upstream_mapped ∪ upstream_states in
    f ← executor_submit (kwargs upstream_states);
    set_task_state task f.

(** Lines 357-373: wait for the final states, and widen [return_tasks]
    under [return_failed]. *)
Definition collect_results (executor : Executor) (return_failed : bool)
    (return_tasks : gset Task) : Runner (gmap Task Final * gset Task) :=
  if return_failed then
    ts ← get_task_states;
    final_states ← executor_wait_all executor ts;
    let failed_tasks :=
      dom (filter (λ ts, is_failed_or_retrying ts.2 = true) final_states) in
    mret (final_states, return_tasks ∪ failed_tasks)
  else
    selected ← for_each
      (λ t, f ← task_states_getitem t; mret (t, f))
      (elements (terminal_tasks (flow self) ∪ reference_tasks (flow self)
                 ∪ return_tasks));
    final_states ← executor_wait_all executor (list_to_map selected);
    mret (final_states, return_tasks).

(** Lines 381-410: the flow state from the flattened terminal and
    reference states.  ([set(...)] only drops duplicates, which [all] and
    [any] do not see.) *)
Definition flow_state (terminal_states key_states : list TaskState)
    (return_states : gmap Task Final) : FlowState :=
  if negb (forallb is_finished terminal_states) then
    mkState Pending (Msg "Some terminal tasks are still pending.")
            (Some return_states) None
  else if existsb is_failed key_states then
    mkState Failed (Msg "Some reference tasks failed.") (Some return_states) None
  else if forallb is_successful key_states then
    mkState Success (Msg "All reference tasks succeeded.")
            (Some return_states) None
  else
    mkState Success (Msg "No reference tasks failed.") (Some return_states) None.

(** Lines 231-410, the method body.  [prefect_context] is the global
    [prefect.context] at the time of the call. *)
Definition get_flow_run_state (state : FlowState)
    (task_states : option (gmap Task Final))
    (start_tasks : option (list Task)) (return_tasks : gset Task)
    (task_contexts : option (gmap Task Context)) (executor : Executor)
    (return_failed : bool) (throttle : option Throttle)
    (prefect_context : Context) : Runner FlowState :=
  if negb (is_running state) then endrun state
  else
    _ ← init_task_states task_states;
    let start_tasks := default [] start_tasks in
    let task_contexts := default ∅ task_contexts in
    let throttle := default [] throttle in
    queues ← make_queues throttle ∅;
    match sorted_tasks (flow self) start_tasks with
    | None => raise (ValueError "Flows must be acyclic!")
    | Some order =>
        _ ← for_each (dispatch executor prefect_context start_tasks
                               task_contexts queues) order;
        let terminal_tasks := terminal_tasks (flow self) in
        let reference_tasks := reference_tasks (flow self) in
        '(final_states, return_tasks) ←
          collect_results executor return_failed return_tasks;
        terminal ← getitems final_states (elements terminal_tasks);
        reference ← getitems final_states (elements reference_tasks);
        returned ← getitems final_states (elements return_tasks);
        let terminal_states := flatten_seq terminal.*2 in
        let key_states := flatten_seq reference.*2 in
        let return_states : gmap Task Final := list_to_map returned in
        mret (flow_state terminal_states key_states return_states)
    end.

(** Lines 154-166: the body of the [try] of [run], each method under its
    decorator. *)
Definition run_body (state : FlowState)
    (task_states : option (gmap Task Final))
    (start_tasks : option (list Task)) (return_tasks : gset Task)
    (return_failed : bool) (executor : Executor)
    (task_contexts : option (gmap Task Context)) (throttle : Throttle)
    (prefect_context : Context) : Runner FlowState :=
  state ← call_state_handlers check_flow_is_pending_or_running state;
  state ← call_state_handlers set_flow_to_running state;
  call_state_handlers
    (λ state, get_flow_run_state state task_states start_tasks return_tasks
                                 task_contexts executor return_failed
                                 (Some throttle) prefect_context)
    state.
End Methods.

(** How [run] ends for its caller, and what the executor saw. *)
Inductive RunResult : Type :=
| Returned (s : FlowState)
| Raised (e : Exn).

(** Line 129: [throttle or self.flow.throttle]. *)
Definition effective_throttle (self : FlowRunner) (throttle : option Throttle)
  : Throttle :=
  match throttle with
  | None | Some [] => flow_throttle (flow self)
  | Some throttle => throttle
  end.

(** Lines 143-150: [context.update(...)] and [with prefect.context(context)].

    Modelled from the spec: the context manager "pushes merged bindings",
    the entries of [context] over those already in [prefect.context]. *)
Definition run_context (self : FlowRunner) (executor : Executor)
    (parameters : option (gmap string PyValue)) (context prefect_context : Context)
  : Context :=
  let context :=
    <["_executor_id" := CtxVal (PyStr (executor_id executor))]>
      (<["_parameters" := CtxParameters parameters]>
         (<["_flow_version" := CtxVal (PyStr (version (flow self)))]>
            (<["_flow_name" := CtxVal (PyStr (name (flow self)))]> context))) in
  context ∪ prefect_context.

(** Line 152 and the test of line 174:
    [prefect.context.get("_raise_on_exception", False)] as a truth value. *)
Definition raise_on_exception (prefect_context : Context) : bool :=
  ctx_truthy (default (CtxVal (PyBool false))
                      (prefect_context !! "_raise_on_exception")).

(** Lines 78-178.  [DEFAULT_EXECUTOR] is the configured executor and
    [prefect_context] the global [prefect.context] at the call. *)
Definition run (self : FlowRunner) (DEFAULT_EXECUTOR : Executor)
    (prefect_context : Context)
    (state : option FlowState) (task_states : option (gmap Task Final))
    (start_tasks : option (list Task)) (return_tasks : option (list Task))
    (return_failed : bool) (parameters : option (gmap string PyValue))
    (executor : option Executor) (context : option Context)
    (task_contexts : option (gmap Task Context)) (throttle : option Throttle)
  : RunResult * list Event :=
  let state := default (mkState Pending NoMessage None None) state in
  let context := default ∅ context in
  let return_tasks : gset Task := list_to_set (default [] return_tasks) in
  let executor := default DEFAULT_EXECUTOR executor in
  let throttle := effective_throttle self throttle in
  if bool_decide (min_default 1 throttle.*2 ≤ 0)%Z then
    (Raised (ValueError (throttle_message throttle)), [])
  else if bool_decide (return_tasks ∖ tasks (flow self) ≠ ∅) then
    (Raised (ValueError return_tasks_message), [])
  else
    let prefect_context :=
      run_context self executor parameters context prefect_context in
    let raise_on_exception := raise_on_exception prefect_context in
    match run_body self state task_states start_tasks return_tasks return_failed
                   executor task_contexts throttle prefect_context empty_sched with
    | (Return state, σ) => (Returned state, events σ)
    | (EndRun state, σ) => (Returned state, events σ)
    | (Raise exc, σ) =>
        if raise_on_exception then (Raised exc, events σ)
        else (Returned (mkState Failed (MsgExc exc) None None), events σ)
    end.

(** * Vocabulary of the statements *)

(** The entry that the lookup [task_states[u]] yields on the [defaultdict]. *)
Definition seen (ts : gmap Task StateRef) (u : Task) : StateRef :=
  default (Known state_not_available) (ts !! u).

(** The dictionary after the lookups of [us]: missing keys got the default. *)
Definition filled (ts : gmap Task StateRef) (us : list Task)
  : gmap Task StateRef :=
  foldl (λ ts u, <[u := seen ts u]> ts) ts us.

(** The [upstream_states] dictionary of the edges [es], on top of [acc]. *)
Definition upstream_of (ts : gmap Task StateRef) (acc : gmap Edge StateRef)
    (es : list Edge) : gmap Edge StateRef :=
  foldl (λ acc e, <[e := seen ts (upstream_task e)]> acc) acc es.

(** An entry grows only from nothing to the default. *)
Definition grown (ts ts' : gmap Task StateRef) (t : Task) : Prop :=
  ts' !! t = ts !! t ∨
  (ts !! t = None ∧ ts' !! t = Some (Known state_not_available)).

(** [iterated f σ xs ys σ']: the loop [for_each f xs] ran through from [σ] to
    [σ'], every step returning. *)
Inductive iterated {A B} (f : A → Runner B)
  : Sched → list A → list B → Sched → Prop :=
| iterated_nil σ : iterated f σ [] [] σ
| iterated_cons σ x y σ1 xs ys σ' :
    f x σ = (Return y, σ1) → iterated f σ1 xs ys σ' →
    iterated f σ (x :: xs) (y :: ys) σ'.

(** What lines 305-311 make of the entry of [task] in [ts]. *)
Inductive harvested (start_tasks : list Task) (ts : gmap Task StateRef)
    (task : Task) : Outcome (gmap string PyValue) → Prop :=
| harvest_nothing :
    task ∉ start_tasks ∨ ts !! task = None →
    harvested start_tasks ts task (Return ∅)
| harvest_sequence children :
    task ∈ start_tasks → ts !! task = Some (Known (Many children)) →
    harvested start_tasks ts task (Return ∅)
| harvest_pending s inputs :
    task ∈ start_tasks → ts !! task = Some (Known (One s)) →
    is_pending s = true → cached_inputs s = Some inputs →
    harvested start_tasks ts task (Return inputs)
| harvest_no_inputs s :
    task ∈ start_tasks → ts !! task = Some (Known (One s)) →
    is_pending s = true → cached_inputs s = None →
    harvested start_tasks ts task (Raise TypeError)
| harvest_not_pending s :
    task ∈ start_tasks → ts !! task = Some (Known (One s)) →
    is_pending s = false →
    harvested start_tasks ts task (Raise AssertionError)
| harvest_handle id :
    task ∈ start_tasks → ts !! task = Some (Future id) →
    harvested start_tasks ts task (Raise AssertionError).

(** What lines 307-311 make of the entry supplied for a start task: the
    exception they raise, or [None] when they accept the entry (no entry, a
    list, or a single state of the [Pending] class whose [cached_inputs] is
    a dictionary). *)
Definition refusal (entry : option Final) : option Exn :=
  match entry with
  | Some (One s) =>
      if is_pending s then
        match cached_inputs s with
        | Some _ => None
        | None => Some TypeError
        end
      else Some AssertionError
  | _ => None
  end.

(** The calls that a trace hands to the executor, in order. *)
Definition calls (evs : list Event) : list Call :=
  omap (λ ev, match ev with
              | EvSubmit _ c | EvMap _ c => Some c
              | _ => None
              end) evs.

(** The dictionary that is waited on when [return_failed] is not set. *)
Definition selected_states (ts : gmap Task StateRef) (wanted : gset Task)
  : gmap Task StateRef :=
  list_to_map ((λ t, (t, seen ts t)) <$> elements wanted).

(** The tasks that [return_failed] adds to [return_tasks]. *)
Definition failed_tasks (final_states : gmap Task Final) : gset Task :=
  dom (filter (λ ts : Task * Final, is_failed_or_retrying ts.2 = true)
              final_states).

(** What the dictionary reads of lines 375-379 return for the tasks
    [wanted]. *)
Definition read_from (final_states : gmap Task Final) (wanted : gset Task)
    (read : list (Task * Final)) : Prop :=
  read.*1 = elements wanted ∧
  ∀ t v, (t, v) ∈ read → final_states !! t = Some v.

(** [before l u v]: [u] stands before [v] wherever both occur in [l]. *)
Definition before (l : list Task) (u v : Task) : Prop :=
  ∀ i j, l !! i = Some v → l !! j = Some u → (j < i)%nat.

(** Every task of [l] comes after those of its upstream tasks that are in
    [l]. *)
Definition topological (flow : Flow) (l : list Task) : Prop :=
  ∀ u v, u ∈ upstream_tasks flow v → before l u v.

(** Every task of [l] comes after all of its upstream tasks, each of which
    is in [l]. *)
Definition after_all_upstream (flow : Flow) (l : list Task) : Prop :=
  ∀ u v, u ∈ upstream_tasks flow v → v ∈ l →
         ∃ i j, l !! j = Some u ∧ l !! i = Some v ∧ (j < i)%nat.

(** Every value of the throttle is strictly positive. *)
Definition throttle_valid (throttle : Throttle) : Prop :=
  ∀ tag n, (tag, n) ∈ throttle → (0 < n)%Z.

(** [return_tasks] is a subset of the flow's tasks. *)
Definition return_tasks_known (self : FlowRunner)
    (return_tasks : option (list Task)) : Prop :=
  ∀ t, t ∈ default [] return_tasks → t ∈ tasks (flow self).

(** The exceptions that the body of the [try] raises in this model. *)
Definition raised_by_body (e : Exn) : Prop :=
  e = AssertionError ∨ e = TypeError ∨ (∃ t, e = KeyError t) ∨
  e = ValueError "Flows must be acyclic!".

(** The scheduler state when the loop starts: the supplied states, and the
    queues made. *)
Definition at_start (supplied : option (gmap Task Final))
    (throttle : option Throttle) (σ : Sched) : Sched :=
  mkSched (Known <$> default ∅ supplied) (issued σ)
          (events σ ++ (EvQueue ∘ snd <$> default [] throttle)).

(** The edge comes from a mapped task. *)
Abbreviation from_mapped self e :=
  (task_info_mapped (flow self) (upstream_task e) = true).

Section DispatchVocabulary.
  Variables (self : FlowRunner) (ex : Executor) (ctx : Context)
            (start_tasks : list Task) (tc : gmap Task Context)
            (queues : gmap string Queue).

(** The tasks whose states the aggregation reads. *)
Definition wanted_tasks (return_tasks : gset Task) : gset Task :=
  terminal_tasks (flow self) ∪ reference_tasks (flow self) ∪ return_tasks.

(** The keyword arguments built for [task]. *)
Definition call_of (task : Task) (ts : gmap Task StateRef)
    (us : gmap Edge StateRef) (inputs : gmap string PyValue) : Call :=
  mkCall task (ts !! task) us inputs (bool_decide (task ∈ start_tasks))
         (default ∅ (tc !! task) ∪ ctx)
         (omap (λ tag, queues !! tag) (sorted (task_tags (flow self) task))).

(** The waits of lines 331-335, and the dictionary they give. *)
Definition waits_of (us : gmap Edge StateRef) : list Event :=
  EvWait ∘ snd <$>
    filter (λ ef : Edge * StateRef, from_mapped self ef.1) (map_to_list us).

Definition waited_of (us : gmap Edge StateRef) : gmap Edge StateRef :=
  (λ f, Known (wait_ref ex f)) <$>
    filter (λ ef : Edge * StateRef, from_mapped self ef.1) us.

(** The events of the dispatch of [task]: the waits, then the call. *)
Definition dispatch_events (task : Task) (n : nat) (ts : gmap Task StateRef)
    (us : gmap Edge StateRef) (inputs : gmap string PyValue) : list Event :=
  if task_info_mapped (flow self) task
  then [EvMap n (call_of task ts us inputs)]
  else waits_of us ++ [EvSubmit n (call_of task ts (waited_of us ∪ us) inputs)].

(** The one call of the dispatch of [task]. *)
Definition the_call (task : Task) (ts : gmap Task StateRef)
    (us : gmap Edge StateRef) (inputs : gmap string PyValue) : Call :=
  call_of task ts
          (if task_info_mapped (flow self) task then us else waited_of us ∪ us)
          inputs.

(** The state after the dispatch of [task] with [inputs]. *)
Definition after_dispatch (task : Task) (inputs : gmap string PyValue)
    (σ : Sched) : Sched :=
  let ts := filled (task_states σ) (upstream_tasks (flow self) task) in
  let us := upstream_of (task_states σ) ∅ (edges_to (flow self) task) in
  mkSched (<[task := Future (issued σ)]> ts) (S (issued σ))
          (events σ ++ dispatch_events task (issued σ) ts us inputs).

(** The state in which the dispatch of [task] stops when its supplied state
    is refused by lines 307-311. *)
Definition after_lookups (task : Task) (σ : Sched) : Sched :=
  mkSched (filled (task_states σ) (upstream_tasks (flow self) task))
          (issued σ) (events σ).
End DispatchVocabulary.

(** * Example flows *)

Definition succeeded (r : Z) : TaskState :=
  mkState Success NoMessage (Some (PyInt r)) None.

Definition failed_task : TaskState :=
  mkState Failed (Msg "boom") None None.

(** An executor on which every task succeeds. *)
Definition all_succeed : Executor :=
  mkExecutor "local" (λ id, One (succeeded (Z.of_nat id))).

(** [A -> B -> C]: tasks 0, 1 and 2; [B] takes its input [x] from [A]. *)
Definition pipeline : Flow :=
  mkFlow "pipeline" "1" {[0%nat; 1%nat; 2%nat]}
         [mkEdge 0 1 (Some "x") false; mkEdge 1 2 None false]
         (λ _, false) (λ _, ∅) None [] [].

Definition pipeline_runner : FlowRunner := mkFlowRunner pipeline [].

Definition running : FlowState :=
  mkState Running (Msg "Running flow.") None None.

(** A flow run that ended before. *)
Definition finished_before : FlowState :=
  mkState Success (Msg "All reference tasks succeeded.") None None.

(** [B] as the caller left it: pending, with its input cached. *)
Definition pending_with_x : TaskState :=
  mkState Pending NoMessage None (Some {["x" := PyInt 7]}).

(** [B] as [Pending()] makes it: no cached inputs. *)
Definition pending_without_inputs : TaskState :=
  mkState Pending NoMessage None None.

(** [B] already run, its input still cached. *)
Definition success_with_x : TaskState :=
  mkState Success NoMessage (Some (PyInt 8)) (Some {["x" := PyInt 7]}).

(** The edge [A -> B]. *)
Definition edge_A_B : Edge := mkEdge 0 1 (Some "x") false.

(** [M -> N] and [M -> P]: the mapped task 0 feeds the plain task 1 and the
    mapped task 2. *)
Definition fan_out : Flow :=
  mkFlow "fan_out" "1" {[0%nat; 1%nat; 2%nat]}
         [mkEdge 0 1 (Some "xs") false; mkEdge 0 2 (Some "x") true]
         (λ t, bool_decide (t = 0%nat ∨ t = 2%nat)) (λ _, ∅) None [] [].

Definition fan_out_runner : FlowRunner := mkFlowRunner fan_out [].

(** The edge [M -> N]. *)
Definition edge_M_N : Edge := mkEdge 0 1 (Some "xs") false.

(** The children of the mapped task [M]: one succeeds, one fails. *)
Definition children_of_M : Final :=
  Many [One (succeeded 1); One failed_task].

(** The handle of [M] resolves to its children, that of the mapped task [P]
    (dispatched second) to one success, and the plain task [N] fails. *)
Definition one_fails : Executor :=
  mkExecutor "local"
    (λ id, match id with
           | O => children_of_M
           | 1%nat => Many [One (succeeded 2)]
           | _ => One failed_task
           end).

(** The scheduler right after the dispatch of [M]. *)
Definition after_M : Sched :=
  mkSched {[0%nat := Future 0]} 1
          [EvMap 0 (mkCall 0 None ∅ ∅ false ∅ [])].

(** The claim that a start task with a supplied state [s] runs with the
    cached inputs of [s]. *)
Definition runs_with_cached_inputs (trace : list Event) (t : Task)
    (s : TaskState) : Prop :=
  ∃ c, c ∈ calls trace ∧ call_task c = t ∧
       cached_inputs s = Some (call_inputs c).

(** * Vocabulary of the further properties *)

(** The handle that each dispatch of a trace was given, by task. *)
Definition handles (evs : list Event) : list (Task * nat) :=
  omap (λ ev, match ev with
              | EvSubmit id c | EvMap id c => Some (call_task c, id)
              | _ => None
              end) evs.

Definition handle_of (evs : list Event) (t : Task) : option nat :=
  (list_to_map (handles evs) : gmap Task nat) !! t.

(** What [task_states[u]] holds for a task downstream of [u]: the handle of
    [u] when the trace dispatched it, else the state that was supplied for
    it, else the default of the [defaultdict]. *)
Definition entry_of (ts : gmap Task StateRef) (evs : list Event) (u : Task)
  : StateRef :=
  match handle_of evs u with
  | Some id => Future id
  | None => seen ts u
  end.

(** Lines 319-336: what the call for [task] holds for the edge [e], given
    the entry of the upstream task. *)
Definition handed (self : FlowRunner) (ex : Executor) (task : Task) (e : Edge)
    (entry : StateRef) : StateRef :=
  if task_info_mapped (flow self) task then entry
  else if task_info_mapped (flow self) (upstream_task e)
       then Known (wait_ref ex entry)
       else entry.

(** The sizes of the queues that a trace asks the executor for, in order. *)
Definition queued_sizes (evs : list Event) : list Z :=
  omap (λ ev, match ev with EvQueue size => Some size | _ => None end) evs.

(** Lines 290-294: the queue of a tag throttled to [size]. *)
Definition queue_of (size : Z) : Queue := mkQueue size (seqZ 0%Z size).

(** The [queues] dictionary after the loop of lines 290-294. *)
Definition queues_of (throttle : Throttle) (queues : gmap string Queue)
  : gmap string Queue :=
  foldl (λ queues ts, <[ts.1 := queue_of ts.2]> queues) queues throttle.

(** A supplied entry that lines 307-311 accept. *)
Definition accepted (entry : option Final) : Prop := refusal entry = None.

(** The step returned. *)
Definition returned {A} (o : Outcome A) : bool :=
  match o with
  | Return _ => true
  | _ => false
  end.

(** ** Further example flows *)

(** One task, tagged [db]. *)
Definition tagged : Flow :=
  mkFlow "tagged" "1" {[0%nat]} [] (λ _, false) (λ _, {["db"]}) None [] [].

Definition tagged_runner : FlowRunner := mkFlowRunner tagged [].

(** Two tasks and no edge between them. *)
Definition islands : Flow :=
  mkFlow "islands" "1" {[0%nat; 1%nat]} [] (λ _, false) (λ _, ∅) None [] [].

Definition islands_runner : FlowRunner := mkFlowRunner islands [].

(** A flow whose state handler answers every change of state with the state
    of an earlier run. *)
Definition vetoed : Flow :=
  mkFlow "vetoed" "1" {[0%nat]} [] (λ _, false) (λ _, ∅) None
         [λ _ _, finished_before] [].

Definition vetoed_runner : FlowRunner := mkFlowRunner vetoed [].

(** * prefect.orion.utilities.database

    The pure part of src/prefect/orion/utilities/database.py: the table
    name that [Base] derives from a class name, and the values that the
    [UUID] column type binds.  Strings are ASCII, as the class names and the
    hexadecimal forms of this module are. *)

(** The characters [_], [-] and [0]. *)
Definition underscore : Ascii.ascii := Ascii.ascii_of_nat 95.
Definition hyphen : Ascii.ascii := Ascii.ascii_of_nat 45.
Definition zero_digit : Ascii.ascii := Ascii.ascii_of_nat 48.

(** The class [[A-Z]] of the pattern. *)
Definition is_upper (c : Ascii.ascii) : bool :=
  (65 <=? Ascii.nat_of_ascii c)%nat && (Ascii.nat_of_ascii c <=? 90)%nat.

(** Line 14 with the [sub] of line 148,
    [re.compile(r"(?<!^)(?=[A-Z])").sub("_", name)]: the pattern matches the
    empty string at every position that is not the start of the string and
    that an upper-case letter follows, and [sub] puts the replacement
    there. *)
Fixpoint sub_from (at_start : bool) (name : string) : string :=
  match name with
  | EmptyString => EmptyString
  | String c rest =>
      let tail := String c (sub_from false rest) in
      if negb at_start && is_upper c then String underscore tail else tail
  end.

Definition camel_to_snake_sub (cls_name : string) : string :=
  sub_from true cls_name.

(** An ASCII character. *)
Definition is_ascii (c : Ascii.ascii) : bool :=
  (Ascii.nat_of_ascii c <? 128)%nat.

(** [str.lower] on an ASCII string: of the ASCII characters it changes the
    letters [A] to [Z] and no other.  (On other strings [str.lower] follows
    Unicode, which is not modelled here: what is stated of [lower] is stated
    of ASCII strings.) *)
Definition lower_char (c : Ascii.ascii) : Ascii.ascii :=
  if is_upper c then Ascii.ascii_of_nat (Ascii.nat_of_ascii c + 32) else c.

Fixpoint lower (s : string) : string :=
  match s with
  | EmptyString => EmptyString
  | String c rest => String (lower_char c) (lower rest)
  end.

(** Lines 141-148: [Base.__tablename__] for the class named [cls_name]. *)
Definition tablename (cls_name : string) : string :=
  lower (camel_to_snake_sub cls_name).

(** Every character of the string passes the test. *)
Fixpoint string_forall (test : Ascii.ascii → bool) (s : string) : bool :=
  match s with
  | EmptyString => true
  | String c rest => test c && string_forall test rest
  end.

(** The number of characters that pass the test. *)
Fixpoint string_count (test : Ascii.ascii → bool) (s : string) : nat :=
  match s with
  | EmptyString => 0
  | String c rest => (if test c then 1 else 0) + string_count test rest
  end.

(** A class name in the CapWords style: an upper-case letter first, ASCII
    characters only, no underscore. *)
Definition cap_words (cls_name : string) : Prop :=
  match cls_name with
  | EmptyString => False
  | String c _ =>
      is_upper c = true ∧
      string_forall (λ c, (Ascii.nat_of_ascii c <? 128)%nat
                          && negb (Ascii.eqb c underscore)) cls_name = true
  end.

(** [str.upper] on an ASCII character. *)
Definition upper_char (c : Ascii.ascii) : Ascii.ascii :=
  if ((97 <=? Ascii.nat_of_ascii c) && (Ascii.nat_of_ascii c <=? 122))%nat
  then Ascii.ascii_of_nat (Ascii.nat_of_ascii c - 32) else c.

(** The class name that a table name stands for: an underscore marks the
    next letter as upper case, as the first one is. *)
Fixpoint snake_to_camel (up : bool) (table : string) : string :=
  match table with
  | EmptyString => EmptyString
  | String c rest =>
      if Ascii.eqb c underscore then snake_to_camel true rest
      else String (if up then upper_char c else c) (snake_to_camel false rest)
  end.

(** What the [UUID] type is given to bind, or gets back from the driver:
    [None], a [uuid.UUID] (its 128-bit [int]), or a string. *)
Inductive DbValue : Type :=
| DbNone
| DbUUID (int : N)
| DbStr (s : string).

(** The dialect, by its [name]. *)
Record Dialect : Type := mkDialect { dialect_name : string }.

(** The type descriptors of lines 79-83. *)
Inductive TypeDescriptor : Type :=
| PostgresUUID
| CHAR (length : nat).

(** Lines 79-83. *)
Definition load_dialect_impl (dialect : Dialect) : TypeDescriptor :=
  if String.eqb (dialect_name dialect) "postgresql" then PostgresUUID
  else CHAR 32.

(** One hexadecimal digit, in lower case as [%x] prints it. *)
Definition hex_digit (d : N) : Ascii.ascii :=
  nth (N.to_nat d) (String.list_ascii_of_string "0123456789abcdef") zero_digit.

(** The [width] lowest hexadecimal digits of [n], the highest first. *)
Fixpoint hex_width (width : nat) (n : N) : string :=
  match width with
  | O => EmptyString
  | S width' =>
      String (hex_digit ((n / 16 ^ N.of_nat width') mod 16))
             (hex_width width' n)
  end.

(** The number of hexadecimal digits of [n]. *)
Definition hex_len (n : N) : nat :=
  if (n =? 0)%N then 1%nat else S (N.to_nat (N.log2 n / 4)).

(** ["%.32x" % n] and ['%032x' % n] for [n >= 0]: the hexadecimal digits of
    [n], with zeros in front up to 32 of them. *)
Definition format_032x (n : N) : string :=
  hex_width (Nat.max 32 (hex_len n)) n.

(** [str(u)] for the [uuid.UUID] of [int]: the 32 digits in groups of 8, 4,
    4, 4 and 12 (the slices [hex[:8]], [hex[8:12]], ..., [hex[20:]]). *)
Definition str_of_uuid (int : N) : string :=
  let hex := format_032x int in
  String.substring 0 8 hex +:+ "-" +:+ String.substring 8 4 hex +:+ "-" +:+
  String.substring 12 4 hex +:+ "-" +:+ String.substring 16 4 hex +:+ "-" +:+
  String.substring 20 (String.length hex - 20) hex.

(** [s.replace("-", str())]. *)
Fixpoint without_hyphens (s : string) : string :=
  match s with
  | EmptyString => EmptyString
  | String c rest =>
      if Ascii.eqb c hyphen then without_hyphens rest
      else String c (without_hyphens rest)
  end.

(** A digit or a letter from [a] to [f]. *)
Definition is_lower_hex (c : Ascii.ascii) : bool :=
  let n := Ascii.nat_of_ascii c in
  ((48 <=? n) && (n <=? 57) || (97 <=? n) && (n <=? 102))%nat.

Section UUIDType.
  (** [uuid.UUID(value).int] of the standard library, for a value that is
      no [uuid.UUID]; [None] when it raises [ValueError]. *)
  Variable uuid_UUID : string → option N.

(** Lines 85-95.  [None] stands for the [ValueError] of [uuid.UUID(value)];
    [Some None] is Python's [None]. *)
Definition process_bind_param (value : DbValue) (dialect : Dialect)
  : option (option string) :=
  match value with
  | DbNone => Some None
  | DbUUID int =>
      if String.eqb (dialect_name dialect) "postgresql"
      then Some (Some (str_of_uuid int))
      else Some (Some (format_032x int))
  | DbStr s =>
      if String.eqb (dialect_name dialect) "postgresql" then Some (Some s)
      else int ← uuid_UUID s; Some (Some (format_032x int))
  end.

(** Lines 97-103. *)
Definition process_result_value (value : DbValue) (dialect : Dialect)
  : option (option string) :=
  match value with
  | DbNone => Some None
  | DbUUID int => Some (Some (str_of_uuid int))
  | DbStr s => int ← uuid_UUID s; Some (Some (str_of_uuid int))
  end.
End UUIDType.

(** * Lemmas *)


Lemma bind_Return {A B} (m : Runner A) (k : A → Runner B) σ a σ1 :
  m σ = (Return a, σ1) → (m ≫= k) σ = k a σ1.
Proof. intros H. unfold mbind, Runner_bind. by rewrite H. Qed.

Lemma bind_EndRun {A B} (m : Runner A) (k : A → Runner B) σ s σ1 :
  m σ = (EndRun s, σ1) → (m ≫= k) σ = (EndRun s, σ1).
Proof. intros H. unfold mbind, Runner_bind. by rewrite H. Qed.

Lemma bind_Raise {A B} (m : Runner A) (k : A → Runner B) σ e σ1 :
  m σ = (Raise e, σ1) → (m ≫= k) σ = (Raise e, σ1).
Proof. intros H. unfold mbind, Runner_bind. by rewrite H. Qed.

Lemma executor_wait_eq ex f σ :
  executor_wait ex f σ =
  (Return (wait_ref ex f),
   mkSched (task_states σ) (issued σ) (events σ ++ [EvWait f])).
Proof. reflexivity. Qed.

Lemma executor_wait_all_eq ex m σ :
  executor_wait_all ex m σ =
  (Return (wait_ref ex <$> m),
   mkSched (task_states σ) (issued σ) (events σ ++ [EvWaitAll m])).
Proof. reflexivity. Qed.

Lemma executor_submit_eq c σ :
  executor_submit c σ =
  (Return (Future (issued σ)),
   mkSched (task_states σ) (S (issued σ)) (events σ ++ [EvSubmit (issued σ) c])).
Proof. reflexivity. Qed.

Lemma executor_map_eq c σ :
  executor_map c σ =
  (Return (Future (issued σ)),
   mkSched (task_states σ) (S (issued σ)) (events σ ++ [EvMap (issued σ) c])).
Proof. reflexivity. Qed.

Lemma mret_eq {A} (a : A) σ : (mret a : Runner A) σ = (Return a, σ).
Proof. reflexivity. Qed.

Lemma get_task_states_eq σ : get_task_states σ = (Return (task_states σ), σ).
Proof. reflexivity. Qed.

Lemma set_task_state_eq t v σ :
  set_task_state t v σ =
  (Return (), mkSched (<[t := v]> (task_states σ)) (issued σ) (events σ)).
Proof. reflexivity. Qed.



Lemma getitem_eq t σ :
  task_states_getitem t σ =
  (Return (seen (task_states σ) t),
   mkSched (<[t := seen (task_states σ) t]> (task_states σ)) (issued σ) (events σ)).
Proof.
  unfold task_states_getitem, seen. destruct σ as [ts n evs]; simpl.
  destruct (ts !! t) eqn:E; simpl; [|done].
  by rewrite insert_id.
Qed.

Lemma seen_insert ts u0 u : seen (<[u0 := seen ts u0]> ts) u = seen ts u.
Proof.
  unfold seen. destruct (decide (u0 = u)) as [->|Hne].
  - rewrite lookup_insert_eq. simpl. by destruct (ts !! u).
  - by rewrite lookup_insert_ne.
Qed.

Lemma seen_filled ts us u : seen (filled ts us) u = seen ts u.
Proof.
  revert ts. induction us as [|u0 us IH]; intros ts; simpl; [done|].
  fold (filled (<[u0:=seen ts u0]> ts) us). by rewrite IH, seen_insert.
Qed.

Lemma lookup_filled ts us u :
  filled ts us !! u = if decide (u ∈ us) then Some (seen ts u) else ts !! u.
Proof.
  revert ts. induction us as [|u0 us IH]; intros ts; simpl; [done|].
  fold (filled (<[u0:=seen ts u0]> ts) us). rewrite IH, seen_insert.
  destruct (decide (u ∈ us)) as [Hin|Hnin].
  - rewrite decide_True; [done|]. by right.
  - destruct (decide (u = u0)) as [->|Hne].
    + rewrite decide_True; [|by left]. by rewrite lookup_insert_eq.
    + rewrite decide_False. { by rewrite lookup_insert_ne. }
      intros [?|?]%elem_of_cons; done.
Qed.


Lemma upstream_of_insert ts u0 acc es :
  upstream_of (<[u0 := seen ts u0]> ts) acc es = upstream_of ts acc es.
Proof.
  revert acc. induction es as [|e es IH]; intros acc; simpl; [done|].
  fold (upstream_of (<[u0 := seen ts u0]> ts)). fold (upstream_of ts).
  by rewrite seen_insert, IH.
Qed.

Lemma lookup_upstream_of ts acc es e :
  upstream_of ts acc es !! e =
  if decide (e ∈ es) then Some (seen ts (upstream_task e)) else acc !! e.
Proof.
  revert acc. induction es as [|e0 es IH]; intros acc; simpl; [done|].
  fold (upstream_of ts). rewrite IH.
  destruct (decide (e ∈ es)) as [Hin|Hnin].
  - rewrite decide_True; [done|]. by right.
  - destruct (decide (e = e0)) as [->|Hne].
    + rewrite decide_True; [|by left]. by rewrite lookup_insert_eq.
    + rewrite decide_False. { by rewrite lookup_insert_ne. }
      intros [?|?]%elem_of_cons; done.
Qed.

(** One step of a [bind] whose first action is known to return. *)
Ltac bind_with lem := erewrite bind_Return by (apply lem).

Section Proofs.
  Variable self : FlowRunner.


Lemma for_each_inv {A B} (f : A → Runner B) xs : ∀ σ o σ',
  for_each f xs σ = (o, σ') →
  (∃ ys, o = Return ys ∧ iterated f σ xs ys σ') ∨
  (∃ done x rest ys σm,
      xs = done ++ x :: rest ∧ iterated f σ done ys σm ∧
      ((∃ s, f x σm = (EndRun s, σ') ∧ o = EndRun s) ∨
       (∃ e, f x σm = (Raise e, σ') ∧ o = Raise e))).
Proof.
  induction xs as [|x xs IH]; intros σ o σ'; cbn [for_each].
  - rewrite mret_eq. intros [= <- <-]. left. eexists. split; [done|].
    constructor.
  - destruct (f x σ) as [[y|s|e] σ1] eqn:Hx.
    + bind_with Hx.
      destruct (for_each f xs σ1) as [[ys|s|e] σ2] eqn:Hxs;
        (destruct (IH _ _ _ Hxs) as [(ys' & Hys & Hit)|
           (done & x' & rest & ys' & σm & -> & Hit & Hfail)]).
      * bind_with Hxs. rewrite mret_eq. intros [= <- <-]. left.
        injection Hys as <-. eexists. split; [done|]. by econstructor.
      * destruct Hfail as [(? & _ & [=])|(? & _ & [=])].
      * discriminate.
      * erewrite bind_EndRun by done. intros [= <- <-]. right.
        exists (x :: done), x', rest, (y :: ys'), σm.
        split; [done|]. split; [by econstructor|]. done.
      * discriminate.
      * erewrite bind_Raise by done. intros [= <- <-]. right.
        exists (x :: done), x', rest, (y :: ys'), σm.
        split; [done|]. split; [by econstructor|]. done.
    + erewrite bind_EndRun by done. intros [= <- <-]. right.
      exists [], x, xs, [], σ. split; [done|]. split; [constructor|].
      left. eauto.
    + erewrite bind_Raise by done. intros [= <- <-]. right.
      exists [], x, xs, [], σ. split; [done|]. split; [constructor|].
      right. eauto.
Qed.


Lemma collect_upstream_eq es : ∀ acc σ,
  collect_upstream acc es σ =
  (Return (upstream_of (task_states σ) acc es),
   mkSched (filled (task_states σ) (upstream_task <$> es)) (issued σ) (events σ)).
Proof.
  induction es as [|e es IH]; intros acc σ; cbn [collect_upstream].
  - rewrite mret_eq. by destruct σ.
  - bind_with getitem_eq. rewrite IH. simpl.
    fold (upstream_of (task_states σ)).
    by rewrite upstream_of_insert.
Qed.

Lemma for_each_wait ex (l : list (Edge * StateRef)) : ∀ σ,
  for_each (λ ef : Edge * StateRef,
              v ← executor_wait ex ef.2; mret (ef.1, Known v)) l σ =
  (Return (prod_map id (λ f, Known (wait_ref ex f)) <$> l),
   mkSched (task_states σ) (issued σ) (events σ ++ (EvWait ∘ snd <$> l))).
Proof.
  induction l as [|[e f] l IH]; intros σ; cbn [for_each].
  - rewrite mret_eq. simpl. rewrite app_nil_r. by destruct σ.
  - erewrite bind_Return; [|by bind_with executor_wait_eq].
    bind_with IH. rewrite mret_eq. simpl. by rewrite <- app_assoc.
Qed.


Lemma wait_mapped_eq ex us σ :
  wait_mapped self ex us σ =
  (Return ((λ f, Known (wait_ref ex f)) <$>
             filter (λ ef : Edge * StateRef, from_mapped self ef.1) us),
   mkSched (task_states σ) (issued σ)
           (events σ ++ (EvWait ∘ snd <$>
              filter (λ ef : Edge * StateRef, from_mapped self ef.1) (map_to_list us)))).
Proof.
  unfold wait_mapped. bind_with for_each_wait. rewrite mret_eq.
  rewrite list_to_map_fmap. by rewrite <- map_filter_alt.
Qed.


Lemma harvest_inputs_spec start_tasks task σ :
  ∃ o, harvest_inputs start_tasks task σ = (o, σ) ∧
       harvested start_tasks (task_states σ) task o.
Proof.
  unfold harvest_inputs. bind_with get_task_states_eq.
  destruct (bool_decide (task ∈ start_tasks)) eqn:Hs; simpl.
  2: { eexists. split; [apply mret_eq|]. constructor. left.
       by apply bool_decide_eq_false in Hs. }
  apply bool_decide_eq_true in Hs.
  destruct (task_states σ !! task) as [v|] eqn:Hv.
  2: { rewrite bool_decide_eq_false_2 by (by intros [? ?]).
       eexists. split; [apply mret_eq|]. constructor. by right. }
  rewrite bool_decide_eq_true_2 by eauto.
  bind_with getitem_eq. unfold seen. rewrite Hv. simpl.
  rewrite insert_id by done.
  replace (mkSched (task_states σ) (issued σ) (events σ)) with σ by (by destruct σ).
  destruct v as [[s|children]|id].
  - destruct (is_pending s) eqn:Hp.
    + destruct (cached_inputs s) as [inputs|] eqn:Hci.
      * eexists. split; [apply mret_eq|]. rewrite (right_id_L ∅ (∪)).
        by eapply harvest_pending.
      * eexists. split; [done|]. by eapply harvest_no_inputs.
    + eexists. split; [done|]. by eapply harvest_not_pending.
  - eexists. split; [apply mret_eq|]. by eapply harvest_sequence.
  - eexists. split; [done|]. by eapply harvest_handle.
Qed.

Section Dispatch.
  Variables (ex : Executor) (ctx : Context) (start_tasks : list Task)
          (tc : gmap Task Context) (queues : gmap string Queue).





Lemma dispatch_spec task σ :
  let ts := filled (task_states σ) (upstream_tasks (flow self) task) in
  let us := upstream_of (task_states σ) ∅ (edges_to (flow self) task) in
  ∃ o, harvested start_tasks ts task o ∧
    dispatch self ex ctx start_tasks tc queues task σ =
    match o with
    | Return inputs =>
        (Return (),
         mkSched (<[task := Future (issued σ)]> ts) (S (issued σ))
                 (events σ ++ dispatch_events self ex ctx start_tasks tc queues task (issued σ) ts us inputs))
    | EndRun s => (EndRun s, mkSched ts (issued σ) (events σ))
    | Raise e => (Raise e, mkSched ts (issued σ) (events σ))
    end.
Proof.
  intros ts us. unfold dispatch.
  bind_with collect_upstream_eq.
  fold (upstream_tasks (flow self) task). fold ts. fold us.
  destruct (harvest_inputs_spec start_tasks task (mkSched ts (issued σ) (events σ)))
    as (o & Ho & Hh).
  exists o. split; [exact Hh|].
  destruct o as [inputs|s|e].
  - bind_with Ho. bind_with get_task_states_eq. simpl.
    unfold dispatch_events. fold (call_of self ctx start_tasks tc queues task ts us inputs).
    destruct (task_info_mapped (flow self) task).
    + bind_with executor_map_eq. by rewrite set_task_state_eq.
    + bind_with wait_mapped_eq. fold (waited_of self ex us). fold (waits_of self us).
      fold (call_of self ctx start_tasks tc queues task ts (waited_of self ex us ∪ us) inputs).
      bind_with executor_submit_eq. rewrite set_task_state_eq. simpl.
      by rewrite <- app_assoc.
  - by erewrite bind_EndRun.
  - by erewrite bind_Raise.
Qed.


Lemma dispatch_Return task σ u σ1 :
  dispatch self ex ctx start_tasks tc queues task σ = (Return u, σ1) →
  ∃ inputs,
    harvested start_tasks
      (filled (task_states σ) (upstream_tasks (flow self) task)) task
      (Return inputs) ∧
    σ1 = after_dispatch self ex ctx start_tasks tc queues task inputs σ.
Proof.
  destruct (dispatch_spec task σ) as ([inputs|s|e] & Hh & ->);
    intros [= <-]; eauto.
Qed.

Lemma dispatch_Raise task σ e σ1 :
  dispatch self ex ctx start_tasks tc queues task σ = (Raise e, σ1) →
  σ1 = after_lookups self task σ ∧
  harvested start_tasks
    (filled (task_states σ) (upstream_tasks (flow self) task)) task
    (Raise e).
Proof.
  by destruct (dispatch_spec task σ) as ([inputs|s|e'] & Hh & ->);
    intros [= <- <-].
Qed.

Lemma dispatch_no_EndRun task σ s σ1 :
  dispatch self ex ctx start_tasks tc queues task σ ≠ (EndRun s, σ1).
Proof.
  destruct (dispatch_spec task σ) as ([inputs|s'|e'] & Hh & ->);
    try discriminate. inversion Hh.
Qed.


Lemma dispatch_order_calls evs : dispatch_order evs = call_task <$> calls evs.
Proof.
  induction evs as [|[| | | |] evs IH]; simpl; try done;
    unfold dispatch_order, calls in *; simpl; by rewrite IH.
Qed.

Lemma calls_app evs1 evs2 : calls (evs1 ++ evs2) = calls evs1 ++ calls evs2.
Proof. apply omap_app. Qed.

Lemma calls_waits us : calls (waits_of self us) = [].
Proof.
  unfold waits_of.
  induction (filter _ (map_to_list us)) as [|? ? IH]; [done|]. exact IH.
Qed.


Lemma calls_dispatch_events task n ts us inputs :
  calls (dispatch_events self ex ctx start_tasks tc queues task n ts us inputs) = [the_call self ex ctx start_tasks tc queues task ts us inputs].
Proof.
  unfold dispatch_events, the_call.
  destruct (task_info_mapped (flow self) task); [done|].
  by rewrite calls_app, calls_waits.
Qed.

Abbreviation loop := (iterated (dispatch self ex ctx start_tasks tc queues)).

Lemma loop_events σ order units σ' :
  loop σ order units σ' →
  ∃ evs, events σ' = events σ ++ evs ∧ call_task <$> calls evs = order.
Proof.
  induction 1 as [σ|σ task u σ1 order units σ' Hd _ (evs & Hevs & Hord)].
  - exists []. by rewrite app_nil_r.
  - apply dispatch_Return in Hd as (inputs & _ & ->).
    eexists. split.
    + rewrite Hevs. simpl. by rewrite <- app_assoc.
    + rewrite calls_app, calls_dispatch_events, fmap_app. simpl.
      by rewrite Hord.
Qed.


Lemma grown_filled ts us t : grown ts (filled ts us) t.
Proof.
  unfold grown. rewrite lookup_filled. case_decide; [|by left].
  unfold seen. destruct (ts !! t); [by left|by right].
Qed.



Lemma harvested_grown ts ts' task inputs :
  grown ts ts' task →
  harvested start_tasks ts' task (Return inputs) →
  harvested start_tasks ts task (Return inputs).
Proof.
  intros [Heq|[Hnone Hdef]] Hh.
  - inversion Hh; subst; rewrite Heq in *.
    + by constructor.
    + by eapply harvest_sequence.
    + by eapply harvest_pending.
  - inversion Hh as [|? ? Hl|s ? ? Hl Hp Hci| | |]; subst.
    + constructor. by right.
    + rewrite Hdef in Hl. discriminate.
    + rewrite Hdef in Hl. injection Hl as <-. discriminate.
Qed.

Lemma loop_inputs σ order units σ' :
  loop σ order units σ' → NoDup order →
  ∀ evs, events σ' = events σ ++ evs →
  Forall (λ c, harvested start_tasks (task_states σ) (call_task c)
                  (Return (call_inputs c)))
         (calls evs).
Proof.
  induction 1 as [σ|σ task u σ1 order units σ' Hd Hloop IH];
    intros Hnd evs Hevs.
  - assert (evs = []) as ->; [|constructor].
    apply (app_inv_head (events σ)). by rewrite app_nil_r.
  - apply NoDup_cons in Hnd as [Hnin Hnd].
    destruct (loop_events _ _ _ _ Hloop) as (evs1 & Hevs1 & Hord).
    apply dispatch_Return in Hd as (inputs & Hh & ->).
    simpl in Hevs1. rewrite <- app_assoc in Hevs1.
    assert (evs = dispatch_events self ex ctx start_tasks tc queues task (issued σ)
                    (filled (task_states σ) (upstream_tasks (flow self) task))
                    (upstream_of (task_states σ) ∅ (edges_to (flow self) task))
                    inputs ++ evs1) as ->.
    { apply (app_inv_head (events σ)). congruence. }
    rewrite calls_app, calls_dispatch_events. simpl. constructor.
    + simpl. eapply harvested_grown; [|exact Hh]. apply grown_filled.
    + specialize (IH Hnd evs1). simpl in IH. rewrite <- app_assoc in IH.
      specialize (IH Hevs1).
      rewrite Forall_forall in IH |- *. intros c Hc.
      assert (Hct : call_task c ∈ order).
      { rewrite <- Hord. by apply list_elem_of_fmap_2. }
      eapply harvested_grown; [|by apply IH].
      unfold grown. rewrite lookup_insert_ne by (intros ->; done).
      apply grown_filled.
Qed.
End Dispatch.

Lemma make_queues_eq throttle : ∀ queues σ,
  ∃ queues', make_queues throttle queues σ =
    (Return queues',
     mkSched (task_states σ) (issued σ)
             (events σ ++ (EvQueue ∘ snd <$> throttle))).
Proof.
  induction throttle as [|[tag size] throttle IH]; intros queues σ;
    cbn [make_queues].
  - exists queues. rewrite mret_eq. simpl. rewrite app_nil_r. by destruct σ.
  - erewrite bind_Return by reflexivity.
    edestruct IH as (queues' & ->). exists queues'. simpl.
    by rewrite <- app_assoc.
Qed.

Lemma getitems_spec d ts σ :
  (∃ l, getitems d ts σ = (Return l, σ) ∧ l.*1 = ts ∧
        ∀ t v, (t, v) ∈ l → d !! t = Some v) ∨
  (∃ t, getitems d ts σ = (Raise (KeyError t), σ) ∧ t ∈ ts ∧ d !! t = None).
Proof.
  induction ts as [|t ts IH]; cbn [getitems].
  - left. exists []. split; [done|]. split; [done|].
    by intros ? ? ?%elem_of_nil.
  - destruct (d !! t) as [v|] eqn:Hv.
    + destruct IH as [(l & Hl & Hk & Hd)|(t' & Hl & Hin & Hn)].
      * left. exists ((t, v) :: l). bind_with Hl. split; [done|].
        split; [by rewrite fmap_cons, Hk|].
        intros t' v' [[= -> ->]|?]%elem_of_cons; auto.
      * right. exists t'. erewrite bind_Raise by done.
        split; [done|]. split; [by right|done].
    + right. exists t. split; [done|]. split; [by left|done].
Qed.

Lemma for_each_getitem (l : list Task) : ∀ σ,
  for_each (λ t, f ← task_states_getitem t; mret (t, f)) l σ =
  (Return ((λ t, (t, seen (task_states σ) t)) <$> l),
   mkSched (filled (task_states σ) l) (issued σ) (events σ)).
Proof.
  induction l as [|t l IH]; intros σ; cbn [for_each].
  - rewrite mret_eq. by destruct σ.
  - erewrite bind_Return; [|by bind_with getitem_eq].
    bind_with IH. rewrite mret_eq. simpl.
    fold (filled (<[t:=seen (task_states σ) t]> (task_states σ)) l).
    do 2 f_equal. f_equal. apply list_fmap_ext. intros _ t' _.
    by rewrite seen_insert.
Qed.


Lemma lookup_selected_states ts wanted t :
  selected_states ts wanted !! t =
  if decide (t ∈ wanted) then Some (seen ts t) else None.
Proof.
  unfold selected_states. case_decide as Hin.
  - apply elem_of_list_to_map.
    + rewrite <- list_fmap_compose. simpl. rewrite list_fmap_id.
      apply NoDup_elements.
    + apply list_elem_of_fmap. exists t. split; [done|].
      by apply elem_of_elements.
  - apply not_elem_of_list_to_map_1. rewrite <- list_fmap_compose. simpl.
    rewrite list_fmap_id. by rewrite elem_of_elements.
Qed.


Lemma elem_of_failed_tasks final_states t :
  t ∈ failed_tasks final_states ↔
  ∃ v, final_states !! t = Some v ∧ is_failed_or_retrying v = true.
Proof.
  unfold failed_tasks. rewrite elem_of_dom. unfold is_Some.
  setoid_rewrite map_lookup_filter_Some. naive_solver.
Qed.


Lemma collect_results_eq ex return_failed return_tasks σ :
  collect_results self ex return_failed return_tasks σ =
  if return_failed then
    (Return (wait_ref ex <$> task_states σ,
             return_tasks ∪ failed_tasks (wait_ref ex <$> task_states σ)),
     mkSched (task_states σ) (issued σ)
             (events σ ++ [EvWaitAll (task_states σ)]))
  else
    let sel := selected_states (task_states σ) (wanted_tasks self return_tasks) in
    (Return (wait_ref ex <$> sel, return_tasks),
     mkSched (filled (task_states σ) (elements (wanted_tasks self return_tasks)))
             (issued σ) (events σ ++ [EvWaitAll sel])).
Proof.
  unfold collect_results. destruct return_failed.
  - bind_with get_task_states_eq. bind_with executor_wait_all_eq.
    by rewrite mret_eq.
  - bind_with for_each_getitem. bind_with executor_wait_all_eq.
    by rewrite mret_eq.
Qed.
End Proofs.

Section Whole.
  Variables (self : FlowRunner) (state : FlowState)
          (supplied : option (gmap Task Final))
          (start_tasks : option (list Task)) (return_tasks : gset Task)
          (task_contexts : option (gmap Task Context)) (ex : Executor)
          (return_failed : bool) (throttle : option Throttle)
          (ctx : Context).


Lemma get_flow_run_state_not_running σ :
  is_running state = false →
  get_flow_run_state self state supplied start_tasks return_tasks
                     task_contexts ex return_failed throttle ctx σ =
  (EndRun state, σ).
Proof. intros H. unfold get_flow_run_state. by rewrite H. Qed.

Lemma get_flow_run_state_cyclic σ :
  is_running state = true →
  sorted_tasks (flow self) (default [] start_tasks) = None →
  get_flow_run_state self state supplied start_tasks return_tasks
                     task_contexts ex return_failed throttle ctx σ =
  (Raise (ValueError "Flows must be acyclic!"), at_start supplied throttle σ).
Proof.
  intros Hr Hs. unfold get_flow_run_state. rewrite Hr. simpl.
  erewrite bind_Return by reflexivity.
  edestruct (make_queues_eq (default [] throttle)) as (queues & Hq).
  bind_with Hq. by rewrite Hs.
Qed.

(** How a run that got to the loop can end. *)
Lemma get_flow_run_state_inv σ o σ' order :
  is_running state = true →
  sorted_tasks (flow self) (default [] start_tasks) = Some order →
  get_flow_run_state self state supplied start_tasks return_tasks
                     task_contexts ex return_failed throttle ctx σ = (o, σ') →
  ∃ queues done units σm,
    iterated (dispatch self ex ctx (default [] start_tasks)
                       (default ∅ task_contexts) queues)
             (at_start supplied throttle σ) done units σm ∧
    ((∃ task rest e,
        order = done ++ task :: rest ∧ o = Raise e ∧
        σ' = after_lookups self task σm ∧
        harvested (default [] start_tasks)
          (filled (task_states σm) (upstream_tasks (flow self) task)) task
          (Raise e)) ∨
     (done = order ∧
      ∃ final_states return_tasks',
        collect_results self ex return_failed return_tasks σm =
          (Return (final_states, return_tasks'), σ') ∧
        ((∃ t, o = Raise (KeyError t) ∧ final_states !! t = None ∧
               t ∈ terminal_tasks (flow self) ∪ reference_tasks (flow self)
                   ∪ return_tasks') ∨
         (∃ terminal reference returned,
            getitems final_states (elements (terminal_tasks (flow self))) σ'
              = (Return terminal, σ') ∧
            getitems final_states (elements (reference_tasks (flow self))) σ'
              = (Return reference, σ') ∧
            getitems final_states (elements return_tasks') σ'
              = (Return returned, σ') ∧
            o = Return (flow_state (flatten_seq terminal.*2)
                                   (flatten_seq reference.*2)
                                   (list_to_map returned)))))).
Proof.
  intros Hr Hs. unfold get_flow_run_state. rewrite Hr. simpl.
  erewrite bind_Return by reflexivity.
  edestruct (make_queues_eq (default [] throttle)) as (queues & Hq).
  bind_with Hq. rewrite Hs. clear Hq.
  cbn [task_states issued events]. fold (at_start supplied throttle σ).
  set (body := dispatch self ex ctx (default [] start_tasks)
                        (default ∅ task_contexts) queues).
  intros Hrun. exists queues.
  destruct (for_each body order (at_start supplied throttle σ)) as [[units|s|e] σ1] eqn:Hloop.
  - erewrite bind_Return in Hrun by exact Hloop.
    apply for_each_inv in Hloop
      as [(units' & [= <-] & Hit)|(? & ? & ? & ? & ? & _ & _ & Hfail)].
    2: { by destruct Hfail as [(? & _ & [=])|(? & _ & [=])]. }
    exists order, units, σ1. split; [done|]. right. split; [done|].
    destruct (collect_results self ex return_failed return_tasks σ1)
      as [oc σc] eqn:Hc.
    pose proof (collect_results_eq self ex return_failed return_tasks σ1) as Hc'.
    rewrite Hc in Hc'.
    assert (∃ final_states rt', oc = Return (final_states, rt'))
      as (final_states & rt' & ->).
    { destruct return_failed; injection Hc' as -> _; eauto. }
    clear Hc'. erewrite bind_Return in Hrun by exact Hc.
    cbv beta iota in Hrun.
    destruct (getitems_spec final_states (elements (terminal_tasks (flow self))) σc)
      as [(terminal & Ht & _)|(t & Ht & Hin & Hn)].
    2: { erewrite bind_Raise in Hrun by done. injection Hrun as <- <-.
         exists final_states, rt'. split; [done|].
         left. exists t. split; [done|]. split; [done|].
         apply elem_of_elements in Hin.
         apply elem_of_union; left. by apply elem_of_union; left. }
    erewrite bind_Return in Hrun by exact Ht.
    destruct (getitems_spec final_states (elements (reference_tasks (flow self))) σc)
      as [(reference & Hk & _)|(t & Hk & Hin & Hn)].
    2: { erewrite bind_Raise in Hrun by done. injection Hrun as <- <-.
         exists final_states, rt'. split; [done|].
         left. exists t. split; [done|]. split; [done|].
         apply elem_of_elements in Hin.
         apply elem_of_union; left. by apply elem_of_union; right. }
    erewrite bind_Return in Hrun by exact Hk.
    destruct (getitems_spec final_states (elements rt') σc)
      as [(returned & Hret & _)|(t & Hret & Hin & Hn)].
    2: { erewrite bind_Raise in Hrun by done. injection Hrun as <- <-.
         exists final_states, rt'. split; [done|].
         left. exists t. split; [done|]. split; [done|].
         apply elem_of_elements in Hin. by apply elem_of_union; right. }
    erewrite bind_Return in Hrun by exact Hret.
    rewrite mret_eq in Hrun. injection Hrun as <- <-.
    exists final_states, rt'. split; [done|].
    right. by exists terminal, reference, returned.
  - erewrite bind_EndRun in Hrun by done. injection Hrun as <- <-.
    apply for_each_inv in Hloop
      as [(? & [=] & _)|(done & task & rest & units & σm & -> & Hit & Hfail)].
    destruct Hfail as [(? & Hd & _)|(? & _ & [=])].
    by apply dispatch_no_EndRun in Hd.
  - erewrite bind_Raise in Hrun by done. injection Hrun as <- <-.
    apply for_each_inv in Hloop
      as [(? & [=] & _)|(done & task & rest & units & σm & -> & Hit & Hfail)].
    destruct Hfail as [(? & _ & [=])|(e' & Hd & [= <-])].
    apply dispatch_Raise in Hd as (-> & Hh).
    exists done, units, σm. split; [done|]. left. by exists task, rest, e.
Qed.
End Whole.

Section Sorting.
  Variable flow : Flow.

Lemma elem_of_upstream_tasks u v :
  u ∈ upstream_tasks flow v ↔
  ∃ e, e ∈ edges flow ∧ upstream_task e = u ∧ downstream_task e = v.
Proof.
  unfold upstream_tasks, edges_to. rewrite list_elem_of_fmap. split.
  - intros (e & -> & [He Hin]%list_elem_of_filter). eauto.
  - intros (e & Hin & <- & Hd). exists e. split; [done|].
    by apply list_elem_of_filter.
Qed.



Lemma sort_rounds_perm fuel : ∀ remaining sorted l,
  sort_rounds flow fuel remaining sorted = Some l → l ≡ₚ sorted ++ remaining.
Proof.
  induction fuel as [|fuel IH]; intros remaining sorted l;
    destruct remaining as [|t remaining]; simpl.
  - intros [= <-]. by rewrite app_nil_r.
  - discriminate.
  - intros [= <-]. by rewrite app_nil_r.
  - set (rem := t :: remaining).
    destruct (filter (ready flow rem) rem) as [|t0 now] eqn:Hnow;
      [discriminate|].
    intros ->%IH. rewrite <- Hnow, <- app_assoc.
    apply Permutation_app_head. apply filter_app_complement.
Qed.

Lemma sort_rounds_topological fuel : ∀ remaining sorted l,
  sort_rounds flow fuel remaining sorted = Some l →
  topological flow sorted →
  (∀ u v, v ∈ sorted → u ∈ upstream_tasks flow v → u ∉ remaining) →
  topological flow l.
Proof.
  induction fuel as [|fuel IH]; intros remaining sorted l;
    destruct remaining as [|t remaining]; simpl; try discriminate;
    try (by intros [= <-]).
  set (rem := t :: remaining).
  destruct (filter (ready flow rem) rem) as [|t0 now] eqn:Hnow;
    [discriminate|].
  rewrite <- Hnow. clear Hnow. intros Hl Htopo Hclosed.
  apply IH in Hl; [done| |].
  - intros u v Huv i j Hi Hj.
    apply lookup_app_Some in Hi as [Hi|[Hi1 Hi2]];
      apply lookup_app_Some in Hj as [Hj|[Hj1 Hj2]].
    + by eapply Htopo.
    + exfalso. eapply Hclosed; [by eapply list_elem_of_lookup_2|done|].
      apply list_elem_of_lookup_2 in Hj2.
      by apply list_elem_of_filter in Hj2 as [_ ?].
    + apply lookup_lt_Some in Hj. lia.
    + exfalso. apply list_elem_of_lookup_2 in Hi2, Hj2.
      apply list_elem_of_filter in Hi2 as [Hready _].
      apply list_elem_of_filter in Hj2 as [_ Hin].
      unfold ready in Hready. rewrite Forall_forall in Hready.
      by apply (Hready u).
  - intros u v [Hv|Hv]%elem_of_app Huv [_ Hin]%list_elem_of_filter.
    + by eapply Hclosed.
    + apply list_elem_of_filter in Hv as [Hready _].
      unfold ready in Hready. rewrite Forall_forall in Hready.
      by apply (Hready u).
Qed.

Lemma reachable_subseteq fuel : ∀ seen, seen ⊆ reachable flow fuel seen.
Proof.
  induction fuel as [|fuel IH]; intros seen; simpl; [done|].
  etrans; [|apply IH]. set_solver.
Qed.

Lemma sorted_tasks_perm roots l :
  sorted_tasks flow roots = Some l →
  ∃ selected : gset Task, l ≡ₚ elements selected ∧
    (roots ≠ [] → list_to_set roots ⊆ selected).
Proof.
  unfold sorted_tasks. intros Hl%sort_rounds_perm. simpl in Hl.
  eexists. split; [exact Hl|]. intros Hne.
  destruct roots; [done|]. apply reachable_subseteq.
Qed.

Lemma sorted_tasks_NoDup roots l :
  sorted_tasks flow roots = Some l → NoDup l.
Proof.
  intros (sel & Hp & _)%sorted_tasks_perm. rewrite Hp. apply NoDup_elements.
Qed.

Lemma sorted_tasks_roots roots l t :
  sorted_tasks flow roots = Some l → t ∈ roots → t ∈ l.
Proof.
  intros (sel & Hp & Hsub)%sorted_tasks_perm Ht. rewrite Hp.
  apply elem_of_elements, Hsub; [|by apply elem_of_list_to_set].
  by intros ->; apply elem_of_nil in Ht.
Qed.

Lemma sorted_tasks_topological roots l :
  sorted_tasks flow roots = Some l → topological flow l.
Proof.
  unfold sorted_tasks. intros Hl.
  eapply sort_rounds_topological; [exact Hl| |].
  - intros u v _ i j Hi. by rewrite lookup_nil in Hi.
  - intros u v Hv. by apply elem_of_nil in Hv.
Qed.
End Sorting.



Lemma foldl_min_nonpos (l : list Z) : ∀ v,
  (foldl Z.min v l ≤ 0)%Z ↔ (v ≤ 0)%Z ∨ ∃ x, x ∈ l ∧ (x ≤ 0)%Z.
Proof.
  induction l as [|y l IH]; intros v; simpl.
  - split; [by left|]. intros [?|(x & Hx & _)]; [done|].
    by apply elem_of_nil in Hx.
  - rewrite IH. split.
    + intros [Hmin|(x & Hx & Hle)].
      * destruct (Z.min_spec v y) as [[_ Heq]|[_ Heq]]; rewrite Heq in Hmin.
        -- by left.
        -- right. exists y. split; [by left|done].
      * right. exists x. split; [by right|done].
    + intros [Hv|(x & [->|Hx]%elem_of_cons & Hle)].
      * left. lia.
      * left. lia.
      * right. eauto.
Qed.

Lemma min_default_nonpos (throttle : Throttle) :
  (min_default 1 throttle.*2 ≤ 0)%Z ↔ ¬ throttle_valid throttle.
Proof.
  unfold throttle_valid. destruct throttle as [|[tag0 n0] throttle]; simpl.
  - split; [lia|]. intros H. exfalso. apply H. by intros ? ? ?%elem_of_nil.
  - rewrite foldl_min_nonpos. split.
    + intros [Hn|(x & Hx & Hle)] Hvalid.
      * specialize (Hvalid tag0 n0 ltac:(by left)). lia.
      * apply list_elem_of_fmap in Hx as ([tag n] & -> & Hin).
        specialize (Hvalid tag n ltac:(by right)). simpl in Hle. lia.
    + intros Hnot. destruct (decide (n0 ≤ 0)%Z) as [|Hpos]; [by left|].
      right.
      destruct (decide (Exists (λ tn : string * Z, (tn.2 ≤ 0)%Z) throttle))
        as [Hex|Hnex].
      * apply Exists_exists in Hex as ([tag n] & Hin & Hle).
        exists n. split; [|done]. apply list_elem_of_fmap. by exists (tag, n).
      * exfalso. apply Hnot. intros tag n [[= -> ->]|Hin]%elem_of_cons; [lia|].
        destruct (decide (0 < n)%Z); [done|]. exfalso. apply Hnex.
        apply Exists_exists. exists (tag, n). split; [done|simpl; lia].
Qed.

Lemma return_tasks_difference (self : FlowRunner) return_tasks :
  (list_to_set (default [] return_tasks) : gset Task) ∖ tasks (flow self) ≠ ∅ ↔
  ¬ return_tasks_known self return_tasks.
Proof.
  unfold return_tasks_known. split.
  - intros Hne Hknown. apply Hne. apply set_eq. intros t.
    rewrite elem_of_difference, elem_of_list_to_set. split; [|set_solver].
    intros [Hin Hnin]. exfalso. by apply Hnin, Hknown.
  - intros Hnot Hempty. apply Hnot. intros t Hin.
    destruct (decide (t ∈ tasks (flow self))) as [|Hnin]; [done|].
    exfalso. assert (t ∈ (∅ : gset Task)); [|set_solver].
    rewrite <- Hempty. apply elem_of_difference. split; [|done].
    by apply elem_of_list_to_set.
Qed.

Lemma lookup_run_context self ex parameters context pctx :
  run_context self ex parameters context pctx !! "_raise_on_exception" =
  (context ∪ pctx) !! "_raise_on_exception".
Proof.
  unfold run_context. rewrite !lookup_union. by rewrite !lookup_insert_ne.
Qed.

Section Handlers.
  Variable self : FlowRunner.

Lemma call_state_handlers_unchanged method state σ σ' :
  method state σ = (EndRun state, σ') →
  call_state_handlers self method state σ = (EndRun state, σ').
Proof.
  intros H. unfold call_state_handlers. rewrite H.
  by rewrite decide_True.
Qed.

Lemma call_state_handlers_Return method state σ st σ' :
  call_state_handlers self method state σ = (Return st, σ') →
  ∃ new_state, method state σ = (Return new_state, σ') ∧
    st = if decide (new_state = state) then new_state
         else handle_state_change self state new_state.
Proof.
  unfold call_state_handlers.
  destruct (method state σ) as [[new|new|e] σ1]; intros [= <- <-]. eauto.
Qed.

Lemma call_state_handlers_EndRun method state σ st σ' :
  call_state_handlers self method state σ = (EndRun st, σ') →
  ∃ new_state, method state σ = (EndRun new_state, σ') ∧
    st = if decide (new_state = state) then new_state
         else handle_state_change self state new_state.
Proof.
  unfold call_state_handlers.
  destruct (method state σ) as [[new|new|e] σ1]; intros [= <- <-]. eauto.
Qed.

Lemma call_state_handlers_Raise method state σ e σ' :
  call_state_handlers self method state σ = (Raise e, σ') →
  method state σ = (Raise e, σ').
Proof.
  unfold call_state_handlers.
  by destruct (method state σ) as [[new|new|e'] σ1]; intros [= <- <-].
Qed.

Lemma check_flow_cases state σ :
  check_flow_is_pending_or_running state σ =
  (if is_finished state || negb (is_pending state || is_running state)
   then EndRun state else Return state, σ).
Proof.
  unfold check_flow_is_pending_or_running.
  destruct (is_finished state); [done|].
  by destruct (is_pending state || is_running state).
Qed.

Lemma set_flow_cases state σ :
  set_flow_to_running state σ =
  (if is_pending state then Return (mkState Running (Msg "Running flow.") None None)
   else if is_running state then Return state else EndRun state, σ).
Proof.
  unfold set_flow_to_running.
  destruct (is_pending state); [done|]. by destruct (is_running state).
Qed.


Lemma get_flow_run_state_Raise state supplied start_tasks return_tasks
    task_contexts ex return_failed throttle ctx σ e σ' :
  get_flow_run_state self state supplied start_tasks return_tasks task_contexts
                     ex return_failed throttle ctx σ = (Raise e, σ') →
  raised_by_body e.
Proof.
  intros Hrun. destruct (is_running state) eqn:Hr.
  2: { by rewrite get_flow_run_state_not_running in Hrun. }
  destruct (sorted_tasks (flow self) (default [] start_tasks)) as [order|] eqn:Hs.
  2: { rewrite get_flow_run_state_cyclic in Hrun by done.
       injection Hrun as <- _. right. right. by right. }
  eapply get_flow_run_state_inv in Hrun
    as (? & ? & ? & ? & _ &
        [(? & ? & ? & _ & [= ->] & _ & Hh)|(_ & ? & ? & _ & [(t & [= ->] & _)|(? & ? & ? & _ & _ & _ & [=])])]);
    [|right; right; left; eauto|done|done].
  inversion Hh; [right; by left|by left|by left].
Qed.

Lemma run_body_Raise state supplied start_tasks return_tasks return_failed ex
    task_contexts throttle ctx σ e σ' :
  run_body self state supplied start_tasks return_tasks return_failed ex
           task_contexts throttle ctx σ = (Raise e, σ') →
  raised_by_body e.
Proof.
  unfold run_body.
  destruct (call_state_handlers self check_flow_is_pending_or_running state σ)
    as [[st1|st1|e1] σ1] eqn:H1.
  - erewrite bind_Return by exact H1.
    destruct (call_state_handlers self set_flow_to_running st1 σ1)
      as [[st2|st2|e2] σ2] eqn:H2.
    + erewrite bind_Return by exact H2.
      intros H3%call_state_handlers_Raise.
      by eapply get_flow_run_state_Raise.
    + by erewrite bind_EndRun by exact H2.
    + apply call_state_handlers_Raise in H2.
      rewrite set_flow_cases in H2.
      by destruct (is_pending st1), (is_running st1).
  - by erewrite bind_EndRun by exact H1.
  - apply call_state_handlers_Raise in H1. rewrite check_flow_cases in H1.
    by destruct (is_finished state || negb (is_pending state || is_running state)).
Qed.

Lemma run_body_not_ready state supplied start_tasks return_tasks return_failed
    ex task_contexts throttle ctx σ :
  is_finished state || negb (is_pending state || is_running state) = true →
  run_body self state supplied start_tasks return_tasks return_failed ex
           task_contexts throttle ctx σ = (EndRun state, σ).
Proof.
  intros H. unfold run_body. erewrite bind_EndRun; [done|].
  apply call_state_handlers_unchanged. by rewrite check_flow_cases, H.
Qed.
End Handlers.

Section RunLevel.
  Variables (self : FlowRunner) (DEFAULT_EXECUTOR : Executor)
            (prefect_context : Context)
            (state : option FlowState) (task_states : option (gmap Task Final))
            (start_tasks return_tasks : option (list Task))
            (return_failed : bool) (parameters : option (gmap string PyValue))
            (executor : option Executor) (context : option Context)
            (task_contexts : option (gmap Task Context))
            (throttle : option Throttle).

Let the_run : RunResult * list Event :=
    run self DEFAULT_EXECUTOR prefect_context state task_states start_tasks
        return_tasks return_failed parameters executor context task_contexts
        throttle.
Let thr : Throttle := effective_throttle self throttle.
Let ex : Executor := default DEFAULT_EXECUTOR executor.
Let ctx : Context :=
    run_context self ex parameters (default ∅ context) prefect_context.
Let body : Outcome FlowState * Sched :=
    run_body self (default (mkState Pending NoMessage None None) state) task_states
             start_tasks (list_to_set (default [] return_tasks)) return_failed
             ex task_contexts thr ctx empty_sched.

Lemma run_throttle_invalid :
  ¬ throttle_valid thr →
  the_run = (Raised (ValueError (throttle_message thr)), []).
Proof.
  intros H%min_default_nonpos. unfold the_run, run. fold thr.
  by rewrite bool_decide_eq_true_2.
Qed.

Lemma run_return_tasks_unknown :
  throttle_valid thr → ¬ return_tasks_known self return_tasks →
  the_run = (Raised (ValueError return_tasks_message), []).
Proof.
  intros Ht Hr%return_tasks_difference. unfold the_run, run. fold thr.
  rewrite bool_decide_eq_false_2 by (by rewrite min_default_nonpos; auto).
  by rewrite bool_decide_eq_true_2.
Qed.

Lemma run_preflight_passed :
  throttle_valid thr → return_tasks_known self return_tasks →
  the_run =
  match body with
  | (Return s, σ) | (EndRun s, σ) => (Returned s, events σ)
  | (Raise exc, σ) =>
      if raise_on_exception ctx then (Raised exc, events σ)
      else (Returned (mkState Failed (MsgExc exc) None None), events σ)
  end.
Proof.
  intros Ht Hr. unfold the_run, run. fold thr.
  rewrite bool_decide_eq_false_2 by (by rewrite min_default_nonpos; auto).
  rewrite bool_decide_eq_false_2
    by (by rewrite return_tasks_difference; auto).
  fold ex. fold ctx. fold body. by destruct body as [[?|?|?] ?].
Qed.

Lemma throttle_valid_dec' : throttle_valid thr ∨ ¬ throttle_valid thr.
Proof.
  destruct (decide (min_default 1 thr.*2 ≤ 0)%Z) as [H|H].
  - right. by apply min_default_nonpos.
  - left. destruct (decide (Forall (λ tn : string * Z, (0 < tn.2)%Z) thr))
      as [Hf|Hf].
    + rewrite Forall_forall in Hf. intros tag n Hin. by apply (Hf (tag, n)).
    + exfalso. apply H, min_default_nonpos. intros Hv. apply Hf.
      apply Forall_forall. intros [tag n] Hin. by apply (Hv tag n).
Qed.

Lemma return_tasks_known_dec' :
  return_tasks_known self return_tasks ∨ ¬ return_tasks_known self return_tasks.
Proof.
  destruct (decide ((list_to_set (default [] return_tasks) : gset Task)
                      ∖ tasks (flow self) = ∅)) as [H|H].
  - left. destruct (decide (Forall (λ t, t ∈ tasks (flow self))
                                   (default [] return_tasks))) as [Hf|Hf].
    + rewrite Forall_forall in Hf. exact Hf.
    + exfalso. revert H. apply return_tasks_difference. intros Hk.
      apply Hf, Forall_forall. exact Hk.
  - right. by apply return_tasks_difference.
Qed.

(** C2. Once the two checks that precede the [try] have passed, [run] ends
    as the body of its [try] does: an [ENDRUN] gives the state it carries;
    any other exception gives [Failed] with the exception as its message when
    [_raise_on_exception] is not in the context (that of the call over the
    global one) or is there with a false value, and is raised to the caller
    when it is there with a true value.  The trace is that of the body. *)
Theorem C2_exceptions_in_the_scheduling_body o σ :
  throttle_valid thr → return_tasks_known self return_tasks →
  body = (o, σ) →
  let flag := (default ∅ context ∪ prefect_context) !! "_raise_on_exception" in
  (∀ s, o = EndRun s → the_run = (Returned s, events σ)) ∧
  (∀ e, o = Raise e →
     (flag = None ∨ ∃ v, flag = Some v ∧ ctx_truthy v = false) →
     the_run = (Returned (mkState Failed (MsgExc e) None None), events σ)) ∧
  (∀ e, o = Raise e →
     (∃ v, flag = Some v ∧ ctx_truthy v = true) →
     the_run = (Raised e, events σ)).
Proof.
  intros Ht Hr Hbody flag. rewrite run_preflight_passed by done.
  rewrite Hbody. unfold raise_on_exception, ctx.
  rewrite lookup_run_context. fold flag.
  split; [|split].
  - by intros s ->.
  - intros e -> [->|(v & -> & Hv)]; simpl; [done|]. by rewrite Hv.
  - intros e -> (v & -> & Hv). simpl. by rewrite Hv.
Qed.

(** C3. With some value of the throttle in force (the one passed, or the
    flow's when none or an empty one is passed) at or below zero, [run]
    raises the [ValueError] of line 134 and nothing has been handed to the
    executor; with every value strictly positive, the empty throttle
    included, [run] never raises that error. *)
Theorem C3_throttle_is_validated_first :
  ((∃ tag n, (tag, n) ∈ thr ∧ (n ≤ 0)%Z) →
   the_run = (Raised (ValueError (throttle_message thr)), [])) ∧
  (throttle_valid thr →
   ∀ throttle' trace,
     the_run ≠ (Raised (ValueError (throttle_message throttle')), trace)).
Proof.
  split.
  - intros (tag & n & Hin & Hle). apply run_throttle_invalid.
    intros Hv. specialize (Hv tag n Hin). lia.
  - intros Hv throttle' trace.
    destruct return_tasks_known_dec' as [Hk|Hk].
    + rewrite run_preflight_passed by done.
      destruct body as [[s|s|e] σ] eqn:Hbody; try discriminate.
      destruct (raise_on_exception ctx); [|discriminate].
      apply run_body_Raise in Hbody as [->|[->|[(t & ->)| ->]]];
        discriminate.
    + rewrite run_return_tasks_unknown by done. discriminate.
Qed.

(** C8. With a task in [return_tasks] that is not a task of the flow, [run]
    raises a [ValueError] before anything is handed to the executor: the one
    of line 141 unless the throttle was refused first; with [return_tasks] a
    subset of the flow's tasks, [run] never raises the error of line 141. *)
Theorem C8_return_tasks_are_validated :
  ((∃ t, t ∈ default [] return_tasks ∧ t ∉ tasks (flow self)) →
   ∃ msg, the_run = (Raised (ValueError msg), []) ∧
          (throttle_valid thr → msg = return_tasks_message)) ∧
  (return_tasks_known self return_tasks →
   ∀ trace, the_run ≠ (Raised (ValueError return_tasks_message), trace)).
Proof.
  split.
  - intros (t & Hin & Hnin).
    assert (Hk : ¬ return_tasks_known self return_tasks).
    { intros Hk. by apply Hnin, Hk. }
    destruct throttle_valid_dec' as [Hv|Hv].
    + exists return_tasks_message. split; [|done].
      by apply run_return_tasks_unknown.
    + exists (throttle_message thr). split; [|done].
      by apply run_throttle_invalid.
  - intros Hk trace. destruct throttle_valid_dec' as [Hv|Hv].
    + rewrite run_preflight_passed by done.
      destruct body as [[s|s|e] σ] eqn:Hbody; try discriminate.
      destruct (raise_on_exception ctx); [|discriminate].
      apply run_body_Raise in Hbody as [->|[->|[(t & ->)| ->]]];
        discriminate.
    + rewrite run_throttle_invalid by done. discriminate.
Qed.
End RunLevel.

(** C7. A starting flow state that is finished, or neither pending nor
    running, makes [check_flow_is_pending_or_running] raise [ENDRUN] with
    that very state, also under the decorator (the state is unchanged, so no
    handler is called), and [run] returns it unchanged with nothing handed to
    the executor; [set_flow_to_running] makes [Running] of a pending state
    and returns a running state as it is. *)
Theorem C7_flow_level_transitions (st : FlowState) :
  (is_finished st = true ∨ (is_pending st = false ∧ is_running st = false) →
   (∀ σ, check_flow_is_pending_or_running st σ = (EndRun st, σ)) ∧
   (∀ self σ,
      call_state_handlers self check_flow_is_pending_or_running st σ
      = (EndRun st, σ)) ∧
   (∀ self DEFAULT_EXECUTOR prefect_context task_states start_tasks
      return_tasks return_failed parameters executor context task_contexts
      throttle,
      throttle_valid (effective_throttle self throttle) →
      return_tasks_known self return_tasks →
      run self DEFAULT_EXECUTOR prefect_context (Some st) task_states
          start_tasks return_tasks return_failed parameters executor context
          task_contexts throttle
      = (Returned st, []))) ∧
  (is_pending st = true →
   ∀ σ, set_flow_to_running st σ
        = (Return (mkState Running (Msg "Running flow.") None None), σ)) ∧
  (is_running st = true → ∀ σ, set_flow_to_running st σ = (Return st, σ)).
Proof.
  split; [|split].
  - intros Hst.
    assert (Hc : is_finished st || negb (is_pending st || is_running st) = true).
    { destruct Hst as [->|[-> ->]]; [done|]. by rewrite orb_true_r. }
    split; [|split].
    + intros σ. by rewrite check_flow_cases, Hc.
    + intros self σ. apply call_state_handlers_unchanged.
      by rewrite check_flow_cases, Hc.
    + intros. rewrite run_preflight_passed by done. simpl.
      by rewrite run_body_not_ready.
  - intros Hp σ. by rewrite set_flow_cases, Hp.
  - intros Hr σ. rewrite set_flow_cases, Hr.
    unfold is_pending, is_running in *. by destruct (kind st).
Qed.

Lemma forallb_elem_of {A} (f : A → bool) (l : list A) :
  forallb f l = true ↔ ∀ x, x ∈ l → f x = true.
Proof.
  rewrite forallb_forall. by setoid_rewrite list_elem_of_In.
Qed.

Lemma existsb_elem_of {A} (f : A → bool) (l : list A) :
  existsb f l = true ↔ ∃ x, x ∈ l ∧ f x = true.
Proof.
  rewrite existsb_exists. by setoid_rewrite list_elem_of_In.
Qed.

(** The four rules, in order. *)
Lemma flow_state_rules terminal_states key_states return_states :
  let st := flow_state terminal_states key_states return_states in
  result st = Some return_states ∧
  ((∃ s, s ∈ terminal_states ∧ is_finished s = false) →
   kind st = Pending ∧
   message st = Msg "Some terminal tasks are still pending.") ∧
  ((∀ s, s ∈ terminal_states → is_finished s = true) →
   (∃ s, s ∈ key_states ∧ is_failed s = true) →
   kind st = Failed) ∧
  ((∀ s, s ∈ terminal_states → is_finished s = true) →
   (∀ s, s ∈ key_states → is_failed s = false) →
   (∀ s, s ∈ key_states → is_successful s = true) →
   kind st = Success) ∧
  ((∀ s, s ∈ terminal_states → is_finished s = true) →
   (∀ s, s ∈ key_states → is_failed s = false) →
   (∃ s, s ∈ key_states ∧ is_successful s = false) →
   kind st = Success ∧ message st = Msg "No reference tasks failed.").
Proof.
  intros st. unfold st, flow_state.
  destruct (forallb is_finished terminal_states) eqn:Hfin; simpl.
  2: { split; [done|]. split; [done|].
       assert (Hnot : ¬ ∀ s, s ∈ terminal_states → is_finished s = true).
       { rewrite <- forallb_elem_of. by rewrite Hfin. }
       repeat split; intros; done. }
  rewrite forallb_elem_of in Hfin.
  destruct (existsb is_failed key_states) eqn:Hfail; simpl.
  - apply existsb_elem_of in Hfail as (s & Hs & Hf).
    split; [done|]. split.
    { intros (s' & Hs' & Hn). rewrite Hfin in Hn by done. done. }
    split; [done|]. split.
    + intros _ Hnone. rewrite Hnone in Hf by done. done.
    + intros _ Hnone. rewrite Hnone in Hf by done. done.
  - assert (Hnone : ¬ ∃ s, s ∈ key_states ∧ is_failed s = true).
    { rewrite <- existsb_elem_of. by rewrite Hfail. }
    destruct (forallb is_successful key_states) eqn:Hsucc; simpl.
    + rewrite forallb_elem_of in Hsucc.
      split; [done|]. split.
      { intros (s' & Hs' & Hn). rewrite Hfin in Hn by done. done. }
      split; [done|]. split; [done|].
      intros _ _ (s & Hs & Hn). rewrite Hsucc in Hn by done. done.
    + split; [done|]. split.
      { intros (s' & Hs' & Hn). rewrite Hfin in Hn by done. done. }
      split; [done|]. split; [|done].
      intros _ _ Hall. apply forallb_elem_of in Hall. congruence.
Qed.


Lemma getitems_read final_states wanted read σ σ' :
  getitems final_states (elements wanted) σ = (Return read, σ') →
  read_from final_states wanted read.
Proof.
  destruct (getitems_spec final_states (elements wanted) σ)
    as [(l & -> & Hk & Hd)|(t & -> & _)]; intros [= <- <-]. by split.
Qed.

Lemma lookup_read_from final_states wanted read t :
  read_from final_states wanted read →
  (list_to_map read : gmap Task Final) !! t =
  if decide (t ∈ wanted) then final_states !! t else None.
Proof.
  intros [Hk Hd]. case_decide as Hin.
  - assert (t ∈ read.*1) as ([t' v] & -> & Hv)%list_elem_of_fmap.
    { rewrite Hk. by apply elem_of_elements. }
    simpl. rewrite (Hd _ _ Hv). apply elem_of_list_to_map; [|done].
    rewrite Hk. apply NoDup_elements.
  - apply not_elem_of_list_to_map_1. rewrite Hk. by rewrite elem_of_elements.
Qed.

(** C1. Whenever [get_flow_run_state] returns a state, that state is
    classified from the final states that the aggregation waited for (what
    [collect_results] returned), read for the terminal and the reference
    tasks and flattened, by the first rule that applies: some terminal state
    not finished gives [Pending] with the message
    "Some terminal tasks are still pending."; else some reference state
    failed gives [Failed]; else all reference states successful gives
    [Success]; else [Success] with the message "No reference tasks failed.".
    In every case the result of the state is the [return_states] dictionary:
    the final states of the return tasks and of nothing else. *)
Theorem C1_flow_state_is_classified_in_order
    self state supplied start_tasks return_tasks task_contexts ex
    return_failed throttle ctx σ st σ' :
  get_flow_run_state self state supplied start_tasks return_tasks task_contexts
                     ex return_failed throttle ctx σ = (Return st, σ') →
  ∃ σd final_states return_tasks' terminal reference return_states,
    collect_results self ex return_failed return_tasks σd
      = (Return (final_states, return_tasks'), σ') ∧
    read_from final_states (terminal_tasks (flow self)) terminal ∧
    read_from final_states (reference_tasks (flow self)) reference ∧
    (∀ t, return_states !! t =
          if decide (t ∈ return_tasks') then final_states !! t else None) ∧
    let terminal_states := flatten_seq terminal.*2 in
    let key_states := flatten_seq reference.*2 in
    result st = Some return_states ∧
    ((∃ s, s ∈ terminal_states ∧ is_finished s = false) →
     kind st = Pending ∧
     message st = Msg "Some terminal tasks are still pending.") ∧
    ((∀ s, s ∈ terminal_states → is_finished s = true) →
     (∃ s, s ∈ key_states ∧ is_failed s = true) →
     kind st = Failed) ∧
    ((∀ s, s ∈ terminal_states → is_finished s = true) →
     (∀ s, s ∈ key_states → is_failed s = false) →
     (∀ s, s ∈ key_states → is_successful s = true) →
     kind st = Success) ∧
    ((∀ s, s ∈ terminal_states → is_finished s = true) →
     (∀ s, s ∈ key_states → is_failed s = false) →
     (∃ s, s ∈ key_states ∧ is_successful s = false) →
     kind st = Success ∧ message st = Msg "No reference tasks failed.").
Proof.
  intros Hrun. destruct (is_running state) eqn:Hr.
  2: { by rewrite get_flow_run_state_not_running in Hrun. }
  destruct (sorted_tasks (flow self) (default [] start_tasks)) as [order|] eqn:Hs.
  2: { by rewrite get_flow_run_state_cyclic in Hrun. }
  eapply get_flow_run_state_inv in Hrun
    as (queues & finished & units & σm & _ &
        [(? & ? & ? & _ & [=] & _)|
         (_ & final_states & rt' & Hc &
          [(? & [=] & _)|(terminal & reference & returned & Ht & Hk & Hret & [= ->])])]);
    [|done|done].
  exists σm, final_states, rt', terminal, reference, (list_to_map returned).
  split; [done|].
  split; [by eapply getitems_read|]. split; [by eapply getitems_read|].
  split.
  { intros t. apply lookup_read_from. by eapply getitems_read. }
  apply flow_state_rules.
Qed.

Lemma calls_queues (throttle : Throttle) : calls (EvQueue ∘ snd <$> throttle) = [].
Proof. by induction throttle as [|? ? IH]. Qed.

Section Trace.
  Variables (self : FlowRunner) (state : FlowState)
            (supplied : option (gmap Task Final))
            (start_tasks : option (list Task)) (return_tasks : gset Task)
            (task_contexts : option (gmap Task Context)) (ex : Executor)
            (return_failed : bool) (throttle : option Throttle)
            (ctx : Context).

(** The trace of a run: the queues, the dispatch of a prefix of the sorted
    tasks (all of them unless lines 307-311 stopped the loop), and at most the
    one wait of the aggregation. *)
Lemma get_flow_run_state_trace σ o σ' :
  get_flow_run_state self state supplied start_tasks return_tasks task_contexts
                     ex return_failed throttle ctx σ = (o, σ') →
  (σ' = σ ∧ ∃ s, o = EndRun s) ∨
  (σ' = at_start supplied throttle σ ∧
   sorted_tasks (flow self) (default [] start_tasks) = None ∧
   ∃ e, o = Raise e) ∨
  ∃ order queues finished units σm tail,
    sorted_tasks (flow self) (default [] start_tasks) = Some order ∧
    finished `prefix_of` order ∧
    iterated (dispatch self ex ctx (default [] start_tasks)
                       (default ∅ task_contexts) queues)
             (at_start supplied throttle σ) finished units σm ∧
    events σ' = events σm ++ tail ∧ calls tail = [] ∧
    ((∃ e, o = Raise e) ∨ finished = order) ∧
    (∀ st, o = Return st →
       finished = order ∧
       ∃ final_states return_tasks',
         collect_results self ex return_failed return_tasks σm
         = (Return (final_states, return_tasks'), σ') ∧
         ∀ t, result st ≫= (.!! t) =
              if decide (t ∈ return_tasks') then final_states !! t else None).
Proof.
  intros Hrun. destruct (is_running state) eqn:Hr.
  2: { rewrite get_flow_run_state_not_running in Hrun by done.
       injection Hrun as <- <-. left. eauto. }
  destruct (sorted_tasks (flow self) (default [] start_tasks)) as [order|] eqn:Hs.
  2: { rewrite get_flow_run_state_cyclic in Hrun by done.
       injection Hrun as <- <-. right. left. eauto. }
  right. right.
  eapply get_flow_run_state_inv in Hrun
    as (queues & finished & units & σm & Hit & Hend); [|done|done].
  exists order, queues, finished, units, σm.
  destruct Hend as [(task & rest & e & -> & -> & -> & _)|
                    (-> & final_states & rt' & Hc & Hend)].
  - exists []. split; [done|]. split; [by apply prefix_app_r|].
    split; [done|]. simpl. rewrite app_nil_r.
    split; [done|]. split; [done|]. split; [eauto|]. by intros ? [=].
  - pose proof (collect_results_eq self ex return_failed return_tasks σm) as Hc'.
    rewrite Hc in Hc'.
    assert (∃ waited, events σ' = events σm ++ [EvWaitAll waited])
      as (waited & Hev).
    { destruct return_failed; injection Hc' as _ _ ->; simpl; eauto. }
    exists [EvWaitAll waited]. split; [done|]. split; [done|].
    split; [done|]. split; [done|]. split; [done|]. split; [by right|].
    intros st ->. split; [done|]. exists final_states, rt'. split; [done|].
    destruct Hend as [(? & [=] & _)|
                      (terminal & reference & returned & _ & _ & Hret & [= ->])].
    intros t. pose proof (flow_state_rules (flatten_seq terminal.*2)
      (flatten_seq reference.*2) (list_to_map returned)) as [-> _].
    simpl. apply lookup_read_from. by eapply getitems_read.
Qed.
End Trace.

Section Order.
  Variables (self : FlowRunner) (state : FlowState)
            (supplied : option (gmap Task Final))
            (start_tasks : option (list Task)) (return_tasks : gset Task)
            (task_contexts : option (gmap Task Context)) (ex : Executor)
            (return_failed : bool) (throttle : option Throttle)
            (ctx : Context).

Lemma prefix_before flow (l order : list Task) :
  l `prefix_of` order → topological flow order → topological flow l.
Proof.
  intros [rest ->] Htopo u v Huv i j Hi Hj.
  eapply Htopo; [done| |]; by apply lookup_app_l_Some.
Qed.

Lemma prefix_NoDup (l order : list Task) :
  l `prefix_of` order → NoDup order → NoDup l.
Proof. intros [rest ->] H. by apply NoDup_app in H as [? _]. Qed.

(** C6, as amended. The tasks that a run dispatches are a prefix of
    [Flow.sorted_tasks(start_tasks)] (all of it when the run returns), each
    dispatched once; so, for every edge [u -> v], [u] is dispatched before
    [v] whenever both are dispatched: no task is dispatched before an
    upstream task of it that the run dispatches. *)
Theorem C6_dispatch_follows_the_sorted_tasks σ o σ' :
  get_flow_run_state self state supplied start_tasks return_tasks task_contexts
                     ex return_failed throttle ctx σ = (o, σ') →
  ∃ evs,
    events σ' = events σ ++ evs ∧
    NoDup (dispatch_order evs) ∧
    (∀ order,
       sorted_tasks (flow self) (default [] start_tasks) = Some order →
       dispatch_order evs `prefix_of` order ∧
       (∀ st, o = Return st → dispatch_order evs = order)) ∧
    (∀ u v, u ∈ upstream_tasks (flow self) v →
            before (dispatch_order evs) u v).
Proof.
  intros Hrun.
  apply get_flow_run_state_trace in Hrun
    as [(-> & s & ->)|[(-> & Hs & e & ->)|
        (order & queues & finished & units & σm & tail & Hs & Hpre & Hit &
         Hev & Htail & _ & Hret)]].
  - exists []. rewrite app_nil_r. split; [done|]. split; [constructor|].
    split.
    + intros order _. split; [apply prefix_nil|]. by intros ? [=].
    + intros u v _ i j Hi. by destruct i.
  - exists (EvQueue ∘ snd <$> default [] throttle). split; [done|].
    rewrite dispatch_order_calls, calls_queues. simpl.
    split; [constructor|]. split.
    + intros order. by rewrite Hs.
    + intros u v _ i j Hi. by destruct i.
  - destruct (loop_events _ _ _ _ _ _ _ _ _ _ Hit) as (evs1 & Hev1 & Hord).
    exists ((EvQueue ∘ snd <$> default [] throttle) ++ evs1 ++ tail).
    split.
    { rewrite Hev, Hev1. simpl. by rewrite <- !app_assoc. }
    rewrite dispatch_order_calls, !calls_app, calls_queues, Htail, app_nil_r.
    simpl. rewrite Hord.
    pose proof (sorted_tasks_NoDup _ _ _ Hs) as Hnd.
    pose proof (sorted_tasks_topological _ _ _ Hs) as Htopo.
    split; [by eapply prefix_NoDup|]. split.
    + intros order' Hs'. rewrite Hs in Hs'. injection Hs' as <-.
      split; [done|]. intros st Hst. by destruct (Hret st Hst) as [-> _].
    + by eapply prefix_before.
Qed.
End Order.

Section DispatchClaims.
  Variables (self : FlowRunner) (ex : Executor) (ctx : Context)
            (start_tasks : list Task) (tc : gmap Task Context)
            (queues : gmap string Queue).

Lemma elem_of_waits_of us ev :
  ev ∈ waits_of self us ↔
  ∃ e f, us !! e = Some f ∧ from_mapped self e ∧ ev = EvWait f.
Proof.
  unfold waits_of. rewrite list_elem_of_fmap. split.
  - intros ([e f] & -> & [Hm Hin]%list_elem_of_filter).
    apply elem_of_map_to_list in Hin. by exists e, f.
  - intros (e & f & Hl & Hm & ->). exists (e, f). split; [done|].
    apply list_elem_of_filter. split; [done|]. by apply elem_of_map_to_list.
Qed.

Lemma lookup_waited_union us e :
  (waited_of self ex us ∪ us) !! e =
  (λ f, if task_info_mapped (flow self) (upstream_task e)
        then Known (wait_ref ex f) else f) <$> us !! e.
Proof.
  unfold waited_of. rewrite lookup_union, lookup_fmap, map_lookup_filter.
  destruct (us !! e) as [f|] eqn:Hf; simpl; [|done].
  simpl.
  destruct (task_info_mapped (flow self) (upstream_task e)) eqn:Hm.
  - by rewrite option_guard_True.
  - by rewrite option_guard_False.
Qed.

(** C4. The dispatch of a task that is not mapped waits, before it submits
    the task, on the entry of every edge that comes from a mapped task, on
    those entries only, and hands the task the waited value in place of the
    entry; the dispatch of a mapped task waits on nothing and hands the
    entries over as they are.  ([entry e] is [task_states[e.upstream_task]]
    at the time of the dispatch.) *)
Theorem C4_mapped_upstream_states_are_waited_for task σ u σ' :
  dispatch self ex ctx start_tasks tc queues task σ = (Return u, σ') →
  let entry e := seen (task_states σ) (upstream_task e) in
  ∃ n c waits,
    call_task c = task ∧
    (task_info_mapped (flow self) task = false →
       events σ' = events σ ++ waits ++ [EvSubmit n c] ∧
       (∀ ev, ev ∈ waits ↔
              ∃ e, e ∈ edges_to (flow self) task ∧
                   task_info_mapped (flow self) (upstream_task e) = true ∧
                   ev = EvWait (entry e)) ∧
       (∀ e, e ∈ edges_to (flow self) task →
             call_upstream_states c !! e =
             Some (if task_info_mapped (flow self) (upstream_task e)
                   then Known (wait_ref ex (entry e)) else entry e))) ∧
    (task_info_mapped (flow self) task = true →
       events σ' = events σ ++ [EvMap n c] ∧
       (∀ e, e ∈ edges_to (flow self) task →
             call_upstream_states c !! e = Some (entry e))).
Proof.
  intros (inputs & _ & ->)%dispatch_Return entry.
  set (ts := filled (task_states σ) (upstream_tasks (flow self) task)).
  set (us := upstream_of (task_states σ) ∅ (edges_to (flow self) task)).
  assert (Hus : ∀ e, us !! e =
                     if decide (e ∈ edges_to (flow self) task)
                     then Some (entry e) else None).
  { intros e. unfold us. by rewrite lookup_upstream_of, lookup_empty. }
  exists (issued σ), (the_call self ex ctx start_tasks tc queues task ts us inputs),
         (waits_of self us).
  split; [done|]. unfold after_dispatch, dispatch_events, the_call. fold ts us.
  split; intros Hm; rewrite Hm; simpl.
  - split; [done|]. split.
    + intros ev. rewrite elem_of_waits_of. split.
      * intros (e & f & Hl & Hfm & ->). rewrite Hus in Hl.
        case_decide; [|done]. injection Hl as <-. by exists e.
      * intros (e & Hin & Hfm & ->). exists e, (entry e).
        rewrite Hus. by rewrite decide_True.
    + intros e Hin. rewrite lookup_waited_union, Hus.
      by rewrite decide_True.
  - split; [done|]. intros e Hin. rewrite Hus. by rewrite decide_True.
Qed.

(** C10. When the task upstream of an edge into the dispatched task has no
    entry in [task_states], the lookup returns the [Failed] state with the
    message "Task state not available."; the dispatch raises no [KeyError],
    and the call it makes carries that state for the edge. *)
Theorem C10_missing_upstream_state_is_failed task σ e o σ' :
  e ∈ edges_to (flow self) task →
  task_states σ !! upstream_task e = None →
  dispatch self ex ctx start_tasks tc queues task σ = (o, σ') →
  (task_states_getitem (upstream_task e) σ).1
    = Return (Known state_not_available) ∧
  (∀ t, o ≠ Raise (KeyError t)) ∧
  ∃ evs,
    events σ' = events σ ++ evs ∧
    (∀ c, c ∈ calls evs →
          call_upstream_states c !! e = Some (Known state_not_available)) ∧
    (∀ units, o = Return units → ∃ c, c ∈ calls evs ∧ call_task c = task).
Proof.
  intros Hin Hnone Hd. split.
  { unfold task_states_getitem. by rewrite Hnone. }
  destruct o as [units|s|exn].
  - apply dispatch_Return in Hd as (inputs & _ & ->). split; [done|].
    eexists. split; [done|]. rewrite calls_dispatch_events.
    split.
    + intros c ->%list_elem_of_singleton. unfold the_call, call_of. simpl.
      assert (Hus : upstream_of (task_states σ) ∅ (edges_to (flow self) task) !! e
                    = Some (Known state_not_available)).
      { rewrite lookup_upstream_of, decide_True by done.
        unfold seen. by rewrite Hnone. }
      destruct (task_info_mapped (flow self) task); [done|].
      rewrite lookup_waited_union, Hus. simpl.
      by destruct (task_info_mapped (flow self) (upstream_task e)).
    + intros _ _. eexists. split; [by apply list_elem_of_singleton|done].
  - by apply dispatch_no_EndRun in Hd.
  - apply dispatch_Raise in Hd as (-> & Hh).
    split; [intros t [= ->]; inversion Hh|].
    exists []. simpl. rewrite app_nil_r. split; [done|].
    split; [by intros ? ?%elem_of_nil|]. by intros ? [=].
Qed.
End DispatchClaims.


(** * The claims on the example flows *)

(** C1: the pipeline, every task succeeding, ends in [Success] with the
    returned states as its result. *)
Lemma C1_witness :
  ∃ st σ',
    get_flow_run_state pipeline_runner running None None {[2%nat]} None
                       all_succeed false None ∅ empty_sched
    = (Return st, σ') ∧
    kind st = Success ∧
    ∃ final_states return_states : gmap Task Final,
      result st = Some return_states ∧
      (∀ t, return_states !! t =
            if decide (t ∈ ({[2%nat]} : gset Task))
            then final_states !! t else None).
Proof.
  eexists _, _. split; [vm_compute; reflexivity|].
  split; [reflexivity|].
  edestruct (C1_flow_state_is_classified_in_order pipeline_runner running
               None None {[2%nat]} None all_succeed false None ∅ empty_sched)
    as (σd & final_states & rt' & terminal & reference & return_states
        & Hc & _ & _ & Hret & Hres & _); [vm_compute; reflexivity|].
  exists final_states, return_states. split; [exact Hres|].
  rewrite collect_results_eq in Hc. injection Hc as _ <- _. exact Hret.
Defined.

(** C2: a start task supplied with a [Success] state fails the assertion of
    line 310; without the debug flag [run] returns [Failed] with that
    exception as its message. *)
Lemma C2_witness :
  ∃ σ,
    run_body pipeline_runner (mkState Pending NoMessage None None)
             (Some {[1%nat := One success_with_x]}) (Some [1%nat])
             (list_to_set [2%nat]) false all_succeed None []
             (run_context pipeline_runner all_succeed None ∅ ∅) empty_sched
    = (Raise AssertionError, σ) ∧
    run pipeline_runner all_succeed ∅ None
        (Some {[1%nat := One success_with_x]}) (Some [1%nat]) (Some [2%nat])
        false None None None None None
    = (Returned (mkState Failed (MsgExc AssertionError) None None), events σ).
Proof.
  eexists.
  assert (Hbody :
    run_body pipeline_runner (mkState Pending NoMessage None None)
             (Some {[1%nat := One success_with_x]}) (Some [1%nat])
             (list_to_set [2%nat]) false all_succeed None []
             (run_context pipeline_runner all_succeed None ∅ ∅) empty_sched
    = (Raise AssertionError, _)) by (vm_compute; reflexivity).
  split; [exact Hbody|].
  refine (proj1 (proj2 (C2_exceptions_in_the_scheduling_body
            pipeline_runner all_succeed ∅ None
            (Some {[1%nat := One success_with_x]}) (Some [1%nat])
            (Some [2%nat]) false None None None None None _ _ _ _ Hbody))
            AssertionError eq_refl (or_introl _)).
  - by intros tag n ?%elem_of_nil.
  - intros t ->%list_elem_of_singleton. vm_compute. reflexivity.
  - reflexivity.
Defined.

(** C3: a budget of zero for the tag [db] is refused before anything is
    handed to the executor. *)
Lemma C3_witness :
  run pipeline_runner all_succeed ∅ None None None None false None None None
      None (Some [("db", 0%Z)])
  = (Raised (ValueError (throttle_message [("db", 0%Z)])), []).
Proof.
  apply (proj1 (C3_throttle_is_validated_first pipeline_runner all_succeed ∅
                 None None None None false None None None None
                 (Some [("db", 0%Z)]))).
  exists "db", 0%Z. split; [by left|lia].
Defined.

(** C4: the plain task [N] is submitted after a wait on the handle of the
    mapped task [M], and is handed the children that the wait returned. *)
Lemma C4_witness :
  ∃ σ',
    dispatch fan_out_runner one_fails ∅ [] ∅ ∅ 1%nat after_M = (Return (), σ') ∧
    ∃ n c waits,
      events σ' = events after_M ++ waits ++ [EvSubmit n c] ∧
      EvWait (Future 0) ∈ waits ∧
      call_upstream_states c !! edge_M_N = Some (Known children_of_M).
Proof.
  eexists.
  assert (Hd : dispatch fan_out_runner one_fails ∅ [] ∅ ∅ 1%nat after_M
               = (Return (), _)) by (vm_compute; reflexivity).
  split; [exact Hd|].
  destruct (C4_mapped_upstream_states_are_waited_for fan_out_runner one_fails
              ∅ [] ∅ ∅ 1%nat after_M () _ Hd)
    as (n & c & waits & _ & Hplain & _).
  assert (Hm : task_info_mapped (flow fan_out_runner) 1%nat = false)
    by (vm_compute; reflexivity).
  destruct (Hplain Hm) as (Hev & Hwaits & Hup).
  exists n, c, waits. split; [exact Hev|]. split.
  - apply Hwaits. exists edge_M_N. split; [by left|]. split; reflexivity.
  - rewrite (Hup edge_M_N); [reflexivity|by left].
Defined.

(** C6, as stated: [B] is dispatched although its upstream task [A] never
    is, when the run starts from [B]. *)
Lemma C6_counterexample :
  ¬ after_all_upstream pipeline
      (dispatch_order
         (run pipeline_runner all_succeed ∅ None
              (Some {[1%nat := One pending_with_x]}) (Some [1%nat])
              (Some [2%nat]) false None None None None None).2).
Proof.
  assert (Horder :
    dispatch_order
      (run pipeline_runner all_succeed ∅ None
           (Some {[1%nat := One pending_with_x]}) (Some [1%nat])
           (Some [2%nat]) false None None None None None).2
    = [1%nat; 2%nat]) by (vm_compute; reflexivity).
  rewrite Horder. intros H.
  destruct (H 0%nat 1%nat) as (i & j & Hj & _).
  - by left.
  - by left.
  - by destruct j as [|[|j]].
Qed.

(** C6, as amended: started from [B], the run dispatches [B] and then [C],
    each once, in the order of the sorted tasks. *)
Lemma C6_witness :
  ∃ st σ',
    get_flow_run_state pipeline_runner running
                       (Some {[1%nat := One pending_with_x]}) (Some [1%nat])
                       {[2%nat]} None all_succeed false None ∅ empty_sched
    = (Return st, σ') ∧
    ∃ evs,
      events σ' = evs ∧ dispatch_order evs = [1%nat; 2%nat] ∧
      before (dispatch_order evs) 1%nat 2%nat.
Proof.
  eexists _, _.
  assert (Hrun : get_flow_run_state pipeline_runner running
                   (Some {[1%nat := One pending_with_x]}) (Some [1%nat])
                   {[2%nat]} None all_succeed false None ∅ empty_sched
                 = (Return _, _)) by (vm_compute; reflexivity).
  split; [exact Hrun|].
  destruct (C6_dispatch_follows_the_sorted_tasks pipeline_runner running
              (Some {[1%nat := One pending_with_x]}) (Some [1%nat]) {[2%nat]}
              None all_succeed false None ∅ empty_sched _ _ Hrun)
    as (evs & Hev & _ & Hsorted & Hbefore).
  exists evs. split; [exact Hev|]. split.
  - refine (proj2 (Hsorted [1%nat; 2%nat] _) _ eq_refl).
    vm_compute. reflexivity.
  - apply Hbefore. vm_compute. by left.
Defined.

(** C7: a flow state that is finished already comes back from [run] as it
    is, and nothing is dispatched. *)
Lemma C7_witness :
  run pipeline_runner all_succeed ∅ (Some finished_before) None None None
      false None None None None None
  = (Returned finished_before, []).
Proof.
  refine (proj2 (proj2 (proj1 (C7_flow_level_transitions finished_before)
                          (or_introl eq_refl)))
            pipeline_runner all_succeed ∅ None None None false None None None
            None None _ _).
  - by intros tag n ?%elem_of_nil.
  - by intros t ?%elem_of_nil.
Defined.

(** C8: task 7 is not in the pipeline. *)
Lemma C8_witness :
  ∃ msg,
    run pipeline_runner all_succeed ∅ None None None (Some [7%nat]) false
        None None None None None
    = (Raised (ValueError msg), []) ∧
    msg = return_tasks_message.
Proof.
  destruct (proj1 (C8_return_tasks_are_validated pipeline_runner all_succeed
                     ∅ None None None (Some [7%nat]) false None None None
                     None None)) as (msg & Hrun & Hmsg).
  - exists 7%nat. split; [by left|]. vm_compute. intros H. discriminate H.
  - exists msg. split; [exact Hrun|]. apply Hmsg.
    by intros tag n ?%elem_of_nil.
Defined.

(** C9, as stated: [B] is a start task and its supplied state, a [Success],
    has cached inputs; [B] never runs. *)
Lemma C9_counterexample :
  ¬ runs_with_cached_inputs
      (run pipeline_runner all_succeed ∅ None
           (Some {[1%nat := One success_with_x]}) (Some [1%nat])
           (Some [2%nat]) false None None None None None).2
      1%nat success_with_x.
Proof.
  assert (Htrace :
    (run pipeline_runner all_succeed ∅ None
         (Some {[1%nat := One success_with_x]}) (Some [1%nat])
         (Some [2%nat]) false None None None None None).2 = [])
    by (vm_compute; reflexivity).
  rewrite Htrace. intros (c & Hc & _). by apply elem_of_nil in Hc.
Qed.

(** C10: dispatched first, [B] finds no state for [A] and is handed the
    [Failed] state in its place. *)
Lemma C10_witness :
  ∃ σ',
    dispatch pipeline_runner all_succeed ∅ [1%nat] ∅ ∅ 1%nat empty_sched
    = (Return (), σ') ∧
    ∃ c, c ∈ calls (events σ') ∧ call_task c = 1%nat ∧
         call_upstream_states c !! edge_A_B
         = Some (Known (One (mkState Failed (Msg "Task state not available.")
                                     None None))).
Proof.
  eexists.
  assert (Hd : dispatch pipeline_runner all_succeed ∅ [1%nat] ∅ ∅ 1%nat
                        empty_sched = (Return (), _))
    by (vm_compute; reflexivity).
  split; [exact Hd|].
  destruct (C10_missing_upstream_state_is_failed pipeline_runner all_succeed
              ∅ [1%nat] ∅ ∅ 1%nat empty_sched edge_A_B _ _
              ltac:(by left) eq_refl Hd)
    as (_ & _ & evs & Hev & Hup & Hcall).
  destruct (Hcall () eq_refl) as (c & Hc & Ht).
  exists c. simpl in Hev. rewrite Hev.
  split; [exact Hc|]. split; [exact Ht|]. exact (Hup c Hc).
Defined.

(** * Further properties of the runner *)

(** ** The sorted tasks, seen from the loop *)

Lemma topological_cons flow x xs :
  topological flow (x :: xs) →
  topological flow xs ∧ ∀ t, t ∈ x :: xs → t ∉ upstream_tasks flow x.
Proof.
  intros Htopo. split.
  - intros u v Huv i j Hi Hj.
    specialize (Htopo u v Huv (S i) (S j) Hi Hj). lia.
  - intros t [j Hj]%list_elem_of_lookup Hup.
    specialize (Htopo t x Hup 0%nat j eq_refl Hj). lia.
Qed.

Lemma topological_app_upstream flow finished task rest :
  NoDup (finished ++ task :: rest) →
  topological flow (finished ++ task :: rest) →
  (task ∉ finished) ∧ (task ∉ finished ≫= upstream_tasks flow) ∧
  (task ∉ upstream_tasks flow task).
Proof.
  intros Hnd Htopo.
  assert (Hat : (finished ++ task :: rest) !! length finished = Some task).
  { by rewrite list_lookup_middle. }
  split; [|split].
  - apply NoDup_app in Hnd as (_ & Hnd & _). intros Hin.
    apply (Hnd task Hin). by left.
  - intros (d & Hup & [i Hi]%list_elem_of_lookup)%list_elem_of_bind.
    pose proof (lookup_lt_Some _ _ _ Hi) as Hlt.
    specialize (Htopo task d Hup i (length finished)
                  (lookup_app_l_Some _ _ _ _ Hi) Hat). lia.
  - intros Hup. specialize (Htopo task task Hup _ _ Hat Hat). lia.
Qed.

Lemma handles_app evs1 evs2 : handles (evs1 ++ evs2) = handles evs1 ++ handles evs2.
Proof. apply omap_app. Qed.

Lemma handles_queues (throttle : Throttle) :
  handles (EvQueue ∘ snd <$> throttle) = [].
Proof. by induction throttle as [|? ? IH]. Qed.

Lemma handles_tasks evs : (handles evs).*1 = call_task <$> calls evs.
Proof.
  unfold handles, calls. induction evs as [|ev evs IH]; [done|].
  destruct ev; csimpl; rewrite ?fmap_cons, ?IH; done.
Qed.

Lemma handles_no_calls evs : calls evs = [] → handles evs = [].
Proof.
  intros H. apply (fmap_nil_inv (fst : Task * nat → Task)).
  by rewrite handles_tasks, H.
Qed.

Lemma handle_of_None evs t : t ∉ call_task <$> calls evs → handle_of evs t = None.
Proof.
  intros H. unfold handle_of. apply not_elem_of_list_to_map_1.
  by rewrite handles_tasks.
Qed.



Section LoopFacts.
  Variables (self : FlowRunner) (ex : Executor) (ctx : Context)
            (start_tasks : list Task) (tc : gmap Task Context)
            (queues : gmap string Queue).

Lemma handles_waits us : handles (waits_of self us) = [].
Proof. apply handles_no_calls, calls_waits. Qed.

Lemma handles_dispatch_events task n ts us inputs :
  handles (dispatch_events self ex ctx start_tasks tc queues task n ts us inputs)
  = [(task, n)].
Proof.
  unfold dispatch_events. destruct (task_info_mapped (flow self) task).
  - done.
  - by rewrite handles_app, handles_waits.
Qed.

Lemma lookup_after_dispatch task inputs σ t :
  t ≠ task → t ∉ upstream_tasks (flow self) task →
  task_states (after_dispatch self ex ctx start_tasks tc queues task inputs σ)
    !! t = task_states σ !! t.
Proof.
  intros Hne Hup. simpl. rewrite lookup_insert_ne by done.
  rewrite lookup_filled. by rewrite decide_False.
Qed.

Lemma seen_after_dispatch_eq task inputs σ :
  seen (task_states
          (after_dispatch self ex ctx start_tasks tc queues task inputs σ)) task
  = Future (issued σ).
Proof. unfold seen. simpl. by rewrite lookup_insert_eq. Qed.

Lemma seen_after_dispatch_ne task inputs σ u :
  u ≠ task →
  seen (task_states
          (after_dispatch self ex ctx start_tasks tc queues task inputs σ)) u
  = seen (task_states σ) u.
Proof.
  intros Hne. rewrite <- (seen_filled (task_states σ)
                           (upstream_tasks (flow self) task) u).
  unfold seen. simpl. by rewrite lookup_insert_ne.
Qed.

Lemma queued_sizes_app evs1 evs2 :
  queued_sizes (evs1 ++ evs2) = queued_sizes evs1 ++ queued_sizes evs2.
Proof. apply omap_app. Qed.

Lemma queued_sizes_dispatch_events task n ts us inputs :
  queued_sizes
    (dispatch_events self ex ctx start_tasks tc queues task n ts us inputs)
  = [].
Proof.
  unfold dispatch_events, waits_of.
  destruct (task_info_mapped (flow self) task); [done|].
  rewrite queued_sizes_app. simpl. rewrite app_nil_r.
  induction (filter _ (map_to_list us)) as [|? ? IH]; [done|]. done.
Qed.

(** The loop asks for no queue. *)
Lemma loop_no_queues σ order units σ' :
  iterated (dispatch self ex ctx start_tasks tc queues) σ order units σ' →
  ∀ evs, events σ' = events σ ++ evs → queued_sizes evs = [].
Proof.
  induction 1 as [σ|σ task un σ1 order units σ' Hd Hloop IH]; intros evs Hevs.
  - assert (evs = []) as ->; [|done].
    apply (app_inv_head (events σ)). by rewrite app_nil_r.
  - destruct (loop_events _ _ _ _ _ _ _ _ _ _ Hloop) as (evs1 & Hevs1 & _).
    specialize (IH evs1 Hevs1).
    apply dispatch_Return in Hd as (inputs & _ & ->).
    simpl in Hevs1. rewrite <- app_assoc in Hevs1.
    assert (evs = dispatch_events self ex ctx start_tasks tc queues task
                    (issued σ)
                    (filled (task_states σ) (upstream_tasks (flow self) task))
                    (upstream_of (task_states σ) ∅ (edges_to (flow self) task))
                    inputs ++ evs1) as ->.
    { apply (app_inv_head (events σ)). congruence. }
    by rewrite queued_sizes_app, queued_sizes_dispatch_events, IH.
Qed.

(** The entries that the loop leaves for the tasks it does not dispatch:
    those it looked up as upstream tasks hold what the lookup gave. *)
Lemma loop_final_states σ order units σ' :
  iterated (dispatch self ex ctx start_tasks tc queues) σ order units σ' →
  ∀ u, u ∉ order →
       task_states σ' !! u =
       filled (task_states σ) (order ≫= upstream_tasks (flow self)) !! u.
Proof.
  induction 1 as [σ|σ task un σ1 order units σ' Hd Hloop IH]; intros u Hu.
  - done.
  - apply not_elem_of_cons in Hu as [Hne Hu].
    apply dispatch_Return in Hd as (inputs & _ & ->).
    rewrite bind_cons, (IH u Hu).
    cbn [after_dispatch task_states]. rewrite !lookup_filled.
    unfold seen at 1. rewrite lookup_insert_ne by done.
    fold (seen (filled (task_states σ) (upstream_tasks (flow self) task)) u).
    rewrite seen_filled, lookup_filled.
    destruct (decide (u ∈ order ≫= upstream_tasks (flow self))) as [Hin|Hin].
    + rewrite decide_True; [done|]. apply elem_of_app. by right.
    + destruct (decide (u ∈ upstream_tasks (flow self) task)) as [Hin'|Hin'].
      * rewrite decide_True; [done|]. apply elem_of_app. by left.
      * rewrite decide_False; [done|]. by intros [?|?]%elem_of_app.
Qed.



(** What every call of the loop holds, in terms of the state in which the
    loop started and of the handles issued before the call. *)
Lemma loop_calls σ order units σ' :
  iterated (dispatch self ex ctx start_tasks tc queues) σ order units σ' →
  NoDup order → topological (flow self) order →
  ∀ evs, events σ' = events σ ++ evs →
  Forall (λ c,
    call_state c = task_states σ !! call_task c ∧
    call_ignore_trigger c = bool_decide (call_task c ∈ start_tasks) ∧
    call_context c = default ∅ (tc !! call_task c) ∪ ctx ∧
    call_queues c =
      omap (λ tag, queues !! tag)
           (sorted (task_tags (flow self) (call_task c))) ∧
    dom (call_upstream_states c)
      = list_to_set (edges_to (flow self) (call_task c)) ∧
    ∀ e, e ∈ edges_to (flow self) (call_task c) →
         call_upstream_states c !! e =
         Some (handed self ex (call_task c) e
                 (entry_of (task_states σ) evs (upstream_task e))))
    (calls evs).
Proof.
  induction 1 as [σ|σ task un σ1 order units σ' Hd Hloop IH];
    intros Hnd Htopo evs Hevs.
  - assert (evs = []) as ->; [|constructor].
    apply (app_inv_head (events σ)). by rewrite app_nil_r.
  - apply NoDup_cons in Hnd as [Hnin Hnd].
    apply topological_cons in Htopo as [Htopo Hup].
    destruct (loop_events _ _ _ _ _ _ _ _ _ _ Hloop) as (evs1 & Hevs1 & Hord).
    apply dispatch_Return in Hd as (inputs & Hh & ->).
    pose proof Hevs1 as Hevs1'.
    simpl in Hevs1. rewrite <- app_assoc in Hevs1.
    set (ts := filled (task_states σ) (upstream_tasks (flow self) task)) in *.
    set (us := upstream_of (task_states σ) ∅ (edges_to (flow self) task)) in *.
    assert (evs = dispatch_events self ex ctx start_tasks tc queues task
                    (issued σ) ts us inputs ++ evs1) as ->.
    { apply (app_inv_head (events σ)). congruence. }
    assert (Hself : task ∉ upstream_tasks (flow self) task).
    { apply Hup. by left. }
    rewrite calls_app, calls_dispatch_events. simpl. constructor.
    + simpl. split; [|split; [done|split; [done|split; [done|]]]].
      { unfold ts. rewrite lookup_filled. by rewrite decide_False. }
      assert (Hlook : ∀ e, e ∈ edges_to (flow self) task →
                (if task_info_mapped (flow self) task then us
                 else waited_of self ex us ∪ us) !! e =
                Some (handed self ex task e (seen (task_states σ) (upstream_task e)))).
      { intros e He. unfold handed.
        assert (Hus : us !! e = Some (seen (task_states σ) (upstream_task e))).
        { unfold us. rewrite lookup_upstream_of. by rewrite decide_True. }
        destruct (task_info_mapped (flow self) task); [done|].
        rewrite lookup_union. unfold waited_of.
        rewrite lookup_fmap, map_lookup_filter, Hus. simpl.
        destruct (task_info_mapped (flow self) (upstream_task e)) eqn:Hm.
        - rewrite option_guard_True by done. done.
        - rewrite option_guard_False by (simpl; congruence). done. }
      split.
      { apply set_eq. intros e. rewrite elem_of_dom, elem_of_list_to_set.
        split.
        - intros [f Hf].
          assert (Hin : is_Some (us !! e)).
          { destruct (task_info_mapped (flow self) task); [by eauto|].
            rewrite lookup_union in Hf. unfold waited_of in Hf.
            rewrite lookup_fmap, map_lookup_filter in Hf.
            destruct (us !! e); [by eauto|]. discriminate. }
          unfold us in Hin. rewrite lookup_upstream_of in Hin.
          case_decide; [done|]. rewrite lookup_empty in Hin.
          by destruct Hin.
        - intros He. rewrite (Hlook e He). eauto. }
      intros e He. rewrite (Hlook e He). do 2 f_equal.
      unfold entry_of. rewrite handle_of_None; [done|].
      rewrite calls_app, calls_dispatch_events, fmap_app, Hord. simpl.
      intros Hin. apply (Hup _ Hin). apply elem_of_upstream_tasks.
      apply list_elem_of_filter in He as [Hd He]. eauto.
    + specialize (IH Hnd Htopo evs1 Hevs1').
      rewrite Forall_forall in IH |- *. intros c Hc.
      assert (Hct : call_task c ∈ order).
      { rewrite <- Hord. by apply list_elem_of_fmap_2. }
      assert (Hne : call_task c ≠ task) by (intros Heq; by rewrite Heq in Hct).
      destruct (IH c Hc) as (Hst & Hig & Hcx & Hq & Hdom & Hentries).
      split; [|split; [done|split; [done|split; [done|split; [done|]]]]].
      { rewrite Hst. apply lookup_after_dispatch; [done|].
        apply Hup. by right. }
      intros e He. rewrite (Hentries e He). do 2 f_equal.
      unfold entry_of, handle_of.
      rewrite handles_app, handles_dispatch_events. cbn [app].
      rewrite list_to_map_cons.
      destruct (decide (upstream_task e = task)) as [->|Hneq].
      * rewrite lookup_insert_eq.
        rewrite not_elem_of_list_to_map_1.
        2: { rewrite handles_tasks, Hord. done. }
        apply seen_after_dispatch_eq.
      * rewrite lookup_insert_ne by done.
        destruct (_ !! upstream_task e); [done|].
        by apply seen_after_dispatch_ne.
Qed.
End LoopFacts.

(** ** The whole method, with the queues it made *)

Lemma make_queues_spec throttle : ∀ queues σ,
  make_queues throttle queues σ =
  (Return (queues_of throttle queues),
   mkSched (task_states σ) (issued σ)
           (events σ ++ (EvQueue ∘ snd <$> throttle))).
Proof.
  induction throttle as [|[tag size] throttle IH]; intros queues σ;
    cbn [make_queues].
  - rewrite mret_eq. simpl. rewrite app_nil_r. by destruct σ.
  - erewrite bind_Return by reflexivity.
    rewrite IH. simpl. by rewrite <- app_assoc.
Qed.

Lemma lookup_queues_of (throttle : Throttle) : ∀ queues tag,
  NoDup throttle.*1 →
  queues_of throttle queues !! tag =
  match (list_to_map throttle : gmap string Z) !! tag with
  | Some size => Some (queue_of size)
  | None => queues !! tag
  end.
Proof.
  induction throttle as [|[tag' size] throttle IH]; intros queues tag Hnd.
  - done.
  - rewrite fmap_cons in Hnd. apply NoDup_cons in Hnd as [Hnin Hnd].
    change (queues_of ((tag', size) :: throttle) queues)
      with (queues_of throttle (<[tag' := queue_of size]> queues)).
    rewrite IH by done. rewrite list_to_map_cons.
    destruct (decide (tag = tag')) as [->|Hne].
    + rewrite lookup_insert_eq.
      rewrite (not_elem_of_list_to_map_1 throttle tag') by done.
      by rewrite lookup_insert_eq.
    + rewrite !lookup_insert_ne by done. done.
Qed.

Section WholeWithQueues.
  Variables (self : FlowRunner) (state : FlowState)
            (supplied : option (gmap Task Final))
            (start_tasks : option (list Task)) (return_tasks : gset Task)
            (task_contexts : option (gmap Task Context)) (ex : Executor)
            (return_failed : bool) (throttle : option Throttle)
            (ctx : Context).

(** The loop of a run that got to it, with the queues of the throttle: it
    ran through a prefix of the sorted tasks, and what follows the loop
    dispatches nothing. *)
Lemma get_flow_run_state_loop σ o σ' order :
  is_running state = true →
  sorted_tasks (flow self) (default [] start_tasks) = Some order →
  get_flow_run_state self state supplied start_tasks return_tasks
                     task_contexts ex return_failed throttle ctx σ = (o, σ') →
  ∃ finished units σm tail,
    finished `prefix_of` order ∧
    iterated (dispatch self ex ctx (default [] start_tasks)
                       (default ∅ task_contexts)
                       (queues_of (default [] throttle) ∅))
             (at_start supplied throttle σ) finished units σm ∧
    events σ' = events σm ++ tail ∧
    (tail = [] ∨ ∃ waited, tail = [EvWaitAll waited]).
Proof.
  intros Hr Hs. unfold get_flow_run_state. rewrite Hr. simpl.
  erewrite bind_Return by reflexivity.
  erewrite bind_Return by apply make_queues_spec. rewrite Hs.
  cbn [task_states issued events]. fold (at_start supplied throttle σ).
  set (body := dispatch self ex ctx (default [] start_tasks)
                        (default ∅ task_contexts)
                        (queues_of (default [] throttle) ∅)).
  intros Hrun.
  destruct (for_each body order (at_start supplied throttle σ))
    as [[units|s|e] σ1] eqn:Hloop.
  - erewrite bind_Return in Hrun by exact Hloop.
    apply for_each_inv in Hloop
      as [(units' & [= <-] & Hit)|(? & ? & ? & ? & ? & _ & _ & Hfail)].
    2: { by destruct Hfail as [(? & _ & [=])|(? & _ & [=])]. }
    exists order, units, σ1.
    destruct (collect_results self ex return_failed return_tasks σ1)
      as [oc σc] eqn:Hc.
    pose proof (collect_results_eq self ex return_failed return_tasks σ1) as Hc'.
    rewrite Hc in Hc'.
    assert (∃ final_states rt' waited,
              oc = Return (final_states, rt') ∧
              events σc = events σ1 ++ [EvWaitAll waited])
      as (final_states & rt' & waited & -> & Hev).
    { destruct return_failed; injection Hc' as -> ->; simpl; eauto. }
    clear Hc'. erewrite bind_Return in Hrun by exact Hc.
    cbv beta iota in Hrun.
    exists [EvWaitAll waited]. split; [done|]. split; [done|].
    split; [|by eauto].
    destruct (getitems_spec final_states (elements (terminal_tasks (flow self))) σc)
      as [(terminal & Ht & _)|(t & Ht & _)].
    2: { erewrite bind_Raise in Hrun by done. by injection Hrun as <- <-. }
    erewrite bind_Return in Hrun by exact Ht.
    destruct (getitems_spec final_states (elements (reference_tasks (flow self))) σc)
      as [(reference & Hk & _)|(t & Hk & _)].
    2: { erewrite bind_Raise in Hrun by done. by injection Hrun as <- <-. }
    erewrite bind_Return in Hrun by exact Hk.
    destruct (getitems_spec final_states (elements rt') σc)
      as [(returned & Hret & _)|(t & Hret & _)].
    2: { erewrite bind_Raise in Hrun by done. by injection Hrun as <- <-. }
    erewrite bind_Return in Hrun by exact Hret.
    rewrite mret_eq in Hrun. by injection Hrun as <- <-.
  - erewrite bind_EndRun in Hrun by done. injection Hrun as <- <-.
    apply for_each_inv in Hloop
      as [(? & [=] & _)|(done & task & rest & units & σm & -> & Hit & Hfail)].
    destruct Hfail as [(? & Hd & _)|(? & _ & [=])].
    by apply dispatch_no_EndRun in Hd.
  - erewrite bind_Raise in Hrun by done. injection Hrun as <- <-.
    apply for_each_inv in Hloop
      as [(? & [=] & _)|(done & task & rest & units & σm & -> & Hit & Hfail)].
    destruct Hfail as [(? & _ & [=])|(e' & Hd & [= <-])].
    apply dispatch_Raise in Hd as (-> & Hh).
    exists done, units, σm, []. split; [by apply prefix_app_r|].
    split; [done|]. simpl. rewrite app_nil_r. by auto.
Qed.

(** What every call of [get_flow_run_state] holds, field by field. *)
Lemma get_flow_run_state_calls σ o σ' :
  get_flow_run_state self state supplied start_tasks return_tasks
                     task_contexts ex return_failed throttle ctx σ = (o, σ') →
  ∃ evs,
    events σ' = events σ ++ evs ∧
    NoDup (call_task <$> calls evs) ∧
    Forall (λ c,
      call_state c = Known <$> default ∅ supplied !! call_task c ∧
      call_ignore_trigger c
        = bool_decide (call_task c ∈ default [] start_tasks) ∧
      call_context c
        = default ∅ (default ∅ task_contexts !! call_task c) ∪ ctx ∧
      call_queues c =
        omap (λ tag, queues_of (default [] throttle) ∅ !! tag)
             (sorted (task_tags (flow self) (call_task c))) ∧
      harvested (default [] start_tasks) (Known <$> default ∅ supplied)
                (call_task c) (Return (call_inputs c)) ∧
      dom (call_upstream_states c)
        = list_to_set (edges_to (flow self) (call_task c)) ∧
      ∀ e, e ∈ edges_to (flow self) (call_task c) →
           call_upstream_states c !! e =
           Some (handed self ex (call_task c) e
                   (entry_of (Known <$> default ∅ supplied) evs
                             (upstream_task e))))
      (calls evs).
Proof.
  intros Hrun. destruct (is_running state) eqn:Hr.
  2: { rewrite get_flow_run_state_not_running in Hrun by done.
       injection Hrun as <- <-. exists []. rewrite app_nil_r.
       split; [done|]. split; constructor. }
  destruct (sorted_tasks (flow self) (default [] start_tasks))
    as [order|] eqn:Hs.
  2: { rewrite get_flow_run_state_cyclic in Hrun by done.
       injection Hrun as <- <-.
       exists (EvQueue ∘ snd <$> default [] throttle).
       split; [done|]. rewrite calls_queues. split; constructor. }
  eapply get_flow_run_state_loop in Hrun
    as (finished & units & σm & tail & Hpre & Hit & Hev & Htail'); [|done|done].
  assert (Htail : calls tail = []).
  { by destruct Htail' as [->|[? ->]]. }
  destruct (loop_events _ _ _ _ _ _ _ _ _ _ Hit) as (evs1 & Hev1 & Hord).
  pose proof (sorted_tasks_NoDup _ _ _ Hs) as Hnd.
  pose proof (sorted_tasks_topological _ _ _ Hs) as Htopo.
  pose proof (prefix_NoDup _ _ Hpre Hnd) as Hnd'.
  pose proof (prefix_before _ _ _ Hpre Htopo) as Htopo'.
  exists ((EvQueue ∘ snd <$> default [] throttle) ++ evs1 ++ tail). split.
  { rewrite Hev, Hev1. simpl. by rewrite <- !app_assoc. }
  rewrite !calls_app, calls_queues, Htail, app_nil_r. simpl.
  split; [by rewrite Hord|].
  pose proof (loop_calls _ _ _ _ _ _ _ _ _ _ Hit Hnd' Htopo' evs1 Hev1) as Hc.
  pose proof (loop_inputs _ _ _ _ _ _ _ _ _ _ Hit Hnd' evs1 Hev1) as Hin.
  rewrite Forall_forall in Hc, Hin |- *. intros c Hcin.
  destruct (Hc c Hcin) as (Hst & Hig & Hcx & Hq & Hdom & Hen).
  simpl in Hst. rewrite lookup_fmap in Hst.
  split; [done|]. split; [done|]. split; [done|]. split; [done|].
  split; [by apply Hin|]. split; [done|].
  intros e He. rewrite (Hen e He). do 2 f_equal.
  unfold entry_of, handle_of.
  by rewrite !handles_app, handles_queues, (handles_no_calls tail Htail),
             app_nil_r.
Qed.
(** The queues come first: the method asks for one queue per entry of the
    throttle, in order, and for none afterwards. *)
Lemma get_flow_run_state_queues σ o σ' :
  is_running state = true →
  get_flow_run_state self state supplied start_tasks return_tasks
                     task_contexts ex return_failed throttle ctx σ = (o, σ') →
  ∃ rest,
    events σ' = events σ ++ (EvQueue ∘ snd <$> default [] throttle) ++ rest ∧
    queued_sizes rest = [].
Proof.
  intros Hr Hrun.
  destruct (sorted_tasks (flow self) (default [] start_tasks))
    as [order|] eqn:Hs.
  2: { rewrite get_flow_run_state_cyclic in Hrun by done.
       injection Hrun as <- <-. exists []. by rewrite app_nil_r. }
  eapply get_flow_run_state_loop in Hrun
    as (finished & units & σm & tail & Hpre & Hit & Hev & Htail); [|done|done].
  destruct (loop_events _ _ _ _ _ _ _ _ _ _ Hit) as (evs1 & Hev1 & Hord).
  exists (evs1 ++ tail). split.
  { rewrite Hev, Hev1. simpl. by rewrite <- !app_assoc. }
  rewrite queued_sizes_app.
  rewrite (loop_no_queues _ _ _ _ _ _ _ _ _ _ Hit evs1 Hev1).
  by destruct Htail as [->|[? ->]].
Qed.
End WholeWithQueues.

(** ** From [run] to the method *)

Section BodyTrace.
  Variable self : FlowRunner.

(** The body of the [try] touches the executor only inside
    [get_flow_run_state]. *)
Lemma run_body_inv state supplied start_tasks return_tasks return_failed ex
    task_contexts throttle ctx σ o σ' :
  run_body self state supplied start_tasks return_tasks return_failed ex
           task_contexts throttle ctx σ = (o, σ') →
  (σ' = σ ∧ ∃ s, o = EndRun s) ∨
  (∃ st o',
    is_running st = true ∧
    get_flow_run_state self st supplied start_tasks return_tasks task_contexts
                       ex return_failed (Some throttle) ctx σ = (o', σ') ∧
    match o' with
    | Return s' =>
        ∃ s, o = Return s ∧ (s = s' ∨ s = handle_state_change self st s')
    | EndRun s' => ∃ s, o = EndRun s
    | Raise e => o = Raise e
    end) ∨
  (∃ st, is_running st = false ∧ σ' = σ ∧ o = EndRun st).
Proof.
  unfold run_body.
  destruct (call_state_handlers self check_flow_is_pending_or_running state σ)
    as [[st1|st1|e1] σ1] eqn:H1.
  - erewrite bind_Return by exact H1.
    apply call_state_handlers_Return in H1 as (n1 & H1 & _).
    rewrite check_flow_cases in H1.
    assert (σ1 = σ) as -> by (by injection H1).
    destruct (call_state_handlers self set_flow_to_running st1 σ)
      as [[st2|st2|e2] σ2] eqn:H2.
    + erewrite bind_Return by exact H2.
      apply call_state_handlers_Return in H2 as (n2 & H2 & _).
      rewrite set_flow_cases in H2.
      assert (σ2 = σ) as -> by (by injection H2).
      intros H3. right.
      destruct (is_running st2) eqn:Hr.
      * left. exists st2.
        destruct o as [s|s|e].
        -- apply call_state_handlers_Return in H3 as (n3 & H3 & ->).
           eexists. split; [done|]. split; [exact H3|].
           eexists. split; [done|]. case_decide; [by left|by right].
        -- apply call_state_handlers_EndRun in H3 as (n3 & H3 & ->).
           eexists. split; [done|]. split; [exact H3|]. by eexists.
        -- apply call_state_handlers_Raise in H3.
           eexists. split; [done|]. split; [exact H3|]. done.
      * right. exists st2. split; [done|].
        erewrite call_state_handlers_unchanged in H3.
        2: { by apply get_flow_run_state_not_running. }
        by injection H3 as <- <-.
    + erewrite bind_EndRun by exact H2.
      apply call_state_handlers_EndRun in H2 as (n2 & H2 & _).
      rewrite set_flow_cases in H2.
      assert (σ2 = σ) as -> by (by injection H2).
      intros [= <- <-]. left. eauto.
    + apply call_state_handlers_Raise in H2.
      rewrite set_flow_cases in H2.
      by destruct (is_pending st1), (is_running st1).
  - erewrite bind_EndRun by exact H1.
    apply call_state_handlers_EndRun in H1 as (n1 & H1 & _).
    rewrite check_flow_cases in H1.
    assert (σ1 = σ) as -> by (by injection H1).
    intros [= <- <-]. left. eauto.
  - apply call_state_handlers_Raise in H1. rewrite check_flow_cases in H1.
    by destruct (is_finished state || negb (is_pending state || is_running state)).
Qed.
End BodyTrace.

Section RunTrace.
  Variables (self : FlowRunner) (DEFAULT_EXECUTOR : Executor)
            (prefect_context : Context)
            (state : option FlowState)
            (task_states : option (gmap Task Final))
            (start_tasks : option (list Task))
            (return_tasks : option (list Task))
            (return_failed : bool)
            (parameters : option (gmap string PyValue))
            (executor : option Executor) (context : option Context)
            (task_contexts : option (gmap Task Context))
            (throttle : option Throttle).

(** The executor sees nothing of a run but what [get_flow_run_state] shows
    it, called on a running state with the arguments of [run], the throttle
    in force and the context of the run. *)
Lemma run_inv :
  let the_run :=
    run self DEFAULT_EXECUTOR prefect_context state task_states start_tasks
        return_tasks return_failed parameters executor context task_contexts
        throttle in
  the_run.2 = [] ∨
  ∃ st o σ',
    is_running st = true ∧
    get_flow_run_state self st task_states start_tasks
      (list_to_set (default [] return_tasks)) task_contexts
      (default DEFAULT_EXECUTOR executor) return_failed
      (Some (effective_throttle self throttle))
      (run_context self (default DEFAULT_EXECUTOR executor) parameters
                   (default ∅ context) prefect_context)
      empty_sched = (o, σ') ∧
    the_run.2 = events σ'.
Proof.
  intros the_run. unfold the_run, run.
  case_bool_decide; [by left|]. case_bool_decide; [by left|].
  destruct (run_body _ _ _ _ _ _ _ _ _ _ _) as [o σ'] eqn:Hbody.
  assert (Hev : ∀ (r : RunResult * list Event), r.2 = events σ' →
            r.2 = [] ∨ ∃ st o0 σ0,
              is_running st = true ∧
              get_flow_run_state self st task_states start_tasks
                (list_to_set (default [] return_tasks)) task_contexts
                (default DEFAULT_EXECUTOR executor) return_failed
                (Some (effective_throttle self throttle))
                (run_context self (default DEFAULT_EXECUTOR executor) parameters
                             (default ∅ context) prefect_context)
                empty_sched = (o0, σ0) ∧
              r.2 = events σ0).
  { intros r Hr.
    apply run_body_inv in Hbody
      as [(-> & _)|[(st & o' & Hrun & Hg & _)|(st & _ & -> & _)]].
    - by left.
    - right. by exists st, o', σ'.
    - by left. }
  destruct o as [s|s|e]; [by apply Hev|by apply Hev|].
  destruct (raise_on_exception _); by apply Hev.
Qed.
End RunTrace.

(** ** What the runner hands to the executor *)

Lemma handle_of_dispatch evs id c :
  NoDup (call_task <$> calls evs) →
  EvSubmit id c ∈ evs ∨ EvMap id c ∈ evs →
  handle_of evs (call_task c) = Some id.
Proof.
  intros Hnd Hin. unfold handle_of.
  apply elem_of_list_to_map_1; [by rewrite handles_tasks|].
  unfold handles. apply list_elem_of_omap.
  destruct Hin as [Hin|Hin]; eexists; (split; [exact Hin|done]).
Qed.

Lemma harvested_inputs start_tasks (supplied : gmap Task Final) t inputs :
  harvested start_tasks (Known <$> supplied) t (Return inputs) →
  if bool_decide (t ∈ start_tasks)
  then match supplied !! t with
       | Some (One s) => is_pending s = true ∧ cached_inputs s = Some inputs
       | _ => inputs = ∅
       end
  else inputs = ∅.
Proof.
  intros Hh.
  inversion Hh as [[Hn|Hn]|ch Hin Hl|s inputs' Hin Hl Hp Hci| | |]; subst;
    rewrite ?lookup_fmap in *.
  - by rewrite bool_decide_eq_false_2.
  - destruct (supplied !! t); [done|]. by case_bool_decide.
  - rewrite bool_decide_eq_true_2 by done.
    destruct (supplied !! t) as [[]|]; simplify_eq/=; done.
  - rewrite bool_decide_eq_true_2 by done.
    destruct (supplied !! t) as [[]|]; simplify_eq/=; done.
Qed.

Lemma lookup_run_context_task self ex parameters context pctx
    (task_context : Context) k :
  (task_context ∪ run_context self ex parameters context pctx) !! k =
  match task_context !! k with
  | Some v => Some v
  | None =>
      if decide (k = "_flow_name")
      then Some (CtxVal (PyStr (name (flow self))))
      else if decide (k = "_flow_version")
      then Some (CtxVal (PyStr (version (flow self))))
      else if decide (k = "_parameters") then Some (CtxParameters parameters)
      else if decide (k = "_executor_id")
      then Some (CtxVal (PyStr (executor_id ex)))
      else (context ∪ pctx) !! k
  end.
Proof.
  rewrite lookup_union. destruct (task_context !! k) as [v|] eqn:Hk.
  { by destruct (run_context _ _ _ _ _ !! k). }
  rewrite left_id by apply _.
  unfold run_context. rewrite lookup_union, !lookup_insert.
  repeat (case_decide; simplify_eq); try done;
    try by destruct (pctx !! _).
  by rewrite lookup_union.
Qed.

Section RunCalls.
  Variables (self : FlowRunner) (DEFAULT_EXECUTOR : Executor)
            (prefect_context : Context)
            (state : option FlowState)
            (task_states : option (gmap Task Final))
            (start_tasks : option (list Task))
            (return_tasks : option (list Task))
            (return_failed : bool)
            (parameters : option (gmap string PyValue))
            (executor : option Executor) (context : option Context)
            (task_contexts : option (gmap Task Context))
            (throttle : option Throttle).

Let trace : list Event :=
  (run self DEFAULT_EXECUTOR prefect_context state task_states start_tasks
       return_tasks return_failed parameters executor context task_contexts
       throttle).2.
Let supplied : gmap Task Final := default ∅ task_states.
Let start : list Task := default [] start_tasks.
Let in_force : Throttle := effective_throttle self throttle.
Let the_executor : Executor := default DEFAULT_EXECUTOR executor.

(** Every call that [run] makes, field by field. *)
Lemma run_calls :
  NoDup (call_task <$> calls trace) ∧
  Forall (λ c,
    call_state c = Known <$> supplied !! call_task c ∧
    call_ignore_trigger c = bool_decide (call_task c ∈ start) ∧
    call_context c
      = default ∅ (default ∅ task_contexts !! call_task c) ∪
        run_context self the_executor parameters (default ∅ context)
                    prefect_context ∧
    call_queues c =
      omap (λ tag, queues_of in_force ∅ !! tag)
           (sorted (task_tags (flow self) (call_task c))) ∧
    harvested start (Known <$> supplied) (call_task c)
              (Return (call_inputs c)) ∧
    dom (call_upstream_states c)
      = list_to_set (edges_to (flow self) (call_task c)) ∧
    ∀ e, e ∈ edges_to (flow self) (call_task c) →
         call_upstream_states c !! e =
         Some (handed self the_executor (call_task c) e
                 (entry_of (Known <$> supplied) trace (upstream_task e))))
    (calls trace).
Proof.
  unfold trace.
  destruct (run_inv self DEFAULT_EXECUTOR prefect_context state task_states
              start_tasks return_tasks return_failed parameters executor
              context task_contexts throttle)
    as [->|(st & o & σ' & _ & Hg & ->)].
  { split; constructor. }
  apply get_flow_run_state_calls in Hg as (evs & Hev & Hnd & Hc).
  simpl in Hev. rewrite Hev. done.
Qed.

(** Lines 323 and 339, [state=task_states.get(task)]: the task runner of
    every task that [run] dispatches is handed the state that the caller
    supplied for the task in [task_states], or [None] when there is none;
    never a handle, and never the default of the [defaultdict], since no
    lookup of an upstream task precedes the dispatch of that very task. *)
Theorem run_passes_the_supplied_state :
  Forall (λ c, call_state c = Known <$> supplied !! call_task c)
         (calls trace).
Proof.
  destruct run_calls as [_ H]. eapply Forall_impl; [exact H|].
  by intros c (? & _).
Qed.

(** Lines 305-311, 325 and 342: [ignore_trigger] is set for the tasks in
    [start_tasks] and for no other; the inputs of a call are the cached
    inputs of the single state supplied for a start task, and empty for
    every other task (one that is no start task, one without a supplied
    state, one supplied with a list of states). *)
Theorem run_sets_ignore_trigger_and_inputs :
  Forall (λ c,
    call_ignore_trigger c = bool_decide (call_task c ∈ start) ∧
    if bool_decide (call_task c ∈ start)
    then match supplied !! call_task c with
         | Some (One s) => cached_inputs s = Some (call_inputs c)
         | _ => call_inputs c = ∅
         end
    else call_inputs c = ∅)
    (calls trace).
Proof.
  destruct run_calls as [_ H]. eapply Forall_impl; [exact H|].
  intros c (_ & Hig & _ & _ & Hin & _). split; [done|].
  apply harvested_inputs in Hin. case_bool_decide; [|done].
  destruct (supplied !! call_task c) as [[s|]|]; [|done|done].
  by destruct Hin.
Qed.

(** Lines 143-150, 326 and 343: in the context of every call the task's own
    entry in [task_contexts] comes first; then the four keys that [run]
    sets, which the caller's [context] cannot override; then the caller's
    [context]; then the global context. *)
Theorem run_builds_the_task_context :
  Forall (λ c, ∀ k,
    call_context c !! k =
    match default ∅ (default ∅ task_contexts !! call_task c) !! k with
    | Some v => Some v
    | None =>
        if decide (k = "_flow_name")
        then Some (CtxVal (PyStr (name (flow self))))
        else if decide (k = "_flow_version")
        then Some (CtxVal (PyStr (version (flow self))))
        else if decide (k = "_parameters") then Some (CtxParameters parameters)
        else if decide (k = "_executor_id")
        then Some (CtxVal (PyStr (executor_id the_executor)))
        else (default ∅ context ∪ prefect_context) !! k
    end)
    (calls trace).
Proof.
  destruct run_calls as [_ H]. eapply Forall_impl; [exact H|].
  intros c (_ & _ & -> & _) k. apply lookup_run_context_task.
Qed.

(** Lines 289-294 and 315-317: with the throttle in force (a dictionary, so
    no tag twice), every call gets one queue for each of the task's tags
    that is throttled, in the order of the sorted tags, holding the tickets
    [0 .. size-1]; a task none of whose tags is throttled gets none. *)
Theorem run_gives_each_task_its_queues :
  NoDup in_force.*1 →
  Forall (λ c,
    call_queues c =
    omap (λ tag, queue_of <$> (list_to_map in_force : gmap string Z) !! tag)
         (sorted (task_tags (flow self) (call_task c))))
    (calls trace).
Proof.
  intros Hnd. destruct run_calls as [_ H]. eapply Forall_impl; [exact H|].
  intros c (_ & _ & _ & -> & _).
  induction (sorted (task_tags (flow self) (call_task c))) as [|tag l IH];
    [done|].
  cbn [omap list_omap]. rewrite lookup_queues_of by done.
  destruct (list_to_map in_force !! tag) eqn:Htag.
  - cbn. by rewrite <- IH.
  - rewrite lookup_empty. cbn. by rewrite <- IH.
Qed.

(** Lines 287-296: a run that gets to the executor first asks it for one
    queue per entry of the throttle in force, in the order of the entries
    and each of the size of its entry, and for no queue after that: every
    queue exists before the first task is dispatched. *)
Theorem run_makes_the_queues_first :
  trace = [] ∨
  ∃ rest, trace = (EvQueue ∘ snd <$> in_force) ++ rest ∧
          queued_sizes rest = [].
Proof.
  unfold trace.
  destruct (run_inv self DEFAULT_EXECUTOR prefect_context state task_states
              start_tasks return_tasks return_failed parameters executor
              context task_contexts throttle)
    as [->|(st & o & σ' & Hr & Hg & ->)]; [by left|].
  right. by apply get_flow_run_state_queues in Hg.
Qed.

(** Lines 302-303 and 319-346: the [upstream_states] of every call have
    exactly the edges into the task as keys.  For the edge [e] the call
    holds the handle that the dispatch of [e.upstream_task] returned, when
    the run dispatched that task; else the state supplied for it; else the
    [Failed] default.  A task that is not mapped gets the waited value of
    it instead when the upstream task is mapped.  [handle_of] is the handle
    of a task's one dispatch. *)
Theorem run_wires_the_upstream_states :
  (∀ id c, EvSubmit id c ∈ trace ∨ EvMap id c ∈ trace →
           handle_of trace (call_task c) = Some id) ∧
  Forall (λ c,
    dom (call_upstream_states c)
      = list_to_set (edges_to (flow self) (call_task c)) ∧
    ∀ e, e ∈ edges_to (flow self) (call_task c) →
         call_upstream_states c !! e =
         Some (handed self the_executor (call_task c) e
                 (entry_of (Known <$> supplied) trace (upstream_task e))))
    (calls trace).
Proof.
  destruct run_calls as [Hnd H]. split.
  - intros id c. by apply handle_of_dispatch.
  - eapply Forall_impl; [exact H|].
    by intros c (_ & _ & _ & _ & _ & ? & ?).
Qed.
End RunCalls.

(** ** How the method ends *)

Lemma terminal_not_upstream flow t v :
  t ∈ terminal_tasks flow → t ∉ upstream_tasks flow v.
Proof.
  intros [Hd _]%elem_of_filter (e & He & Hu & Hv)%elem_of_upstream_tasks.
  assert (Hin : v ∈ downstream_tasks flow t).
  { unfold downstream_tasks. apply list_elem_of_fmap. exists e.
    split; [done|]. by apply list_elem_of_filter. }
  rewrite Hd in Hin. by apply elem_of_nil in Hin.
Qed.

Lemma split_twice {A} (l1 l2 r1 r2 : list A) x y :
  l1 ++ x :: r1 = l2 ++ y :: r2 →
  (l1 = l2 ∧ x = y ∧ r1 = r2) ∨ x ∈ l2 ∨ y ∈ l1.
Proof.
  revert l2. induction l1 as [|a l1 IH]; intros [|b l2]; simpl.
  - intros [= -> ->]. by left.
  - intros [= -> _]. right. left. by left.
  - intros [= -> _]. right. right. by left.
  - intros [= -> [(-> & -> & ->)|[?|?]]%IH].
    + by left.
    + right. left. by right.
    + right. right. by right.
Qed.

Lemma harvested_ext start_tasks ts ts' task o :
  ts' !! task = ts !! task →
  harvested start_tasks ts task o → harvested start_tasks ts' task o.
Proof.
  intros Heq Hh. inversion Hh; subst; rewrite <- Heq in *.
  - by apply harvest_nothing.
  - by eapply harvest_sequence.
  - by eapply harvest_pending.
  - by eapply harvest_no_inputs.
  - by eapply harvest_not_pending.
  - by eapply harvest_handle.
Qed.

(** Lines 307-311 on the entry that the caller supplied. *)
Lemma harvested_supplied start_tasks (supplied : gmap Task Final) t o :
  harvested start_tasks (Known <$> supplied) t o →
  (t ∈ start_tasks ∧ ∃ e, o = Raise e ∧ refusal (supplied !! t) = Some e) ∨
  ((t ∈ start_tasks → refusal (supplied !! t) = None) ∧
   ∃ inputs, o = Return inputs).
Proof.
  intros Hh. unfold refusal.
  inversion Hh as [[Hn|Hn]|ch Hin Hl|s inputs Hin Hl Hp Hci|s Hin Hl Hp Hci
                   |s Hin Hl Hp|id Hin Hl]; subst;
    rewrite ?lookup_fmap in *;
    destruct (supplied !! t) as [[s'|ch']|]; simplify_eq/=;
    rewrite ?Hp, ?Hci; naive_solver.
Qed.

Section Outcomes.
  Variables (self : FlowRunner) (state : FlowState)
            (supplied : option (gmap Task Final))
            (start_tasks : option (list Task)) (return_tasks : gset Task)
            (task_contexts : option (gmap Task Context)) (ex : Executor)
            (return_failed : bool) (throttle : option Throttle)
            (ctx : Context).

(** The entry of a task when its turn comes in the loop is the supplied
    one. *)
Lemma entry_at_its_turn queues finished task rest units σ σm :
  NoDup (finished ++ task :: rest) →
  topological (flow self) (finished ++ task :: rest) →
  iterated (dispatch self ex ctx (default [] start_tasks)
                     (default ∅ task_contexts) queues)
           σ finished units σm →
  filled (task_states σm) (upstream_tasks (flow self) task) !! task
  = task_states σ !! task.
Proof.
  intros Hnd Htopo Hit.
  destruct (topological_app_upstream _ _ _ _ Hnd Htopo) as (Hf & Hu & Hs).
  rewrite lookup_filled, decide_False by done.
  rewrite (loop_final_states _ _ _ _ _ _ _ _ _ _ Hit task Hf).
  by rewrite lookup_filled, decide_False.
Qed.

(** How a run that got to the loop ends: the loop ran through, or it
    stopped at the first start task whose supplied entry lines 307-311
    refuse. *)
Lemma loop_outcome σ o σ' order :
  is_running state = true →
  sorted_tasks (flow self) (default [] start_tasks) = Some order →
  get_flow_run_state self state supplied start_tasks return_tasks
                     task_contexts ex return_failed throttle ctx σ = (o, σ') →
  ∃ evs,
    events σ' = events σ ++ evs ∧
    ((((∃ st, o = Return st) ∨ (∃ t, o = Raise (KeyError t))) ∧
      dispatch_order evs = order ∧
      ∀ u, u ∈ order → u ∈ default [] start_tasks →
           refusal (default ∅ supplied !! u) = None) ∨
     (∃ finished t rest e,
        order = finished ++ t :: rest ∧ dispatch_order evs = finished ∧
        t ∈ default [] start_tasks ∧
        refusal (default ∅ supplied !! t) = Some e ∧
        (∀ u, u ∈ finished → u ∈ default [] start_tasks →
              refusal (default ∅ supplied !! u) = None) ∧
        o = Raise e)).
Proof.
  intros Hr Hs Hrun.
  pose proof (sorted_tasks_NoDup _ _ _ Hs) as Hnd.
  pose proof (sorted_tasks_topological _ _ _ Hs) as Htopo.
  eapply get_flow_run_state_inv in Hrun
    as (queues & finished & units & σm & Hit & Hend); [|done|done].
  destruct (loop_events _ _ _ _ _ _ _ _ _ _ Hit) as (evs1 & Hev1 & Hord).
  assert (Hacc : NoDup finished →
            ∀ u, u ∈ finished → u ∈ default [] start_tasks →
                 refusal (default ∅ supplied !! u) = None).
  { intros Hnd' u Hu Hst.
    pose proof (loop_inputs _ _ _ _ _ _ _ _ _ _ Hit Hnd' evs1 Hev1) as Hh.
    rewrite Forall_forall in Hh.
    assert (u ∈ call_task <$> calls evs1) as (c & -> & Hc)%list_elem_of_fmap.
    { by rewrite Hord. }
    specialize (Hh c Hc). simpl in Hh.
    apply harvested_supplied in Hh as [(_ & e & [=] & _)|[Hh _]].
    by apply Hh. }
  destruct Hend as [(task & rest & e & -> & -> & -> & Hh)|
                    (-> & final_states & rt' & Hc & Hend)].
  - exists ((EvQueue ∘ snd <$> default [] throttle) ++ evs1).
    split.
    { simpl. rewrite Hev1. simpl. by rewrite <- app_assoc. }
    right.
    apply (harvested_ext _ _ (Known <$> default ∅ supplied)) in Hh.
    2: { exact (eq_sym (entry_at_its_turn _ _ _ _ _ _ _ Hnd Htopo Hit)). }
    apply harvested_supplied in Hh as [(Hst & e' & [= <-] & Href)|(_ & ? & [=])].
    exists finished, task, rest, e. split; [done|]. split.
    { by rewrite dispatch_order_calls, calls_app, calls_queues. }
    split; [done|]. split; [done|]. split; [|done].
    apply Hacc. by apply NoDup_app in Hnd as [? _].
  - rewrite collect_results_eq in Hc.
    assert (∃ waited, events σ' = events σm ++ [EvWaitAll waited])
      as (waited & Hev).
    { destruct return_failed; injection Hc as _ _ <-; simpl; eauto. }
    exists ((EvQueue ∘ snd <$> default [] throttle) ++ evs1
            ++ [EvWaitAll waited]).
    split.
    { rewrite Hev, Hev1. simpl. by rewrite <- !app_assoc. }
    left. split.
    { destruct Hend as [(t & -> & _)|(? & ? & ? & _ & _ & _ & ->)]; eauto. }
    split.
    { rewrite dispatch_order_calls, !calls_app, calls_queues. simpl.
      by rewrite app_nil_r. }
    by apply Hacc.
Qed.

Lemma no_key_error σ o σ' t :
  return_failed = false →
  get_flow_run_state self state supplied start_tasks return_tasks
                     task_contexts ex return_failed throttle ctx σ = (o, σ') →
  o ≠ Raise (KeyError t).
Proof.
  intros Hrf Hrun. destruct (is_running state) eqn:Hr.
  2: { rewrite get_flow_run_state_not_running in Hrun by done.
       by injection Hrun as <- <-. }
  destruct (sorted_tasks (flow self) (default [] start_tasks))
    as [order|] eqn:Hs.
  2: { rewrite get_flow_run_state_cyclic in Hrun by done.
       by injection Hrun as <- <-. }
  eapply get_flow_run_state_inv in Hrun
    as (queues & finished & units & σm & Hit & Hend); [|done|done].
  destruct Hend as [(task & rest & e & -> & -> & _ & Hh)|
                    (-> & final_states & rt' & Hc & Hend)].
  { intros [= ->]. inversion Hh. }
  destruct Hend as [(t' & -> & Hnone & Hin)|(? & ? & ? & _ & _ & _ & ->)];
    [|done].
  rewrite collect_results_eq, Hrf in Hc. injection Hc as <- <- _.
  rewrite lookup_fmap, lookup_selected_states in Hnone.
  unfold wanted_tasks in Hnone. by rewrite decide_True in Hnone.
Qed.

End Outcomes.

(** ** The cached inputs and the aggregation *)

Section Aggregation.
  Variables (self : FlowRunner) (state : FlowState)
            (supplied : option (gmap Task Final))
            (start_tasks : option (list Task)) (return_tasks : gset Task)
            (task_contexts : option (gmap Task Context)) (ex : Executor)
            (return_failed : bool) (throttle : option Throttle)
            (ctx : Context).

(** C9, as amended. For a task in [start_tasks] with an entry in the
    supplied [task_states]: every dispatch of the task hands over, as its
    inputs, the [cached_inputs] of the entry when that is a single state
    (which is then of the [Pending] class, with a dictionary for
    [cached_inputs]) and no inputs when it is a list of states.  The task is
    dispatched whenever the method returns a state, and whenever the flow
    state is running, the flow acyclic and lines 307-311 accept the entry of
    every start task; nothing is asked of its upstream tasks.  When lines
    307-311 refuse the entry (a single state that is not of the [Pending]
    class, or one of that class whose [cached_inputs] is [None]) the task is
    never dispatched, and the method, called on a running state for an
    acyclic flow, raises [AssertionError] or [TypeError]: the error of this
    entry when the entry of no other start task is refused. *)
Theorem C9_cached_inputs_of_a_pending_start_task σ o σ' t entry :
  t ∈ default [] start_tasks →
  default ∅ supplied !! t = Some entry →
  get_flow_run_state self state supplied start_tasks return_tasks
                     task_contexts ex return_failed throttle ctx σ = (o, σ') →
  ∃ evs,
    events σ' = events σ ++ evs ∧
    (∀ c, c ∈ calls evs → call_task c = t →
          match entry with
          | One s =>
              is_pending s = true ∧ cached_inputs s = Some (call_inputs c)
          | Many _ => call_inputs c = ∅
          end) ∧
    (∀ st, o = Return st → ∃ c, c ∈ calls evs ∧ call_task c = t) ∧
    (is_running state = true →
     sorted_tasks (flow self) (default [] start_tasks) ≠ None →
     (∀ u, u ∈ default [] start_tasks →
           refusal (default ∅ supplied !! u) = None) →
     ∃ c, c ∈ calls evs ∧ call_task c = t) ∧
    (∀ e, refusal (Some entry) = Some e →
          (∀ c, c ∈ calls evs → call_task c ≠ t) ∧
          (is_running state = true →
           sorted_tasks (flow self) (default [] start_tasks) ≠ None →
           (o = Raise AssertionError ∨ o = Raise TypeError) ∧
           ((∀ u, u ∈ default [] start_tasks → u ≠ t →
                  refusal (default ∅ supplied !! u) = None) →
            o = Raise e))).
Proof.
  intros Hstart Hsup Hrun.
  destruct (get_flow_run_state_calls _ _ _ _ _ _ _ _ _ _ _ _ _ Hrun)
    as (evs & Hev & _ & Hcalls).
  exists evs. split; [done|]. rewrite Forall_forall in Hcalls.
  assert (Hinputs : ∀ c, c ∈ calls evs → call_task c = t →
            match entry with
            | One s =>
                is_pending s = true ∧ cached_inputs s = Some (call_inputs c)
            | Many _ => call_inputs c = ∅
            end).
  { intros c Hc Ht. destruct (Hcalls c Hc) as (_ & _ & _ & _ & Hh & _).
    apply harvested_inputs in Hh.
    rewrite Ht, bool_decide_eq_true_2, Hsup in Hh by done.
    by destruct entry. }
  assert (Hnever : ∀ e, refusal (Some entry) = Some e →
            ∀ c, c ∈ calls evs → call_task c ≠ t).
  { intros e Href c Hc Ht. specialize (Hinputs c Hc Ht).
    unfold refusal in Href. destruct entry as [s|]; [|done].
    destruct Hinputs as [Hp Hci]. by rewrite Hp, Hci in Href. }
  split; [done|].
  assert (Hdisp : ∀ order, dispatch_order evs = order → t ∈ order →
            ∃ c, c ∈ calls evs ∧ call_task c = t).
  { intros order Hord Hin. rewrite <- Hord, dispatch_order_calls in Hin.
    apply list_elem_of_fmap in Hin as (c & -> & Hc). eauto. }
  destruct (is_running state) eqn:Hr.
  2: { rewrite get_flow_run_state_not_running in Hrun by done.
       injection Hrun as <- <-.
       split; [by intros ? [=]|]. split; [done|].
       intros e Href. split; [by eapply Hnever|done]. }
  destruct (sorted_tasks (flow self) (default [] start_tasks))
    as [order|] eqn:Hs.
  2: { rewrite get_flow_run_state_cyclic in Hrun by done.
       injection Hrun as <- <-.
       split; [by intros ? [=]|]. split; [done|].
       intros e Href. split; [by eapply Hnever|done]. }
  pose proof (sorted_tasks_roots _ _ _ _ Hs Hstart) as Hin.
  destruct (loop_outcome _ _ _ _ _ _ _ _ _ _ _ _ _ _ Hr Hs Hrun)
    as (evs' & Hev' & Hend).
  assert (evs' = evs) as ->.
  { apply (app_inv_head (events σ)). congruence. }
  destruct Hend as [(Ho & Hord & Hacc)|
                    (finished & t0 & rest & e0 & Horder & Hord & Hst0 & Href0
                     & Hbefore & ->)].
  - split; [intros; by eapply Hdisp|]. split; [intros; by eapply Hdisp|].
    intros e Href. rewrite <- Hsup, Hacc in Href by done. done.
  - split; [by intros ? [=]|]. split.
    { intros _ _ Hall. rewrite Hall in Href0 by done. done. }
    intros e Href. split; [by eapply Hnever|]. intros _ _. split.
    + unfold refusal in Href0. repeat case_match; simplify_eq; auto.
    + intros Hothers. destruct (decide (t0 = t)) as [->|Hne].
      * rewrite Hsup in Href0. congruence.
      * rewrite Hothers in Href0 by done. done.
Qed.

End Aggregation.

Section OutcomesOfTheLoop.
  Variables (self : FlowRunner) (state : FlowState)
            (supplied : option (gmap Task Final))
            (start_tasks : option (list Task)) (return_tasks : gset Task)
            (task_contexts : option (gmap Task Context)) (ex : Executor)
            (return_failed : bool) (throttle : option Throttle)
            (ctx : Context).

(** Lines 366-373 against 358: without [return_failed] the aggregation
    reads [task_states] through the [defaultdict], so the reads of lines
    375-379 find every key: [get_flow_run_state] raises no [KeyError], and
    the result of the state it returns has an entry for every task in
    [return_tasks] and for no other. *)
Theorem no_key_error_without_return_failed σ :
  let outcome :=
    (get_flow_run_state self state supplied start_tasks return_tasks
                        task_contexts ex false throttle ctx σ).1 in
  (∀ t, outcome ≠ Raise (KeyError t)) ∧
  (∀ st, outcome = Return st →
         ∀ t, is_Some (result st ≫= (.!! t)) ↔ t ∈ return_tasks).
Proof.
  intros outcome. unfold outcome. clear outcome.
  destruct (get_flow_run_state self state supplied start_tasks return_tasks
              task_contexts ex false throttle ctx σ) as [o σ'] eqn:Hrun.
  simpl. split.
  - intros t. by eapply (no_key_error _ _ _ _ _ _ _ false).
  - intros st ->.
    apply get_flow_run_state_trace in Hrun
      as [(_ & ? & [=])|[(_ & _ & ? & [=])|
          (order & queues & finished & units & σm & tail & Hs & Hpre & Hit &
           Hev & Htail & _ & Hret)]].
    destruct (Hret st eq_refl) as (-> & final_states & rt' & Hc & Hres).
    rewrite collect_results_eq in Hc. injection Hc as <- <- _.
    intros t. rewrite Hres. case_decide as Hin.
    + split; [done|]. intros _.
      rewrite lookup_fmap, lookup_selected_states.
      unfold wanted_tasks. rewrite decide_True; [by eexists|].
      by apply elem_of_union; right.
    + split; [by intros [? ?]|done].
Qed.

(** Lines 307-311: for a running state and an acyclic flow, the method
    raises [AssertionError], or [TypeError], exactly when the first of the
    sorted tasks that is a start task with a supplied entry that lines
    307-311 refuse has an entry that they refuse with that error:
    [AssertionError] for a single state that is not of the [Pending] class,
    [TypeError] for a state of that class whose [cached_inputs] is
    [None]. *)
Theorem the_first_refused_start_task_ends_the_loop σ order e :
  is_running state = true →
  sorted_tasks (flow self) (default [] start_tasks) = Some order →
  e = AssertionError ∨ e = TypeError →
  (get_flow_run_state self state supplied start_tasks return_tasks
                     task_contexts ex return_failed throttle ctx σ).1
    = Raise e ↔
  ∃ finished t rest,
    order = finished ++ t :: rest ∧ t ∈ default [] start_tasks ∧
    refusal (default ∅ supplied !! t) = Some e ∧
    ∀ u, u ∈ finished → u ∈ default [] start_tasks →
         refusal (default ∅ supplied !! u) = None.
Proof.
  intros Hr Hs He.
  destruct (get_flow_run_state self state supplied start_tasks return_tasks
                     task_contexts ex return_failed throttle ctx σ)
    as [o σ'] eqn:Hrun.
  simpl.
  destruct (loop_outcome _ _ _ _ _ _ _ _ _ _ _ _ _ _ Hr Hs Hrun)
    as (evs & Hev & [(Ho & Hord & Hacc)|
                     (finished & t & rest & e0 & Horder & _ & Hst & Href
                      & Hbefore & ->)]).
  - split.
    + intros ->. destruct Ho as [[? [=]]|[? [= ->]]]. by destruct He.
    + intros (fin & t & rest & -> & Hst & Href & _).
      rewrite Hacc in Href; [done| |done]. apply elem_of_app. right. by left.
  - split.
    + intros [= <-]. by exists finished, t, rest.
    + intros (fin' & t' & rest' & Horder' & Hst' & Href' & Hbefore').
      rewrite Horder in Horder'.
      apply split_twice in Horder' as [(-> & -> & ->)|[Hin|Hin]].
      * congruence.
      * rewrite Hbefore' in Href by done. done.
      * rewrite Hbefore in Href' by done. done.
Qed.

(** Lines 296-410: for a running state, an acyclic flow and supplied states
    that lines 307-311 accept (for every start task no state, a list, or a
    single state of the [Pending] class whose [cached_inputs] is a
    dictionary), [get_flow_run_state] without [return_failed] returns a
    state, having dispatched every task of
    [Flow.sorted_tasks(start_tasks)], each once and in that order.  (The
    executor's own calls do not raise.) *)
Theorem the_method_returns_a_state σ order :
  is_running state = true →
  sorted_tasks (flow self) (default [] start_tasks) = Some order →
  (∀ t, t ∈ default [] start_tasks → accepted (default ∅ supplied !! t)) →
  ∃ st σ' evs,
    get_flow_run_state self state supplied start_tasks return_tasks
                       task_contexts ex false throttle ctx σ = (Return st, σ') ∧
    events σ' = events σ ++ evs ∧
    dispatch_order evs = order.
Proof.
  intros Hr Hs Hacc.
  destruct (get_flow_run_state self state supplied start_tasks return_tasks
              task_contexts ex false throttle ctx σ) as [o σ'] eqn:Hrun.
  assert (Ho : ∃ st, o = Return st).
  { destruct (loop_outcome _ _ _ _ _ _ _ _ _ _ _ _ _ _ Hr Hs Hrun)
      as (evs & _ & [([Ho|[t ->]] & _)|
                     (finished & t & rest & e & _ & _ & Hst & Href & _)]).
    - done.
    - exfalso. by eapply (no_key_error _ _ _ _ _ _ _ false).
    - specialize (Hacc t Hst). unfold accepted in Hacc. congruence. }
  destruct Ho as [st ->]. exists st, σ'.
  apply get_flow_run_state_trace in Hrun
    as [(_ & ? & [=])|[(_ & _ & ? & [=])|
        (order' & queues & finished & units & σm & tail & Hs' & Hpre & Hit &
         Hev & Htail & _ & Hret)]].
  destruct (Hret st eq_refl) as (-> & _).
  rewrite Hs in Hs'. injection Hs' as <-.
  destruct (loop_events _ _ _ _ _ _ _ _ _ _ Hit) as (evs1 & Hev1 & Hord).
  exists ((EvQueue ∘ snd <$> default [] throttle) ++ evs1 ++ tail).
  split; [done|]. split.
  { rewrite Hev, Hev1. simpl. by rewrite <- !app_assoc. }
  by rewrite dispatch_order_calls, !calls_app, calls_queues, Htail, app_nil_r.
Qed.

(** Lines 302-303 and 357-364: under [return_failed], a task that the run
    does not dispatch and for which no state was supplied, but which is
    upstream of a dispatched task, is in the result of the returned state,
    with the [Failed] default of the [defaultdict] that the lookup of line
    303 stored for it. *)
Theorem return_failed_reports_the_defaulted_upstream σ st σ' order u v :
  get_flow_run_state self state supplied start_tasks return_tasks
                     task_contexts ex true throttle ctx σ = (Return st, σ') →
  sorted_tasks (flow self) (default [] start_tasks) = Some order →
  v ∈ order → u ∈ upstream_tasks (flow self) v → u ∉ order →
  default ∅ supplied !! u = None →
  result st ≫= (.!! u) = Some state_not_available.
Proof.
  intros Hrun Hs Hv Hu Hnot Hsup.
  apply get_flow_run_state_trace in Hrun
    as [(_ & ? & [=])|[(_ & _ & ? & [=])|
        (order' & queues & finished & units & σm & tail & Hs' & Hpre & Hit &
         Hev & Htail & _ & Hret)]].
  destruct (Hret st eq_refl) as (-> & final_states & rt' & Hc & Hres).
  rewrite Hs in Hs'. injection Hs' as <-.
  rewrite collect_results_eq in Hc. injection Hc as <- <- _.
  assert (Hm : task_states σm !! u = Some (Known state_not_available)).
  { rewrite (loop_final_states _ _ _ _ _ _ _ _ _ _ Hit u Hnot).
    rewrite lookup_filled, decide_True.
    - unfold seen. simpl. by rewrite lookup_fmap, Hsup.
    - apply list_elem_of_bind. eauto. }
  rewrite Hres, decide_True.
  - by rewrite lookup_fmap, Hm.
  - apply elem_of_union. right. apply elem_of_failed_tasks.
    exists state_not_available. split; [|done]. by rewrite lookup_fmap, Hm.
Qed.

(** Lines 358 and 375-379: under [return_failed] the aggregation reads a
    plain copy of [task_states]; a terminal task that the run does not
    dispatch and for which no state was supplied has no entry in it, and
    the method returns no state: it ends in an exception, which is the
    [KeyError] of the reads of lines 376-379 when lines 307-311 accept the
    supplied entry of every start task. *)
Theorem return_failed_misses_the_unreached_terminal_task σ order t :
  is_running state = true →
  sorted_tasks (flow self) (default [] start_tasks) = Some order →
  t ∈ terminal_tasks (flow self) → t ∉ order →
  default ∅ supplied !! t = None →
  let outcome :=
    (get_flow_run_state self state supplied start_tasks return_tasks
                        task_contexts ex true throttle ctx σ).1 in
  (∃ e, outcome = Raise e) ∧
  ((∀ u, u ∈ default [] start_tasks → accepted (default ∅ supplied !! u)) →
   ∃ t', outcome = Raise (KeyError t')).
Proof.
  intros Hr Hs Ht Hnot Hsup outcome. unfold outcome. clear outcome.
  destruct (get_flow_run_state self state supplied start_tasks return_tasks
              task_contexts ex true throttle ctx σ) as [o σ'] eqn:Hrun.
  simpl.
  assert (Hno : ∀ st, o ≠ Return st).
  { intros st ->.
    eapply get_flow_run_state_inv in Hrun
      as (queues & finished & units & σm & Hit & Hend); [|done|done].
    destruct Hend as [(? & ? & ? & _ & [=] & _)|
                      (-> & final_states & rt' & Hc & Hend)].
    destruct Hend as [(t' & [=] & _)|(terminal & ? & ? & Hread & _)].
    apply getitems_read in Hread as [Hk Hd].
    assert (∃ f, (t, f) ∈ terminal) as [f Hin].
    { assert (t ∈ terminal.*1) as ([t' f] & Heq & Hin)%list_elem_of_fmap.
      { rewrite Hk. by apply elem_of_elements. }
      simpl in Heq. subst t'. eauto. }
    apply Hd in Hin.
    rewrite collect_results_eq in Hc. injection Hc as <- _ _.
    rewrite lookup_fmap in Hin.
    rewrite (loop_final_states _ _ _ _ _ _ _ _ _ _ Hit _ Hnot) in Hin.
    rewrite lookup_filled, decide_False in Hin.
    - simpl in Hin. by rewrite lookup_fmap, Hsup in Hin.
    - intros (d & Hup & _)%list_elem_of_bind.
      by eapply terminal_not_upstream. }
  destruct (loop_outcome _ _ _ _ _ _ _ _ _ _ _ _ _ _ Hr Hs Hrun)
    as (evs & _ & [([[st ->]|[t' ->]] & _)|
                   (finished & t0 & rest & e & _ & _ & Hst & Href & _ & ->)]).
  - by destruct (Hno st).
  - split; eauto.
  - split; [by eauto|]. intros Hacc. specialize (Hacc t0 Hst).
    unfold accepted in Hacc. congruence.
Qed.
End OutcomesOfTheLoop.

(** ** How [run] ends *)

Section RunOutcome.
  Variables (self : FlowRunner) (DEFAULT_EXECUTOR : Executor)
            (prefect_context : Context)
            (state : option FlowState)
            (task_states : option (gmap Task Final))
            (start_tasks : option (list Task))
            (return_tasks : option (list Task))
            (return_failed : bool)
            (parameters : option (gmap string PyValue))
            (executor : option Executor) (context : option Context)
            (task_contexts : option (gmap Task Context))
            (throttle : option Throttle).

Let outcome : RunResult :=
  (run self DEFAULT_EXECUTOR prefect_context state task_states start_tasks
       return_tasks return_failed parameters executor context task_contexts
       throttle).1.
Let in_force : Throttle := effective_throttle self throttle.
Let run_ctx : Context :=
  run_context self (default DEFAULT_EXECUTOR executor) parameters
              (default ∅ context) prefect_context.

(** Lines 130-141 and 168-178: with both checks passed and
    [_raise_on_exception] not set in the context, [run] returns a state,
    whatever happens in the body of its [try]; and whenever [run] raises,
    it raises one of the two [ValueError]s of its own checks, or the flag is
    set. *)
Theorem run_raises_only_on_request :
  (throttle_valid in_force → return_tasks_known self return_tasks →
   raise_on_exception run_ctx = false → ∃ s, outcome = Returned s) ∧
  (∀ e, outcome = Raised e →
        e = ValueError (throttle_message in_force) ∨
        e = ValueError return_tasks_message ∨
        raise_on_exception run_ctx = true).
Proof.
  unfold outcome, in_force, run_ctx. split.
  - intros Ht Hk Hflag. rewrite run_preflight_passed by done.
    rewrite Hflag. destruct (run_body _ _ _ _ _ _ _ _ _ _ _) as [[s|s|e] σ];
      simpl; eauto.
  - intros e.
    destruct (throttle_valid_dec' self throttle) as [Ht|Ht].
    2: { rewrite run_throttle_invalid by done. intros [= <-]. by left. }
    destruct (return_tasks_known_dec' self return_tasks) as [Hk|Hk].
    2: { rewrite run_return_tasks_unknown by done. intros [= <-].
         right. by left. }
    rewrite run_preflight_passed by done.
    destruct (run_body _ _ _ _ _ _ _ _ _ _ _) as [[s|s|e'] σ] eqn:Hbody;
      simpl; [done|done|].
    destruct (raise_on_exception _) eqn:Hflag; simpl; [|done].
    intros [= <-]. right. by right.
Qed.
End RunOutcome.

Lemma pending_not_finished {R} (st : State R) :
  is_pending st = true → is_finished st = false ∧ is_running st = false.
Proof. unfold is_pending, is_finished, is_running. by destruct (kind st). Qed.

(** Lines 154-170, 208-228 and 273-275: when the state handlers answer the
    change from the pending state to [Running] with a state that is not
    running, [set_flow_to_running] returns that state under its decorator,
    [get_flow_run_state] raises [ENDRUN] with it at line 275, and [run]
    returns it, having handed nothing to the executor. *)
Theorem a_state_handler_can_end_the_run
    self DEFAULT_EXECUTOR prefect_context (st : FlowState) task_states
    start_tasks return_tasks return_failed parameters executor context
    task_contexts throttle :
  throttle_valid (effective_throttle self throttle) →
  return_tasks_known self return_tasks →
  is_pending st = true →
  let started :=
    handle_state_change self st
      (mkState Running (Msg "Running flow.") None None) in
  is_running started = false →
  run self DEFAULT_EXECUTOR prefect_context (Some st) task_states start_tasks
      return_tasks return_failed parameters executor context task_contexts
      throttle
  = (Returned started, []).
Proof.
  intros Ht Hk Hp started Hs.
  destruct (pending_not_finished st Hp) as [Hf Hr].
  rewrite run_preflight_passed by done. simpl.
  unfold run_body.
  erewrite bind_Return.
  2: { unfold call_state_handlers. rewrite check_flow_cases, Hf, Hp. simpl.
       rewrite decide_True by done. reflexivity. }
  erewrite bind_Return.
  2: { unfold call_state_handlers. rewrite set_flow_cases, Hp.
       rewrite decide_False; [reflexivity|].
       intros <-. discriminate. }
  fold started.
  erewrite call_state_handlers_unchanged.
  2: { by apply get_flow_run_state_not_running. }
  done.
Qed.

(** * Properties of prefect.orion.utilities.database *)

Lemma lower_char_not_upper c : is_upper (lower_char c) = false.
Proof. by destruct c as [[] [] [] [] [] [] [] []]. Qed.

Lemma upper_lower_char c : is_upper c = true → upper_char (lower_char c) = c.
Proof. by destruct c as [[] [] [] [] [] [] [] []]. Qed.

Lemma lower_char_no_underscore c :
  is_upper c = true → Ascii.eqb (lower_char c) underscore = false.
Proof. by destruct c as [[] [] [] [] [] [] [] []]. Qed.

Lemma lower_char_id c : is_upper c = false → lower_char c = c.
Proof. unfold lower_char. by intros ->. Qed.

Lemma tablename_from b s :
  string_forall (λ c, negb (is_upper c)) (lower (sub_from b s)) = true ∧
  String.length (lower (sub_from b s)) =
  (String.length s +
   string_count is_upper
     (if b then match s with EmptyString => s | String _ rest => rest end
      else s))%nat.
Proof.
  revert b. induction s as [|c s IH]; intros b; [by destruct b|].
  destruct (IH false) as [IHf IHl]. cbn [sub_from].
  destruct b, (is_upper c) eqn:Hc; cbn [negb andb lower string_forall
    String.length string_count]; rewrite ?lower_char_not_upper, ?IHf, ?IHl, ?Hc;
    (split; [done|]); cbn; try lia.
  all: destruct s; cbn in *; lia.
Qed.

(** Lines 14 and 141-148: the table name of a class with an ASCII name has
    no upper-case letter, and it is longer than the class name by one
    underscore for every upper-case letter after the first character. *)
Theorem tablename_is_snake_case cls_name :
  string_forall is_ascii cls_name = true →
  string_forall (λ c, negb (is_upper c)) (tablename cls_name) = true ∧
  String.length (tablename cls_name) =
  (String.length cls_name +
   string_count is_upper
     (match cls_name with EmptyString => cls_name | String _ rest => rest end))%nat.
Proof. intros _. apply (tablename_from true). Qed.

Lemma snake_to_camel_from s :
  string_forall (λ c, (Ascii.nat_of_ascii c <? 128)%nat
                      && negb (Ascii.eqb c underscore)) s = true →
  snake_to_camel false (lower (sub_from false s)) = s.
Proof.
  induction s as [|c s IH]; [done|]. cbn [string_forall].
  intros [[_ Hu]%andb_prop Hs]%andb_prop. apply negb_true_iff in Hu.
  cbn [sub_from negb andb]. destruct (is_upper c) eqn:Hc.
  - cbn [lower snake_to_camel].
    replace (lower_char underscore) with underscore by done.
    replace (Ascii.eqb underscore underscore) with true by done.
    rewrite lower_char_no_underscore, upper_lower_char by done.
    by rewrite IH.
  - cbn [lower snake_to_camel]. rewrite lower_char_id, Hu by done.
    by rewrite IH.
Qed.

Lemma snake_to_camel_tablename cls_name :
  cap_words cls_name → snake_to_camel true (tablename cls_name) = cls_name.
Proof.
  destruct cls_name as [|c s]; [done|]. intros [Hc Hall].
  cbn [string_forall] in Hall. apply andb_prop in Hall as [_ Hs].
  unfold tablename, camel_to_snake_sub. cbn [sub_from negb andb lower].
  cbn [snake_to_camel].
  rewrite lower_char_no_underscore, upper_lower_char by done.
  by rewrite snake_to_camel_from.
Qed.

(** Lines 14 and 141-148: two classes named in the CapWords style get the
    same table name only when they have the same name. *)
Theorem tablename_tells_cap_words_apart cls_name1 cls_name2 :
  cap_words cls_name1 → cap_words cls_name2 →
  tablename cls_name1 = tablename cls_name2 → cls_name1 = cls_name2.
Proof.
  intros H1 H2 Heq.
  rewrite <- (snake_to_camel_tablename cls_name1 H1).
  rewrite <- (snake_to_camel_tablename cls_name2 H2).
  by rewrite Heq.
Qed.

Lemma hex_digit_lower d : is_lower_hex (hex_digit d) = true.
Proof.
  unfold hex_digit. generalize (N.to_nat d) as k. intros k.
  do 16 (destruct k as [|k]; [reflexivity|]). by destruct k.
Qed.

Lemma hex_digit_no_hyphen d : Ascii.eqb (hex_digit d) hyphen = false.
Proof.
  unfold hex_digit. generalize (N.to_nat d) as k. intros k.
  do 16 (destruct k as [|k]; [reflexivity|]). by destruct k.
Qed.

Lemma hex_width_length width n : String.length (hex_width width n) = width.
Proof. induction width as [|w IH]; [done|]. cbn. by rewrite IH. Qed.

Lemma hex_width_lower width n :
  string_forall is_lower_hex (hex_width width n) = true.
Proof.
  induction width as [|w IH]; [done|].
  cbn [hex_width string_forall]. by rewrite hex_digit_lower, IH.
Qed.

Lemma format_032x_uuid int :
  (int < 2 ^ 128)%N → format_032x int = hex_width 32 int.
Proof.
  intros Hlt. unfold format_032x. f_equal. apply Nat.max_l.
  unfold hex_len. destruct (N.eqb_spec int 0) as [->|Hne]; [lia|].
  assert (N.log2 int < 128)%N.
  { apply N.log2_lt_pow2; lia. }
  assert (N.log2 int / 4 < 32)%N.
  { apply N.Div0.div_lt_upper_bound; lia. }
  lia.
Qed.

Lemma without_hyphens_app a b :
  without_hyphens (a +:+ b) = without_hyphens a +:+ without_hyphens b.
Proof.
  induction a as [|c a IH]; [done|]. cbn [String.append without_hyphens].
  change (String c a +:+ b) with (String c (a +:+ b)).
  cbn [without_hyphens]. rewrite IH. by destruct (Ascii.eqb c hyphen).
Qed.

Lemma without_hyphens_str_of_uuid int :
  (int < 2 ^ 128)%N →
  without_hyphens (str_of_uuid int) = hex_width 32 int ∧
  String.length (str_of_uuid int) = 36%nat.
Proof.
  intros Hlt. unfold str_of_uuid. rewrite format_032x_uuid by done.
  rewrite hex_width_length.
  cbn [hex_width String.substring String.length Nat.sub].
  split; [|done].
  rewrite !without_hyphens_app.
  change (without_hyphens "-") with "".
  cbn [without_hyphens]. by rewrite !hex_digit_no_hyphen.
Qed.

(** Lines 79-103: for a dialect other than PostgreSQL, a [uuid.UUID] is
    bound as its 32 hexadecimal digits in lower case, which fill the
    [CHAR(32)] that [load_dialect_impl] declares; for PostgreSQL it is bound
    as [str(value)], which is also what [process_result_value] makes of it:
    those 32 digits with four hyphens between them. *)
Theorem uuid_is_bound_as_32_hex_digits
    (uuid_UUID : string → option N) int dialect :
  (int < 2 ^ 128)%N → dialect_name dialect ≠ "postgresql" →
  ∃ bound,
    process_bind_param uuid_UUID (DbUUID int) dialect = Some (Some bound) ∧
    load_dialect_impl dialect = CHAR (String.length bound) ∧
    String.length bound = 32%nat ∧
    string_forall is_lower_hex bound = true ∧
    process_bind_param uuid_UUID (DbUUID int) (mkDialect "postgresql")
      = Some (Some (str_of_uuid int)) ∧
    process_result_value uuid_UUID (DbUUID int) dialect
      = Some (Some (str_of_uuid int)) ∧
    String.length (str_of_uuid int) = 36%nat ∧
    without_hyphens (str_of_uuid int) = bound.
Proof.
  intros Hlt Hd. apply String.eqb_neq in Hd.
  exists (hex_width 32 int).
  destruct (without_hyphens_str_of_uuid int Hlt) as [Hw Hl].
  unfold process_bind_param, load_dialect_impl. rewrite Hd.
  rewrite format_032x_uuid, hex_width_length, hex_width_lower by done.
  done.
Qed.

(** * The further properties on the example flows *)

(** The task tagged [db], throttled to two at a time, gets the one queue of
    that tag. *)
Lemma run_gives_each_task_its_queues_witness :
  NoDup [("db", 2%Z)].*1 ∧
  Forall (λ c, call_queues c = [queue_of 2])
    (calls (run tagged_runner all_succeed ∅ None None None None false None
                None None None (Some [("db", 2%Z)])).2).
Proof.
  assert (Hnd : NoDup [("db", 2%Z)].*1) by apply NoDup_singleton.
  split; [exact Hnd|].
  eapply Forall_impl.
  - exact (run_gives_each_task_its_queues tagged_runner all_succeed ∅ None
             None None None false None None None None
             (Some [("db", 2%Z)]) Hnd).
  - intros c ->. vm_compute. reflexivity.
Defined.

(** The pipeline run from its roots. *)
Lemma the_method_returns_a_state_witness :
  ∃ st σ' evs,
    get_flow_run_state pipeline_runner running None None ∅ None all_succeed
                       false None ∅ empty_sched = (Return st, σ') ∧
    events σ' = events empty_sched ++ evs ∧
    dispatch_order evs = [0%nat; 1%nat; 2%nat].
Proof.
  apply (the_method_returns_a_state pipeline_runner running None None ∅ None
           all_succeed None ∅ empty_sched [0%nat; 1%nat; 2%nat]).
  - reflexivity.
  - vm_compute. reflexivity.
  - by intros t ?%elem_of_nil.
Defined.

(** The pipeline started at [B] under [return_failed]: [A], never
    dispatched, is reported with the default state. *)
Lemma return_failed_reports_the_defaulted_upstream_witness :
  ∃ st,
    (get_flow_run_state pipeline_runner running
       (Some {[1%nat := One pending_with_x]}) (Some [1%nat]) ∅ None
       all_succeed true None ∅ empty_sched).1 = Return st ∧
    result st ≫= (.!! 0%nat) = Some state_not_available.
Proof.
  destruct (get_flow_run_state pipeline_runner running
       (Some {[1%nat := One pending_with_x]}) (Some [1%nat]) ∅ None
       all_succeed true None ∅ empty_sched) as [o σ'] eqn:Hrun.
  assert (Ho : returned o = true).
  { change o with (o, σ').1. rewrite <- Hrun. vm_compute. reflexivity. }
  destruct o as [st| |]; [|discriminate|discriminate].
  exists st. split; [reflexivity|].
  apply (return_failed_reports_the_defaulted_upstream pipeline_runner running
           (Some {[1%nat := One pending_with_x]}) (Some [1%nat]) ∅ None
           all_succeed None ∅ empty_sched st σ' [1%nat; 2%nat] 0%nat 1%nat
           Hrun).
  - vm_compute. reflexivity.
  - by left.
  - vm_compute. by left.
  - intros [Heq|Hin]%elem_of_cons; [discriminate|].
    apply list_elem_of_singleton in Hin. discriminate.
  - vm_compute. reflexivity.
Defined.

(** The pipeline started at [B]: with a [Success] state supplied for it the
    method raises [AssertionError], with [Pending()] it raises
    [TypeError]. *)
Lemma the_first_refused_start_task_ends_the_loop_witness :
  (get_flow_run_state pipeline_runner running
     (Some {[1%nat := One success_with_x]}) (Some [1%nat]) ∅ None all_succeed
     false None ∅ empty_sched).1
  = Raise AssertionError ∧
  (get_flow_run_state pipeline_runner running
     (Some {[1%nat := One pending_without_inputs]}) (Some [1%nat]) ∅ None
     all_succeed false None ∅ empty_sched).1
  = Raise TypeError.
Proof.
  split.
  - apply (the_first_refused_start_task_ends_the_loop pipeline_runner running
             (Some {[1%nat := One success_with_x]}) (Some [1%nat]) ∅ None
             all_succeed false None ∅ empty_sched [1%nat; 2%nat]
             AssertionError).
    + reflexivity.
    + vm_compute. reflexivity.
    + by left.
    + exists [], 1%nat, [2%nat]. split; [reflexivity|]. split; [by left|].
      split; [vm_compute; reflexivity|]. by intros u ?%elem_of_nil.
  - apply (the_first_refused_start_task_ends_the_loop pipeline_runner running
             (Some {[1%nat := One pending_without_inputs]}) (Some [1%nat]) ∅
             None all_succeed false None ∅ empty_sched [1%nat; 2%nat]
             TypeError).
    + reflexivity.
    + vm_compute. reflexivity.
    + by right.
    + exists [], 1%nat, [2%nat]. split; [reflexivity|]. split; [by left|].
      split; [vm_compute; reflexivity|]. by intros u ?%elem_of_nil.
Defined.

(** Two islands, started at the first, under [return_failed]: the second is
    a terminal task that is never dispatched, and the read of its final
    state raises [KeyError]. *)
Lemma return_failed_misses_the_unreached_terminal_task_witness :
  ∃ t',
    (get_flow_run_state islands_runner running None (Some [0%nat]) ∅ None
                        all_succeed true None ∅ empty_sched).1
    = Raise (KeyError t').
Proof.
  apply (proj2 (return_failed_misses_the_unreached_terminal_task
                  islands_runner running None (Some [0%nat]) ∅ None
                  all_succeed None ∅ empty_sched [0%nat] 1%nat
                  eq_refl ltac:(vm_compute; reflexivity)
                  ltac:(apply elem_of_filter; split; [reflexivity|];
                        apply elem_of_union; right; by apply elem_of_singleton)
                  ltac:(intros Hin%list_elem_of_singleton; discriminate)
                  eq_refl)).
  intros u _. reflexivity.
Defined.


(** C9, as amended: started from [B] with a pending state that caches
    [x = 7], [B] is dispatched with that input; [A] never runs. *)
Lemma C9_witness :
  ∃ st σ',
    get_flow_run_state pipeline_runner running
                       (Some {[1%nat := One pending_with_x]}) (Some [1%nat])
                       {[2%nat]} None all_succeed false None ∅ empty_sched
    = (Return st, σ') ∧
    dispatch_order (events σ') = [1%nat; 2%nat] ∧
    ∃ c, c ∈ calls (events σ') ∧ call_task c = 1%nat ∧
         call_inputs c = {["x" := PyInt 7]}.
Proof.
  eexists _, _.
  assert (Hrun : get_flow_run_state pipeline_runner running
                   (Some {[1%nat := One pending_with_x]}) (Some [1%nat])
                   {[2%nat]} None all_succeed false None ∅ empty_sched
                 = (Return _, _)) by (vm_compute; reflexivity).
  split; [exact Hrun|]. split; [vm_compute; reflexivity|].
  destruct (C9_cached_inputs_of_a_pending_start_task pipeline_runner running
              (Some {[1%nat := One pending_with_x]}) (Some [1%nat]) {[2%nat]}
              None all_succeed false None ∅ empty_sched _ _ 1%nat
              (One pending_with_x) ltac:(by left) eq_refl Hrun)
    as (evs & Hev & Hinputs & Hrun' & _).
  destruct (Hrun' _ eq_refl) as (c & Hc & Ht).
  exists c. simpl in Hev. rewrite Hev.
  split; [exact Hc|]. split; [exact Ht|].
  destruct (Hinputs c Hc Ht) as [_ Hci]. by injection Hci as <-.
Defined.

(** [TaskRun] is an ASCII name; its table is [task_run], one character
    longer. *)
Lemma tablename_is_snake_case_witness :
  string_forall is_ascii "TaskRun" = true ∧
  tablename "TaskRun" = "task_run" ∧
  String.length (tablename "TaskRun") = 8%nat.
Proof.
  split; [reflexivity|]. split; [reflexivity|].
  exact (proj2 (tablename_is_snake_case "TaskRun" eq_refl)).
Defined.

(** The handler of the vetoed flow ends the run before it starts. *)
Lemma a_state_handler_can_end_the_run_witness :
  run vetoed_runner all_succeed ∅ (Some (mkState Pending NoMessage None None))
      None None None false None None None None None
  = (Returned finished_before, []).
Proof.
  apply (a_state_handler_can_end_the_run vetoed_runner all_succeed ∅
           (mkState Pending NoMessage None None) None None None false None None
           None None None).
  - by intros tag n ?%elem_of_nil.
  - by intros t ?%elem_of_nil.
  - reflexivity.
  - reflexivity.
Defined.

(** [TaskRun] and [FlowRun] get the tables [task_run] and [flow_run]. *)
Lemma tablename_tells_cap_words_apart_witness :
  tablename "TaskRun" = "task_run" ∧ tablename "FlowRun" = "flow_run" ∧
  tablename "TaskRun" ≠ tablename "FlowRun".
Proof.
  split; [reflexivity|]. split; [reflexivity|]. intros Heq.
  apply (tablename_tells_cap_words_apart "TaskRun" "FlowRun") in Heq.
  - discriminate.
  - split; reflexivity.
  - split; reflexivity.
Defined.

(** The UUID [12345678-1234-5678-1234-567812345678] on SQLite. *)
Lemma uuid_is_bound_as_32_hex_digits_witness :
  ∃ bound,
    process_bind_param (λ _, None)
      (DbUUID 24197857161011715162171839636988778104) (mkDialect "sqlite")
      = Some (Some bound) ∧
    load_dialect_impl (mkDialect "sqlite") = CHAR (String.length bound) ∧
    String.length bound = 32%nat ∧
    string_forall is_lower_hex bound = true ∧
    process_bind_param (λ _, None)
      (DbUUID 24197857161011715162171839636988778104) (mkDialect "postgresql")
      = Some (Some (str_of_uuid 24197857161011715162171839636988778104)) ∧
    process_result_value (λ _, None)
      (DbUUID 24197857161011715162171839636988778104) (mkDialect "sqlite")
      = Some (Some (str_of_uuid 24197857161011715162171839636988778104)) ∧
    String.length (str_of_uuid 24197857161011715162171839636988778104)
      = 36%nat ∧
    without_hyphens (str_of_uuid 24197857161011715162171839636988778104)
      = bound.
Proof.
  apply (uuid_is_bound_as_32_hex_digits (λ _, None)
           24197857161011715162171839636988778104 (mkDialect "sqlite")).
  - reflexivity.
  - discriminate.
Defined.
